(** * EchoQuest: maze generation, navigation and sound playback

    A shallow embedding of the two [GameLogic] classes of the repository
    (the randomized depth-first carve with breadth-first distance, and the
    fixed corridor carve with Manhattan distance), of the [AudioSystem]
    class, and of the move history and the counters of the game screen and
    its visual monitor, followed by the properties proved about them.

    Conventions.  JavaScript numbers that hold grid coordinates and counters
    are integers, modelled by [Z].  A [number[][]] is a [list (list Z)],
    indexed as [maze[y][x]].  [Math.random] is an oracle giving, for each
    call in turn, a rational number. *)

From stdpp Require Import base numbers option list sorting strings pretty gmap.
From Stdlib Require Import ZArith Lia QArith Qminmax Qround.

Local Open Scope Z_scope.

(** ** Positions, states and move outcomes *)

Record Position := mkPosition { pos_x : Z; pos_y : Z }.

Record GameState := mkGameState {
  playerPosition : Position;
  goalPosition : Position;
  maze : list (list Z);
  gameWon : bool;
  moveCount : Z
}.

Inductive Direction := north | south | east | west.

Record MoveOutcome := mkMoveOutcome {
  success : bool;
  hitWall : bool;
  isCorrectDirection : bool;
  distanceToGoal : Z
}.

Definition CELL_EMPTY : Z := 0.
Definition CELL_WALL : Z := 1.

#[global] Instance Position_eq_dec : EqDecision Position.
Proof. solve_decision. Defined.

(** ** Grids *)

(** [g[y][x]]; [None] stands for [undefined] (no such row or column).
    Every read in the source is guarded by a bounds test. *)
Definition grid_get {A} (g : list (list A)) (x y : Z) : option A :=
  if (0 <=? y) && (0 <=? x)
  then match g !! Z.to_nat y with
       | Some row => row !! Z.to_nat x
       | None => None
       end
  else None.

(** [g[y][x] = v].  An index outside the array leaves every existing
    element as it is (JavaScript would grow the row, or throw when the row
    itself is missing; no write of the source does so on the grids and
    states considered below). *)
Definition grid_set {A} (g : list (list A)) (x y : Z) (v : A) : list (list A) :=
  if (0 <=? y) && (0 <=? x)
  then match g !! Z.to_nat y with
       | Some row => <[Z.to_nat y := <[Z.to_nat x := v]> row]> g
       | None => g
       end
  else g.

Definition maze_get (m : list (list Z)) (x y : Z) : option Z := grid_get m x y.

Definition maze_set (m : list (list Z)) (x y : Z) (v : Z) : list (list Z) :=
  grid_set m x y v.

(** [maze[y][x] === v] *)
Definition cell_is (m : list (list Z)) (x y : Z) (v : Z) : bool :=
  match maze_get m x y with
  | Some c => c =? v
  | None => false
  end.

(** [maze[0].length] (JavaScript throws on a grid without rows) and
    [maze.length] *)
Definition maze_width (m : list (list Z)) : Z :=
  match m with
  | row :: _ => Z.of_nat (length row)
  | [] => 0
  end.

Definition maze_height (m : list (list Z)) : Z := Z.of_nat (length m).

(** The all-wall grid built by the two nested loops of [generateMaze]. *)
Definition wall_grid (width height : Z) : list (list Z) :=
  replicate (Z.to_nat height) (replicate (Z.to_nat width) CELL_WALL).

(** ** Code shared by both engines *)

Definition getNewPosition (s : GameState) (d : Direction) : Position :=
  let x := pos_x (playerPosition s) in
  let y := pos_y (playerPosition s) in
  match d with
  | north => mkPosition x (y - 1)
  | south => mkPosition x (y + 1)
  | east => mkPosition (x + 1) y
  | west => mkPosition (x - 1) y
  end.

Definition isValidPosition (s : GameState) (pos : Position) : bool :=
  (0 <=? pos_x pos) && (pos_x pos <? maze_width (maze s)) &&
  (0 <=? pos_y pos) && (pos_y pos <? maze_height (maze s)).

Definition canMove (s : GameState) (d : Direction) : bool :=
  let newPos := getNewPosition s d in
  isValidPosition s newPos &&
  cell_is (maze s) (pos_x newPos) (pos_y newPos) CELL_EMPTY.

(** [getDistance]: the Manhattan distance. *)
Definition getDistance (pos1 pos2 : Position) : Z :=
  Z.abs (pos_x pos1 - pos_x pos2) + Z.abs (pos_y pos1 - pos_y pos2).

(** The test [hitWall] of [movePlayer]. *)
Definition hitsWall (s : GameState) (d : Direction) : bool :=
  let newPos := getNewPosition s d in
  negb (isValidPosition s newPos) ||
  cell_is (maze s) (pos_x newPos) (pos_y newPos) CELL_WALL.

(** [movePlayer], identical in both classes up to the private method
    [getDistanceToGoal] it calls; the result is the returned object and
    the state after the call. *)
Definition movePlayerWith (getDistanceToGoal : GameState -> Z)
    (s : GameState) (d : Direction) : MoveOutcome * GameState :=
  let newPos := getNewPosition s d in
  if hitsWall s d
  then (mkMoveOutcome false true false (getDistanceToGoal s), s)
  else
    let currentDistance := getDistanceToGoal s in
    let newDistance := getDistance newPos (goalPosition s) in
    let isCorrect := newDistance <? currentDistance in
    let reached := (pos_x newPos =? pos_x (goalPosition s)) &&
                   (pos_y newPos =? pos_y (goalPosition s)) in
    (mkMoveOutcome true false isCorrect newDistance,
     mkGameState newPos (goalPosition s) (maze s)
                 (if reached then true else gameWon s)
                 (moveCount s + 1)).

(** ** Breadth-first distance ([getDistanceToGoal] of the DFS engine) *)

Record QueueItem := mkQueueItem { item_x : Z; item_y : Z; item_dist : Z }.

Definition bfs_directions : list (Z * Z) := [(0, -1); (0, 1); (1, 0); (-1, 0)].

(** [visited[y][x]], read only under [!]: a missing entry counts as unvisited. *)
Definition visited_get (visited : list (list bool)) (x y : Z) : bool :=
  default false (grid_get visited x y).

(** [visited[y][x] = true] *)
Definition visited_mark (visited : list (list bool)) (x y : Z) : list (list bool) :=
  grid_set visited x y true.

(** One turn of the inner [for] loop over the four directions. *)
Definition bfs_visit (m : list (list Z)) (width height : Z) (x y dist : Z)
    (st : list QueueItem * list (list bool)) (dir : Z * Z)
    : list QueueItem * list (list bool) :=
  let nx := x + dir.1 in
  let ny := y + dir.2 in
  if (0 <=? nx) && (nx <? width) && (0 <=? ny) && (ny <? height) &&
     cell_is m nx ny CELL_EMPTY && negb (visited_get st.2 nx ny)
  then (st.1 ++ [mkQueueItem nx ny (dist + 1)], visited_mark st.2 nx ny)
  else st.

(** The [while (queue.length > 0)] loop; [None] when the fuel runs out. *)
Fixpoint bfs_loop (fuel : nat) (m : list (list Z)) (goal : Position)
    (width height : Z) (queue : list QueueItem) (visited : list (list bool))
    : option Z :=
  match fuel with
  | O => None
  | S fuel' =>
    match queue with
    | [] => Some 9999
    | it :: rest =>
      if (item_x it =? pos_x goal) && (item_y it =? pos_y goal)
      then Some (item_dist it)
      else
        let st := foldl (bfs_visit m width height (item_x it) (item_y it) (item_dist it))
                        (rest, visited) bfs_directions in
        bfs_loop fuel' m goal width height st.1 st.2
    end
  end.

(** Each turn of the loop dequeues one item and every cell is enqueued at
    most once, so this many turns always suffice ([bfs_loop_correct]). *)
Definition bfs_fuel (m : list (list Z)) : nat :=
  S (S (Z.to_nat (maze_width m * maze_height m))).

Definition bfs_search (s : GameState) : option Z :=
  let width := maze_width (maze s) in
  let height := maze_height (maze s) in
  let p := playerPosition s in
  let visited := replicate (Z.to_nat height) (replicate (Z.to_nat width) false) in
  bfs_loop (bfs_fuel (maze s)) (maze s) (goalPosition s) width height
           [mkQueueItem (pos_x p) (pos_y p) 0]
           (visited_mark visited (pos_x p) (pos_y p)).

(** ** Randomized depth-first carve ([generateMazeDFS]) *)

(** [Math.floor(Math.random() * (i + 1))], where [rnd k] is the value
    returned by the [k]-th call of [Math.random]. *)
Definition random_index (rnd : nat -> Q) (k : nat) (i : nat) : nat :=
  Z.to_nat (Qfloor (rnd k * inject_Z (Z.of_nat (i + 1)))).

(** [[a[i], a[j]] = [a[j], a[i]]].  [Math.random] returns values in
    [0, 1), so both indices exist; otherwise the array is left as it is. *)
Definition swap {A} (i j : nat) (l : list A) : list A :=
  match l !! i, l !! j with
  | Some a, Some b => <[j := a]> (<[i := b]> l)
  | _, _ => l
  end.

(** The Fisher-Yates loop [for (i = ...; i > 0; i--)], from index [i] down;
    returns the array and the number of draws consumed so far. *)
Fixpoint shuffle_from (rnd : nat -> Q) (k : nat) (i : nat) (dirs : list (Z * Z))
    : list (Z * Z) * nat :=
  match i with
  | O => (dirs, k)
  | S i' => shuffle_from rnd (S k) i' (swap i (random_index rnd k i) dirs)
  end.

Definition dfs_directions : list (Z * Z) := [(0, -2); (0, 2); (2, 0); (-2, 0)].

(** The guard of the inner [for] loop of the carve. *)
Definition carvable (m : list (list Z)) (width height : Z) (x y : Z) (dir : Z * Z) : bool :=
  let nx := x + dir.1 in
  let ny := y + dir.2 in
  (0 <? nx) && (nx <? width - 1) && (0 <? ny) && (ny <? height - 1) &&
  cell_is m nx ny CELL_WALL.

(** The [while (stack.length > 0)] loop.  The stack is kept with its top
    first; [dirs] is the [directions] array, shuffled in place at every
    turn; [k] counts the draws. *)
Fixpoint dfs_loop (fuel : nat) (rnd : nat -> Q) (k : nat) (m : list (list Z))
    (width height : Z) (stack : list (Z * Z)) (dirs : list (Z * Z))
    : option (list (list Z)) :=
  match fuel with
  | O => None
  | S fuel' =>
    match stack with
    | [] => Some m
    | (x, y) :: below =>
      let sh := shuffle_from rnd k (length dirs - 1) dirs in
      match List.find (carvable m width height x y) sh.1 with
      | Some (dx, dy) =>
        let nx := x + dx in
        let ny := y + dy in
        let m1 := maze_set m nx ny CELL_EMPTY in
        let m2 := maze_set m1 (x + dx `quot` 2) (y + dy `quot` 2) CELL_EMPTY in
        dfs_loop fuel' rnd sh.2 m2 width height ((nx, ny) :: stack) sh.1
      | None => dfs_loop fuel' rnd sh.2 m width height below sh.1
      end
    end
  end.

(** Every turn either carves a wall cell or pops the stack. *)
Definition dfs_fuel (m : list (list Z)) : nat :=
  S (S (2 * Z.to_nat (maze_width m * maze_height m))).

Definition generateMazeDFS (rnd : nat -> Q) (m : list (list Z)) (startX startY : Z)
    : option (list (list Z)) :=
  let width := maze_width m in
  let height := maze_height m in
  dfs_loop (dfs_fuel m) rnd 0 (maze_set m startX startY CELL_EMPTY)
           width height [(startX, startY)] dfs_directions.

(** ** The engine with the depth-first carve and breadth-first distance *)

Module GameLogic.

(** The search always returns within its fuel ([bfs_search_correct]); the
    default value is never produced on a well-formed state. *)
Definition getDistanceToGoal (s : GameState) : Z :=
  default (-1) (bfs_search s).

Definition movePlayer : GameState -> Direction -> MoveOutcome * GameState :=
  movePlayerWith getDistanceToGoal.

(** [if (n % 2 === 0) n++] *)
Definition oddUp (n : Z) : Z := if n `rem` 2 =? 0 then n + 1 else n.

(** [None] would mean that the carve ran out of fuel; it never does
    ([generateMaze_inv]). *)
Definition generateMaze (rnd : nat -> Q) (width height : Z) : option (list (list Z)) :=
  generateMazeDFS rnd (wall_grid (oddUp width) (oddUp height)) 1 1.

(** [new GameLogic(width, height)] *)
Definition create (rnd : nat -> Q) (width height : Z) : option GameState :=
  match generateMaze rnd width height with
  | Some m => Some (mkGameState (mkPosition 1 1) (mkPosition (width - 2) (height - 2)) m false 0)
  | None => None
  end.

Definition resetGame (rnd : nat -> Q) (s : GameState) : option GameState :=
  let width := maze_width (maze s) in
  let height := maze_height (maze s) in
  match generateMaze rnd width height with
  | Some m => Some (mkGameState (mkPosition 1 1) (mkPosition (width - 2) (height - 2)) m false 0)
  | None => None
  end.

End GameLogic.

(** ** The engine with the corridor carve and Manhattan distance *)

Module CorridorLogic.

Definition getDistanceToGoal (s : GameState) : Z :=
  getDistance (playerPosition s) (goalPosition s).

Definition movePlayer : GameState -> Direction -> MoveOutcome * GameState :=
  movePlayerWith getDistanceToGoal.

Definition createPath (m : list (list Z)) (width height : Z) : list (list Z) :=
  (* main horizontal corridor *)
  let m1 := foldl (fun m x => maze_set (maze_set m x 1 CELL_EMPTY) x (height - 2) CELL_EMPTY)
                  m (seqZ 1 (width - 2)) in
  (* main vertical corridor *)
  let m2 := foldl (fun m y => maze_set (maze_set m 1 y CELL_EMPTY) (width - 2) y CELL_EMPTY)
                  m1 (seqZ 1 (height - 2)) in
  let midX := width `div` 2 in
  let midY := height `div` 2 in
  (* middle cross *)
  let m3 := foldl (fun m x => maze_set m x midY CELL_EMPTY) m2 (seqZ 2 (width - 4)) in
  let m4 := foldl (fun m y => maze_set m midX y CELL_EMPTY) m3 (seqZ 2 (height - 4)) in
  (* strategic walls *)
  if (5 <? width) && (5 <? height)
  then maze_set (maze_set m4 3 2 CELL_WALL) (width - 4) (height - 3) CELL_WALL
  else m4.

Definition generateMaze (width height : Z) : list (list Z) :=
  createPath (wall_grid width height) width height.

Definition create (width height : Z) : GameState :=
  mkGameState (mkPosition 1 1) (mkPosition (width - 2) (height - 2))
              (generateMaze width height) false 0.

Definition resetGame (s : GameState) : GameState :=
  let width := maze_width (maze s) in
  let height := maze_height (maze s) in
  mkGameState (mkPosition 1 1) (mkPosition (width - 2) (height - 2))
              (generateMaze width height) false 0.

End CorridorLogic.

(** [Math.random] returning 0.9 at every call: every shuffle then draws
    [j = i], so the [directions] array keeps its initial order. *)
Definition rnd_top : nat -> Q := fun _ => 0.9%Q.

(** ** Paths through EMPTY cells *)

Definition is_empty_cell (m : list (list Z)) (c : Position) : Prop :=
  maze_get m (pos_x c) (pos_y c) = Some CELL_EMPTY.

(** Two cells are 4-adjacent when they differ by one unit step. *)
Definition adjacent (a b : Position) : Prop :=
  Z.abs (pos_x a - pos_x b) + Z.abs (pos_y a - pos_y b) = 1.

(** [walk m a n b]: [b] is reached from [a] in [n] hops, each hop entering
    a 4-adjacent EMPTY cell. *)
Inductive walk (m : list (list Z)) (a : Position) : Z -> Position -> Prop :=
  | walk_here : walk m a 0 a
  | walk_step n b c :
      walk m a n b -> adjacent b c -> is_empty_cell m c -> walk m a (n + 1) c.

Definition connected (m : list (list Z)) (a b : Position) : Prop :=
  exists n, walk m a n b.

(** [n] is the minimum hop count from [a] to [b]. *)
Definition shortest (m : list (list Z)) (a : Position) (n : Z) (b : Position) : Prop :=
  walk m a n b /\ forall k, walk m a k b -> n <= k.

Definition rectangular {A} (g : list (list A)) (width height : Z) : Prop :=
  Z.of_nat (length g) = height /\
  Forall (fun row => Z.of_nat (length row) = width) g.

(** The states the engine works on: a rectangular grid with the player on
    one of its cells. *)
Definition well_formed (s : GameState) : Prop :=
  rectangular (maze s) (maze_width (maze s)) (maze_height (maze s)) /\
  isValidPosition s (playerPosition s) = true.

(** ** Invariant of the breadth-first loop

    [done] lists the items already dequeued, oldest first; [queue] is the
    queue and [visited] the matrix of marks at the head of the loop. *)

Definition item_pos (it : QueueItem) : Position :=
  mkPosition (item_x it) (item_y it).

Definition item_xy (it : QueueItem) : Z * Z := (item_x it, item_y it).

Definition step_to (a : Position) (dir : Z * Z) : Position :=
  mkPosition (pos_x a + dir.1) (pos_y a + dir.2).

(** The neighbour of [it] in direction [dir], when it is an EMPTY cell, has
    been enqueued at most one level further than [it]. *)
Definition covered (m : list (list Z)) (seen : list QueueItem)
    (it : QueueItem) (dir : Z * Z) : Prop :=
  is_empty_cell m (step_to (item_pos it) dir) ->
  exists it', it' ∈ seen /\ item_pos it' = step_to (item_pos it) dir /\
              item_dist it' <= item_dist it + 1.

Record bfs_inv (m : list (list Z)) (src goal : Position) (width height : Z)
    (done queue : list QueueItem) (visited : list (list bool)) : Prop := {
  inv_rect : rectangular visited width height;
  inv_src : mkQueueItem (pos_x src) (pos_y src) 0 ∈ done ++ queue;
  inv_walk : forall it, it ∈ done ++ queue ->
    walk m src (item_dist it) (item_pos it);
  inv_inside : forall it, it ∈ done ++ queue ->
    0 <= item_x it < width /\ 0 <= item_y it < height;
  inv_visited : forall x y,
    visited_get visited x y = true <->
    exists it, it ∈ done ++ queue /\ (item_x it = x) /\ (item_y it = y);
  inv_nodup : NoDup (item_xy <$> done ++ queue);
  inv_sorted : StronglySorted (fun a b => item_dist a <= item_dist b) queue;
  inv_front : forall it, head queue = Some it ->
    forall it', it' ∈ done ++ queue -> item_dist it' <= item_dist it + 1;
  inv_closed : forall it, it ∈ done ->
    item_pos it <> goal /\
    forall dir, dir ∈ bfs_directions -> covered m (done ++ queue) it dir;
  inv_index : forall i it, (done ++ queue) !! i = Some it ->
    item_dist it <= Z.of_nat i
}.

(** What [getDistanceToGoal] has to return. *)
Definition bfs_spec (m : list (list Z)) (src goal : Position) (d : Z) : Prop :=
  (shortest m src d goal /\ d < maze_width m * maze_height m) \/
  (~ connected m src goal /\ d = 9999).

(** ** Invariant of the depth-first carve *)

Record dfs_inv (width height : Z) (m : list (list Z)) (stack : list (Z * Z)) : Prop := {
  dfs_rect : rectangular m width height;
  dfs_cells : forall x y v, maze_get m x y = Some v -> v = CELL_EMPTY \/ v = CELL_WALL;
  dfs_border : forall x y, maze_get m x y = Some CELL_EMPTY ->
    0 < x < width - 1 /\ 0 < y < height - 1;
  dfs_start : maze_get m 1 1 = Some CELL_EMPTY;
  dfs_conn : forall c, is_empty_cell m c -> connected m (mkPosition 1 1) c;
  dfs_stack : forall x y, (x, y) ∈ stack ->
    x `mod` 2 = 1 /\ y `mod` 2 = 1 /\ maze_get m x y = Some CELL_EMPTY;
  dfs_closed : forall x y,
    x `mod` 2 = 1 -> y `mod` 2 = 1 -> maze_get m x y = Some CELL_EMPTY ->
    (x, y) ∈ stack \/
    forall dir, dir ∈ dfs_directions ->
      0 < x + dir.1 < width - 1 -> 0 < y + dir.2 < height - 1 ->
      maze_get m (x + dir.1) (y + dir.2) = Some CELL_EMPTY;
  dfs_parity : forall x y, maze_get m x y = Some CELL_EMPTY ->
    x `mod` 2 = 1 \/ y `mod` 2 = 1
}.

(** The number of WALL cells of a grid. *)
Definition wall_count (m : list (list Z)) : nat :=
  sum_list_with (sum_list_with (fun v => if v =? CELL_WALL then 1%nat else 0%nat)) m.

(** ** The cells written by the corridor carve *)

(** Writing one value to a list of cells, first to last. *)
Definition set_cells (m : list (list Z)) (cells : list (Z * Z)) (v : Z) : list (list Z) :=
  foldl (fun m c => maze_set m c.1 c.2 v) m cells.

(** The cells that the four loops of [createPath] set to EMPTY, in order. *)
Definition corridor_cells (width height : Z) : list (Z * Z) :=
  (x ← seqZ 1 (width - 2); [(x, 1); (x, height - 2)]) ++
  (y ← seqZ 1 (height - 2); [(1, y); (width - 2, y)]) ++
  ((fun x => (x, height `div` 2)) <$> seqZ 2 (width - 4)) ++
  ((fun y => (width `div` 2, y)) <$> seqZ 2 (height - 4)).

(** ** States reached by playing *)

(** The state after a sequence of [movePlayer] calls. *)
Definition play (s : GameState) (moves : list Direction) : GameState :=
  foldl (fun s d => (GameLogic.movePlayer s d).2) s moves.

(** ** Properties of generated grids *)

(** Start and goal are EMPTY and joined by EMPTY cells, and the
    breadth-first distance between them is the minimum hop count, below the
    number of cells. *)
Definition solvable (m : list (list Z)) (width height : Z) : Prop :=
  let start := mkPosition 1 1 in
  let goal := mkPosition (width - 2) (height - 2) in
  rectangular m width height /\
  is_empty_cell m start /\ is_empty_cell m goal /\ connected m start goal /\
  exists d, bfs_search (mkGameState start goal m false 0) = Some d /\
            GameLogic.getDistanceToGoal (mkGameState start goal m false 0) = d /\
            shortest m start d goal /\ d < width * height.

(** The outer ring is WALL, every EMPTY cell lies strictly inside it, and
    so does every cell the player can step to. *)
Definition walled (m : list (list Z)) (width height : Z) : Prop :=
  rectangular m width height /\
  (forall x y, maze_get m x y = Some CELL_EMPTY ->
     1 <= x <= width - 2 /\ 1 <= y <= height - 2) /\
  (forall x y, 0 <= x < width -> 0 <= y < height ->
     x = 0 \/ x = width - 1 \/ y = 0 \/ y = height - 1 ->
     maze_get m x y = Some CELL_WALL) /\
  (forall s d, maze s = m -> canMove s d = true ->
     1 <= pos_x (getNewPosition s d) <= width - 2 /\
     1 <= pos_y (getNewPosition s d) <= height - 2).

(** ** Sound playback ([AudioSystem.playSound]) *)

Module AudioSystem.

(** A mono sample buffer. *)
Definition AudioBuffer := list Q.

Inductive AudioNode := SourceNode | GainNode | PannerNode | Destination.

(** The operations [playSound] performs on the audio context and on the
    nodes it creates. *)
Inductive AudioCall :=
  | createBufferSource
  | createGain
  | createStereoPanner
  | setBuffer (buffer : AudioBuffer)
  | setPan (value : Q)
  | connect (from to : AudioNode)
  | start.

(** What the outside world sees: the operations issued to the audio
    device and the lines written to the console. *)
Record Device := mkDevice { issued : list AudioCall; console : list string }.

(** A computation returns or throws, and may act on the device. *)
Inductive Completion (A : Type) :=
  | Returned (a : A)
  | Threw (error : string).
Arguments Returned {A} a.
Arguments Threw {A} error.

Definition Audio (A : Type) : Type := Device -> Completion A * Device.

Definition ret {A} (a : A) : Audio A := fun dev => (Returned a, dev).

Definition bind {A B} (c : Audio A) (k : A -> Audio B) : Audio B :=
  fun dev =>
    match c dev with
    | (Returned a, dev') => k a dev'
    | (Threw e, dev') => (Threw e, dev')
    end.

#[global] Instance Audio_ret : MRet Audio := @ret.
#[global] Instance Audio_bind : MBind Audio := fun A B k c => bind c k.

(** One operation on the context: it throws when the context refuses it
    ([broken]), and is recorded otherwise. *)
Definition perform (broken : AudioCall -> bool) (c : AudioCall) : Audio unit :=
  fun dev =>
    if broken c then (Threw "audio error", dev)
    else (Returned tt, mkDevice (issued dev ++ [c]) (console dev)).

Definition console_warn (msg : string) : Audio unit :=
  fun dev => (Returned tt, mkDevice (issued dev) (console dev ++ [msg])).

(** [try { body } catch (error) { handler }] *)
Definition try_catch (body : Audio unit) (handler : string -> Audio unit) : Audio unit :=
  fun dev =>
    match body dev with
    | (Returned _, dev') => (Returned tt, dev')
    | (Threw e, dev') => handler e dev'
    end.

Record System := mkSystem {
  isInitialized : bool;
  sounds : gmap string AudioBuffer
}.

(** [this.sounds.has(soundName)] *)
Definition has (m : gmap string AudioBuffer) (k : string) : bool :=
  match m !! k with
  | Some _ => true
  | None => false
  end.

Definition playSound (broken : AudioCall -> bool) (sys : System)
    (soundName : string) (panValue : Q) : Audio () :=
  if negb (isInitialized sys) || negb (has (sounds sys) soundName)
  then mret tt
  else
    try_catch
      (match sounds sys !! soundName with
       | Some buffer =>
         perform broken createBufferSource ;;
         perform broken createGain ;;
         perform broken createStereoPanner ;;
         perform broken (setBuffer buffer) ;;
         perform broken (setPan (Qmax (-1) (Qmin 1 panValue))) ;;
         perform broken (connect SourceNode GainNode) ;;
         perform broken (connect GainNode PannerNode) ;;
         perform broken (connect PannerNode Destination) ;;
         perform broken start
       | None => fun dev => (Threw "buffer is undefined", dev)
       end)
      (fun error => console_warn "Failed to play sound:").

(** The sound names cached by [generateSounds], with their buffers left
    empty: only the presence of a name matters to [playSound]. *)
Definition cached_names : list string :=
  ["footstep-normal"; "footstep-correct"; "wall-collision"; "open-space";
   "goal-close"; "goal-medium"; "goal-near"; "celebration"].

Definition initialized_system : System :=
  mkSystem true (list_to_map ((fun name => (name, [])) <$> cached_names)).

Definition silent : Device := mkDevice [] [].

(** ** Starting the audio system ([initialize], [generateSounds]) *)

(** The audio context as [initialize] meets it: whether it is suspended,
    whether [resume] is refused, and what the buffer generator of each
    sound does when [generateSounds] calls it: it returns a buffer, or
    throws when the context refuses [createBuffer].  The samples are
    floating-point syntheses; only the buffer that is stored matters
    here. *)
Record Context := mkContext {
  suspended : bool;
  resume_fails : bool;
  synthesize : string -> Completion AudioBuffer
}.

(** The statements [this.sounds.set(name, generate...)] of
    [generateSounds], first to last: a generator that throws leaves the
    sounds set so far in the map. *)
Fixpoint set_sounds (synthesize : string -> Completion AudioBuffer)
    (names : list string) (sounds : gmap string AudioBuffer)
    : Completion unit * gmap string AudioBuffer :=
  match names with
  | [] => (Returned tt, sounds)
  | name :: rest =>
    match synthesize name with
    | Returned buffer => set_sounds synthesize rest (<[name := buffer]> sounds)
    | Threw error => (Threw error, sounds)
    end
  end.

Definition generateSounds (ctx : Context) (sounds : gmap string AudioBuffer)
    : Completion unit * gmap string AudioBuffer :=
  set_sounds (synthesize ctx) cached_names sounds.

(** The object [new AudioSystem()] builds. *)
Definition new_system : System := mkSystem false ∅.

(** [initialize]: the object after the call is the value returned. *)
Definition initialize (ctx : Context) (sys : System) : Audio System :=
  fun dev =>
    let failed (sys' : System) :=
      (Returned sys', (console_warn "Audio initialization failed:" dev).2) in
    if isInitialized sys then (Returned sys, dev)
    else if suspended ctx && resume_fails ctx then failed sys
    else
      match generateSounds ctx (sounds sys) with
      | (Returned _, sounds') => (Returned (mkSystem true sounds'), dev)
      | (Threw _, sounds') => failed (mkSystem false sounds')
      end.

(** ** The named sounds *)

Definition playDirectionalFootstep (broken : AudioCall -> bool) (sys : System)
    (isCorrectDirection : bool) (panValue : Q) : Audio () :=
  let soundName :=
    if isCorrectDirection then "footstep-correct" else "footstep-normal" in
  playSound broken sys soundName panValue.

Definition playGoalGlow (broken : AudioCall -> bool) (sys : System)
    (distance : Z) : Audio () :=
  let soundName :=
    if distance <=? 2 then "goal-near"
    else if distance <=? 4 then "goal-medium"
    else "goal-close" in
  playSound broken sys soundName 0.

Definition playCelebration (broken : AudioCall -> bool) (sys : System) : Audio () :=
  playSound broken sys "celebration" 0.

(** A context that refuses nothing. *)
Definition working : AudioCall -> bool := fun _ => false.

(** An audio system that is marked initialized holds every sound of
    [generateSounds]. *)
Definition ready (sys : System) : Prop :=
  isInitialized sys = true ->
  forall name, name ∈ cached_names -> has (sounds sys) name = true.

(** A context in which [initialize] meets no refusal. *)
Definition healthy (ctx : Context) : Prop :=
  suspended ctx && resume_fails ctx = false /\
  forall name, name ∈ cached_names -> exists buffer, synthesize ctx name = Returned buffer.

(** A healthy context that stores an empty buffer for each sound. *)
Definition quiet_context : Context :=
  mkContext true false (fun _ => Returned []).

(** A context whose generator of the celebration sound throws. *)
Definition failing_context : Context :=
  mkContext false false
    (fun name => if String.eqb name "celebration" then Threw "createBuffer failed"
                 else Returned []).

(** [run] returns normally after one full playback on [dev]: nine
    operations, the last of them [start], and no warning. *)
Definition heard (run : Audio ()) (dev : Device) : Prop :=
  exists calls,
    run dev = (Returned tt, mkDevice (issued dev ++ calls) (console dev)) /\
    length calls = 9%nat /\ last calls = Some start.

End AudioSystem.

(** ** The key handler of the game screen ([EchoQuestGame.handleKeyPress]) *)

Module EchoQuestGame.

(** The handler for a direction key: the guard at its top, then
    [handleMove], which calls [movePlayer].  [shown] is the copy of the
    engine state held by the screen, refreshed after every move. *)
Definition handleKeyPress (isAudioInitialized isCelebrating : bool)
    (shown : GameState) (logic : GameState) (d : Direction) : GameState :=
  if negb isAudioInitialized || gameWon shown || isCelebrating
  then logic
  else (GameLogic.movePlayer logic d).2.

(** ** Difficulty levels ([getMazeSize]) *)

Inductive Difficulty := easy | medium | hard.

Definition getMazeSize (difficulty : Difficulty) : Z :=
  match difficulty with
  | easy => 9
  | medium => 15
  | hard => 25
  end.

(** ** Move history ([handleMove]) *)

(** An entry of [moveHistory]. *)
Record Visit := mkVisit { visit_x : Z; visit_y : Z; timestamp : Z }.

(** What [handleMove] does to the engine and to [moveHistory]; [now] is
    the value of [Date.now()].  Its sounds and messages are left to the
    audio system. *)
Definition handleMove (now : Z) (logic : GameState) (moveHistory : list Visit)
    (d : Direction) : GameState * list Visit :=
  let (result, newState) := GameLogic.movePlayer logic d in
  (newState,
   if success result
   then moveHistory ++
        [mkVisit (pos_x (playerPosition newState)) (pos_y (playerPosition newState)) now]
   else moveHistory).

(** A run of [handleMove] calls, each with the clock value at its time. *)
Definition handleMoves (logic : GameState) (moveHistory : list Visit)
    (keys : list (Direction * Z)) : GameState * list Visit :=
  foldl (fun st key => handleMove key.2 st.1 st.2 key.1) (logic, moveHistory) keys.

(** [initializeAudio]: the flag [isAudioInitialized] it sets and the audio
    system it leaves; the flag stays false only if [initialize] throws. *)
Definition initializeAudio (ctx : AudioSystem.Context) (sys : AudioSystem.System)
    : AudioSystem.Audio (bool * AudioSystem.System) :=
  fun dev =>
    match AudioSystem.initialize ctx sys dev with
    | (AudioSystem.Returned sys', dev') => (AudioSystem.Returned (true, sys'), dev')
    | (AudioSystem.Threw error, dev') => (AudioSystem.Returned (false, sys), dev')
    end.

End EchoQuestGame.

(** The state [s] with [gameWon] set. *)
Definition won (s : GameState) : GameState :=
  mkGameState (playerPosition s) (goalPosition s) (maze s) true (moveCount s).

(** ** A concrete state *)

(** A 5 x 5 state used to instantiate the statements below: the player at
    the start of a U-shaped corridor, the goal at its other end. *)
Definition example_state : GameState :=
  mkGameState (mkPosition 1 1) (mkPosition 3 1)
    [[1; 1; 1; 1; 1];
     [1; 0; 1; 0; 1];
     [1; 0; 1; 0; 1];
     [1; 0; 0; 0; 1];
     [1; 1; 1; 1; 1]] false 0.

(** A state of the 7 x 9 corridor game: from the start the player has
    walked south three times, east twice and south once, and stands at
    (3, 5), north of the wall placed at (3, 6); the goal is at (5, 7). *)
Definition corridor_dead_end : GameState :=
  foldl (fun s d => (CorridorLogic.movePlayer s d).2) (CorridorLogic.create 7 9)
        [south; south; south; east; east; south].

(** ** States of a running game *)

(** Every cell of the grid is EMPTY or WALL. *)
Definition binary_grid (m : list (list Z)) : Prop :=
  Forall (Forall (fun v => v = CELL_EMPTY \/ v = CELL_WALL)) m.

(** A well-formed state over such a grid, with the player on an EMPTY cell. *)
Definition playable (s : GameState) : Prop :=
  well_formed s /\ binary_grid (maze s) /\ is_empty_cell (maze s) (playerPosition s).

(** The direction that undoes a step. *)
Definition opposite (d : Direction) : Direction :=
  match d with
  | north => south
  | south => north
  | east => west
  | west => east
  end.

(** ** Cells of the corridor carve *)

(** The ring one cell inside the border, and the middle cross. *)
Definition on_corridor (width height x y : Z) : Prop :=
  (1 <= x <= width - 2 /\ (y = 1 \/ y = height - 2)) \/
  (1 <= y <= height - 2 /\ (x = 1 \/ x = width - 2)) \/
  (2 <= x <= width - 3 /\ y = height `div` 2) \/
  (2 <= y <= height - 3 /\ x = width `div` 2).

(** The two cells walled up again when both sizes exceed 5. *)
Definition strategic_wall (width height x y : Z) : Prop :=
  5 < width /\ 5 < height /\
  ((x, y) = (3, 2) \/ (x, y) = (width - 4, height - 3)).

(** ** The debug rendering ([getMazeString])

    A JavaScript string is the list of its UTF-16 code units. *)

Definition CHAR_EMPTY : Z := 183.    (* the middle dot *)
Definition CHAR_WALL : Z := 9608.    (* the full block *)
Definition CHAR_PLAYER : Z := 80.    (* P *)
Definition CHAR_GOAL : Z := 71.      (* G *)
Definition CHAR_UNKNOWN : Z := 63.   (* ? *)
Definition CHAR_SPACE : Z := 32.
Definition CHAR_NEWLINE : Z := 10.

(** [Array.prototype.join] on an array of strings. *)
Fixpoint join (sep : list Z) (parts : list (list Z)) : list Z :=
  match parts with
  | [] => []
  | [p] => p
  | p :: rest => p ++ sep ++ join sep rest
  end.

(** The [switch] that turns a cell into its glyph. *)
Definition glyph (cell : Z) : list Z :=
  if cell =? 0 then [CHAR_EMPTY]
  else if cell =? 1 then [CHAR_WALL]
  else if cell =? 2 then [CHAR_PLAYER]
  else if cell =? 3 then [CHAR_GOAL]
  else [CHAR_UNKNOWN].

(** The grid is copied row by row, the player is marked with 2 and then the
    goal with 3, and the copy is printed; the state itself is not touched. *)
Definition getMazeString (s : GameState) : list Z :=
  let copy := maze s in
  let marked1 := maze_set copy (pos_x (playerPosition s)) (pos_y (playerPosition s)) 2 in
  let marked2 := maze_set marked1 (pos_x (goalPosition s)) (pos_y (goalPosition s)) 3 in
  join [CHAR_NEWLINE] ((fun row => join [CHAR_SPACE] (glyph <$> row)) <$> marked2).

(** ** The visual monitor ([VisualMonitor]) *)

Module VisualMonitor.

(** [`${n}`] for an integer [n]: its decimal digits, with a minus sign
    when it is negative (JavaScript switches to exponent notation only
    from 10^21 on, far beyond any coordinate of a grid). *)
Definition number_to_string (n : Z) : string := pretty n.

(** [`${pos.x},${pos.y}`] *)
Definition position_key (pos : EchoQuestGame.Visit) : string :=
  number_to_string (EchoQuestGame.visit_x pos) +:+ "," +:+
  number_to_string (EchoQuestGame.visit_y pos).

(** [new Set(moveHistory.map(...)).size] *)
Definition uniquePositionsVisited (moveHistory : list EchoQuestGame.Visit) : nat :=
  size (list_to_set (position_key <$> moveHistory) : gset string).

(** [maze.reduce((total, row) => total + row.filter(cell => cell === 0).length, 0)] *)
Definition totalCells (m : list (list Z)) : nat :=
  foldl (fun (total : nat) (row : list Z) =>
           (total + length (filter (fun cell : Z => cell = 0%Z) row))%nat) 0%nat m.

(** [moveHistory.filter(pos => pos.x === x && pos.y === y).length] *)
Definition visitCount (moveHistory : list EchoQuestGame.Visit) (x y : Z) : nat :=
  length (filter (fun pos => EchoQuestGame.visit_x pos = x /\ EchoQuestGame.visit_y pos = y)
                 moveHistory).

End VisualMonitor.

(** ** Counting the cells of a depth-first maze *)

(** A cell of the odd lattice, on which the carve moves two cells at a
    time. *)
Definition lattice (c : Z * Z) : Prop := c.1 `mod` 2 = 1 /\ c.2 `mod` 2 = 1.

#[global] Instance lattice_dec c : Decision (lattice c).
Proof. unfold lattice. apply _. Defined.

(** The lattice cells strictly inside the border of a grid. *)
Definition lattice_cells (width height : Z) : list (Z * Z) :=
  x ← seqZ 0 ((width - 1) `div` 2);
  (fun y => (1 + 2 * x, 1 + 2 * y)) <$> seqZ 0 ((height - 1) `div` 2).

(** [carved] lists the EMPTY cells of [m] without repetition; there is one
    fewer of them than twice the lattice cells among them; and an EMPTY
    cell between two lattice cells has both of them EMPTY. *)
Definition carve_inv (m : list (list Z)) (carved : list (Z * Z)) : Prop :=
  NoDup carved /\
  (forall x y, (x, y) ∈ carved <-> maze_get m x y = Some CELL_EMPTY) /\
  (length carved + 1 = 2 * length (filter lattice carved))%nat /\
  (forall x y, maze_get m x y = Some CELL_EMPTY ->
     (x `mod` 2 = 0 -> maze_get m (x - 1) y = Some CELL_EMPTY /\
                       maze_get m (x + 1) y = Some CELL_EMPTY) /\
     (y `mod` 2 = 0 -> maze_get m x (y - 1) = Some CELL_EMPTY /\
                       maze_get m x (y + 1) = Some CELL_EMPTY)).

(** * Properties *)

(** ** Grid access *)

Section Grid.
Context {A : Type}.
Implicit Types (g : list (list A)) (x y w h : Z) (v : A).

Lemma grid_get_Some g w h x y v :
  rectangular g w h -> grid_get g x y = Some v -> 0 <= x < w /\ 0 <= y < h.
Proof.
  intros [Hh Hw] Hget. unfold grid_get in Hget.
  destruct (0 <=? y) eqn:Hy, (0 <=? x) eqn:Hx; simpl in Hget; try discriminate.
  destruct (g !! Z.to_nat y) as [row|] eqn:Hrow; [|discriminate].
  pose proof (lookup_lt_Some _ _ _ Hrow) as Hlt.
  pose proof (lookup_lt_Some _ _ _ Hget) as Hlt'.
  rewrite Forall_forall in Hw.
  assert (Z.of_nat (length row) = w) as Hlen
    by (apply Hw, list_elem_of_lookup; eauto).
  lia.
Qed.

Lemma grid_get_is_Some g w h x y :
  rectangular g w h -> 0 <= x < w -> 0 <= y < h -> is_Some (grid_get g x y).
Proof.
  intros [Hh Hw] Hx Hy. unfold grid_get.
  replace (0 <=? y) with true by lia. replace (0 <=? x) with true by lia. simpl.
  destruct (lookup_lt_is_Some_2 g (Z.to_nat y)) as [row Hrow]; [lia|].
  rewrite Hrow. apply lookup_lt_is_Some_2.
  rewrite Forall_forall in Hw.
  assert (Z.of_nat (length row) = w) as Hlen
    by (apply Hw, list_elem_of_lookup; eauto).
  lia.
Qed.

Lemma grid_set_rectangular g w h x y v :
  rectangular g w h -> rectangular (grid_set g x y v) w h.
Proof.
  intros [Hh Hw]. unfold grid_set.
  destruct ((0 <=? y) && (0 <=? x)); [|by split].
  destruct (g !! Z.to_nat y) as [row|] eqn:Hrow; [|by split].
  split; [by rewrite length_insert|].
  apply Forall_insert; [done|]. rewrite length_insert.
  rewrite Forall_forall in Hw.
  apply Hw, list_elem_of_lookup; eauto.
Qed.

Lemma grid_get_set_eq g w h x y v :
  rectangular g w h -> 0 <= x < w -> 0 <= y < h ->
  grid_get (grid_set g x y v) x y = Some v.
Proof.
  intros Hrect Hx Hy.
  destruct (grid_get_is_Some g w h x y Hrect Hx Hy) as [c Hc].
  unfold grid_get, grid_set in *.
  replace (0 <=? y) with true in * by lia.
  replace (0 <=? x) with true in * by lia. simpl in *.
  destruct (g !! Z.to_nat y) as [row|] eqn:Hrow; [|discriminate].
  rewrite list_lookup_insert_eq by (eapply lookup_lt_Some; eauto).
  apply list_lookup_insert_eq. eapply lookup_lt_Some; eauto.
Qed.

Lemma grid_get_set_ne g x y x' y' v :
  (x, y) <> (x', y') -> grid_get (grid_set g x y v) x' y' = grid_get g x' y'.
Proof.
  intros Hne. unfold grid_set.
  destruct (0 <=? y) eqn:Hy, (0 <=? x) eqn:Hx; simpl; try done.
  destruct (g !! Z.to_nat y) as [row|] eqn:Hrow; [|done].
  unfold grid_get.
  destruct (0 <=? y') eqn:Hy', (0 <=? x') eqn:Hx'; simpl; try done.
  destruct (decide (y = y')) as [->|Hyy].
  - rewrite list_lookup_insert_eq by (eapply lookup_lt_Some; eauto).
    rewrite Hrow. apply list_lookup_insert_ne.
    intros Heq. apply Hne. f_equal. lia.
  - rewrite list_lookup_insert_ne by lia. done.
Qed.

Lemma grid_get_set g w h x y x' y' v :
  rectangular g w h -> 0 <= x < w -> 0 <= y < h ->
  grid_get (grid_set g x y v) x' y' =
  if decide ((x, y) = (x', y')) then Some v else grid_get g x' y'.
Proof.
  intros Hrect Hx Hy. case_decide as Heq.
  - inversion Heq; subst. by eapply grid_get_set_eq.
  - by apply grid_get_set_ne.
Qed.

Lemma replicate_rectangular w h v :
  0 <= w -> 0 <= h ->
  rectangular (replicate (Z.to_nat h) (replicate (Z.to_nat w) v)) w h.
Proof.
  intros Hw Hh. split.
  - rewrite length_replicate. lia.
  - apply Forall_replicate. rewrite length_replicate. lia.
Qed.

Lemma grid_get_replicate w h v x y :
  0 <= x < w -> 0 <= y < h ->
  grid_get (replicate (Z.to_nat h) (replicate (Z.to_nat w) v)) x y = Some v.
Proof.
  intros Hx Hy. unfold grid_get.
  replace (0 <=? y) with true by lia. replace (0 <=? x) with true by lia. simpl.
  rewrite lookup_replicate_2 by lia. apply lookup_replicate_2. lia.
Qed.

End Grid.

(** Membership in a list written out in full. *)
Ltac in_list :=
  repeat first [apply list_elem_of_here | apply list_elem_of_further].

(** ** Walks *)

Lemma walk_nonneg m a n b : walk m a n b -> 0 <= n.
Proof. induction 1; lia. Qed.

Lemma adjacent_directions a c :
  adjacent a c <-> exists dir, dir ∈ bfs_directions /\ c = step_to a dir.
Proof.
  unfold adjacent, step_to, bfs_directions. destruct a as [ax ay], c as [cx cy]; simpl.
  split.
  - intros H.
    assert ((cx = ax /\ cy = ay - 1) \/ (cx = ax /\ cy = ay + 1) \/
            (cx = ax + 1 /\ cy = ay) \/ (cx = ax - 1 /\ cy = ay))
      as [[-> ->]|[[-> ->]|[[-> ->]|[-> ->]]]] by lia.
    + exists (0, -1). split; [in_list|]. simpl. f_equal; lia.
    + exists (0, 1). split; [in_list|]. simpl. f_equal; lia.
    + exists (1, 0). split; [in_list|]. simpl. f_equal; lia.
    + exists (-1, 0). split; [in_list|]. simpl. f_equal; lia.
  - intros (dir & Hdir & Heq). inversion Heq; subst; clear Heq.
    repeat (apply elem_of_cons in Hdir as [->|Hdir]); simpl; try lia.
    by apply elem_of_nil in Hdir.
Qed.

Lemma cell_is_empty m c :
  cell_is m (pos_x c) (pos_y c) CELL_EMPTY = true <-> is_empty_cell m c.
Proof.
  unfold cell_is, is_empty_cell.
  destruct (maze_get m (pos_x c) (pos_y c)) as [v|]; [|naive_solver].
  rewrite Z.eqb_eq. naive_solver.
Qed.

(** ** Correctness of the breadth-first search *)

Section BFS.
Variables (m : list (list Z)) (src goal : Position) (width height : Z).
Hypothesis Hrect : rectangular m width height.

Lemma bfs_visit_inv P it Q V dn dir :
  dir ∈ bfs_directions ->
  bfs_inv m src goal width height P (it :: Q) V ->
  (forall d, d ∈ dn -> covered m (P ++ it :: Q) it d) ->
  let st := bfs_visit m width height (item_x it) (item_y it) (item_dist it) (Q, V) dir in
  bfs_inv m src goal width height P (it :: st.1) st.2 /\
  forall d, d ∈ dir :: dn -> covered m (P ++ it :: st.1) it d.
Proof.
  intros Hdir Hinv Hdn. unfold bfs_visit. simpl.
  set (nx := item_x it + dir.1). set (ny := item_y it + dir.2).
  assert (it ∈ P ++ it :: Q) as Hit by (apply elem_of_app; right; left).
  destruct ((0 <=? nx) && (nx <? width) && (0 <=? ny) && (ny <? height) &&
   cell_is m nx ny CELL_EMPTY && negb (visited_get V nx ny)) eqn:Hguard; simpl.
  - rewrite !andb_true_iff in Hguard.
    destruct Hguard as [[[[[Hx0 Hx1] Hy0] Hy1] Hcell] Hvis].
    apply Z.leb_le in Hx0, Hy0. apply Z.ltb_lt in Hx1, Hy1.
    apply negb_true_iff in Hvis.
    set (new := mkQueueItem nx ny (item_dist it + 1)).
    assert (P ++ it :: Q ++ [new] = (P ++ it :: Q) ++ [new]) as HL
      by (by rewrite <- app_assoc).
    assert (walk m src (item_dist new) (item_pos new)) as Hwalk.
    { apply walk_step with (item_pos it).
      - by apply Hinv.
      - apply adjacent_directions. by exists dir.
      - by apply cell_is_empty. }
    rewrite HL. split; [constructor|].
    + apply grid_set_rectangular, Hinv.
    + rewrite HL. apply elem_of_app. left. apply Hinv.
    + intros it'. rewrite HL, elem_of_app, list_elem_of_singleton.
      intros [Hin| ->]; [by apply Hinv|done].
    + intros it'. rewrite HL, elem_of_app, list_elem_of_singleton.
      intros [Hin| ->]; [by apply Hinv|simpl; lia].
    + intros x y. unfold visited_get, visited_mark.
      rewrite (grid_get_set V width height) by (apply Hinv || lia).
      case_decide as Heq.
      * inversion Heq; subst x y. simpl. split; [intros _|done].
        exists new. rewrite HL. split; [apply elem_of_app; right; left|done].
      * fold (visited_get V x y). rewrite (inv_visited _ _ _ _ _ _ _ _ Hinv).
        split; intros (it' & Hin & Hx & Hy).
        -- exists it'. rewrite HL. split; [apply elem_of_app; by left|done].
        -- rewrite HL, elem_of_app, list_elem_of_singleton in Hin.
           destruct Hin as [Hin| ->]; [by exists it'|].
           simpl in *. congruence.
    + rewrite HL, fmap_app. apply NoDup_app. split; [apply Hinv|]. split.
      * intros xy Hxy Hn. apply list_elem_of_singleton in Hn. subst xy.
        apply list_elem_of_fmap in Hxy as (it' & Heq & Hin).
        inversion Heq.
        assert (visited_get V nx ny = true) as Hv
          by (apply (inv_visited _ _ _ _ _ _ _ _ Hinv); by exists it').
        congruence.
      * apply NoDup_singleton.
    + change (it :: Q ++ [new]) with ((it :: Q) ++ [new]).
      apply StronglySorted_app_2.
      * intros x1 x2 H1 H2. apply list_elem_of_singleton in H2. subst x2. simpl.
        apply (inv_front _ _ _ _ _ _ _ _ Hinv it eq_refl).
        apply elem_of_app. by right.
      * apply Hinv.
      * repeat constructor.
    + intros it0 Hhead. simpl in Hhead. inversion Hhead; subst it0.
      intros it'. rewrite HL, elem_of_app, list_elem_of_singleton.
      intros [Hin| ->]; [by apply (inv_front _ _ _ _ _ _ _ _ Hinv)|simpl; lia].
    + intros it0 Hin0.
      destruct (inv_closed _ _ _ _ _ _ _ _ Hinv it0 Hin0) as [Hne Hcov].
      split; [done|]. intros dir0 Hdir0 Hemp.
      destruct (Hcov dir0 Hdir0 Hemp) as (it' & ? & ? & ?).
      exists it'. rewrite HL. split; [apply elem_of_app; by left|done].
    + intros i it'. rewrite HL. intros Hlook.
      apply lookup_app_Some in Hlook as [Hlook|[Hge Hlook]];
        [by apply (inv_index _ _ _ _ _ _ _ _ Hinv)|].
      pose proof (inv_index _ _ _ _ _ _ _ _ Hinv (length P) it
                    (list_lookup_middle _ _ _ _ eq_refl)) as Hd.
      rewrite length_app in Hge. simpl in Hge.
      apply list_lookup_singleton_Some in Hlook as [_ <-]. simpl. lia.
    + intros d. rewrite elem_of_cons. intros [->|Hd] Hemp.
      * exists new. split; [apply elem_of_app; right; left|].
        split; [done|simpl; lia].
      * destruct (Hdn d Hd Hemp) as (it' & ? & ? & ?).
        exists it'. split; [apply elem_of_app; by left|done].
  - split; [done|]. intros d. rewrite elem_of_cons. intros [->|Hd]; [|by apply Hdn].
    intros Hemp.
    pose proof Hemp as Hcell. apply cell_is_empty in Hcell. simpl in Hcell.
    destruct (grid_get_Some _ _ _ _ _ _ Hrect Hemp) as [Hx Hy]. simpl in Hx, Hy.
    fold nx ny in Hcell, Hx, Hy. rewrite Hcell in Hguard.
    replace (0 <=? nx) with true in Hguard by lia.
    replace (nx <? width) with true in Hguard by lia.
    replace (0 <=? ny) with true in Hguard by lia.
    replace (ny <? height) with true in Hguard by lia.
    simpl in Hguard. apply negb_false_iff in Hguard.
    apply (inv_visited _ _ _ _ _ _ _ _ Hinv) in Hguard as (it' & Hin & Hx' & Hy').
    exists it'. split; [done|]. split.
    + unfold item_pos, step_to. simpl. by rewrite Hx', Hy'.
    + by apply (inv_front _ _ _ _ _ _ _ _ Hinv it eq_refl).
Qed.

Lemma bfs_fold_inv P it (ds : list (Z * Z)) : forall Q V (dn : list (Z * Z)),
  (forall d, d ∈ ds -> d ∈ bfs_directions) ->
  bfs_inv m src goal width height P (it :: Q) V ->
  (forall d, d ∈ dn -> covered m (P ++ it :: Q) it d) ->
  let st := foldl (bfs_visit m width height (item_x it) (item_y it) (item_dist it))
                  (Q, V) ds in
  bfs_inv m src goal width height P (it :: st.1) st.2 /\
  forall d, d ∈ ds \/ d ∈ dn -> covered m (P ++ it :: st.1) it d.
Proof.
  induction ds as [|dir ds IH]; intros Q V dn Hds Hinv Hdn; simpl.
  - split; [done|]. intros d [Hd|Hd]; [by apply elem_of_nil in Hd|by apply Hdn].
  - destruct (bfs_visit_inv P it Q V dn dir) as [Hinv' Hdn'];
      [apply Hds; left|done|done|].
    destruct (bfs_visit m width height (item_x it) (item_y it) (item_dist it) (Q, V) dir)
      as [Q' V'] eqn:Hst.
    destruct (IH Q' V' (dir :: dn)) as [Hinv2 Hdn2];
      [intros d Hd; apply Hds; by right|done|done|].
    split; [done|]. intros d Hd. apply Hdn2.
    rewrite elem_of_cons in Hd. rewrite elem_of_cons. tauto.
Qed.

Lemma bfs_dequeue_inv P it Q V :
  bfs_inv m src goal width height P (it :: Q) V ->
  item_pos it <> goal ->
  let st := foldl (bfs_visit m width height (item_x it) (item_y it) (item_dist it))
                  (Q, V) bfs_directions in
  bfs_inv m src goal width height (P ++ [it]) st.1 st.2.
Proof.
  intros Hinv Hne.
  destruct (bfs_fold_inv P it bfs_directions Q V []) as [Hinv' Hcov];
    [done|done|intros d Hd; by apply elem_of_nil in Hd|].
  intros st. fold st in Hinv', Hcov. clearbody st. destruct st as [Q' V']. simpl in *.
  assert ((P ++ [it]) ++ Q' = P ++ it :: Q') as HL by (by rewrite <- app_assoc).
  destruct Hinv' as [I1 I2 I3 I4 I5 I6 I7 I8 I9 I10].
  apply StronglySorted_cons in I7 as [Hle Hsorted].
  constructor; rewrite ?HL; try done.
  - intros it1 Hhead it' Hin.
    assert (item_dist it <= item_dist it1).
    { rewrite Forall_forall in Hle. apply Hle.
      destruct Q'; simpl in Hhead; inversion Hhead; subst. left. }
    pose proof (I8 it eq_refl it' Hin). lia.
  - intros it0. rewrite elem_of_app, list_elem_of_singleton. intros [Hin| ->].
    + by apply I9.
    + split; [done|]. intros dir Hdir. apply Hcov. by left.
Qed.

Lemma bfs_inv_length P Q V :
  bfs_inv m src goal width height P Q V ->
  (length (P ++ Q) <= Z.to_nat (width * height))%nat.
Proof.
  intros Hinv.
  assert (item_xy <$> P ++ Q ⊆+ cprod (seqZ 0 width) (seqZ 0 height)) as Hsub.
  { apply NoDup_submseteq; [apply Hinv|].
    intros xy Hxy. apply list_elem_of_fmap in Hxy as (it & -> & Hin).
    destruct (inv_inside _ _ _ _ _ _ _ _ Hinv it Hin).
    apply list_elem_of_cprod. rewrite !elem_of_seqZ. simpl. lia. }
  apply submseteq_length in Hsub.
  rewrite length_fmap, list_cprod_list_prod, length_prod, !length_seqZ in Hsub.
  destruct (decide (0 <= width)), (decide (0 <= height)); nia.
Qed.

Lemma bfs_complete P Q V :
  bfs_inv m src goal width height P Q V ->
  forall n c, walk m src n c ->
  (forall it, it ∈ Q -> n <= item_dist it) ->
  exists it, it ∈ P ++ Q /\ item_pos it = c /\ item_dist it <= n.
Proof.
  intros Hinv n c Hwalk. induction Hwalk as [|n b c Hwalk IH Hadj Hemp]; intros Hfront.
  - exists (mkQueueItem (pos_x src) (pos_y src) 0).
    split; [apply Hinv|]. split; [by destruct src|done].
  - destruct IH as (itb & Hin & Hpos & Hdist).
    { intros it Hit. specialize (Hfront it Hit). lia. }
    apply elem_of_app in Hin as [Hin|Hin].
    + destruct (inv_closed _ _ _ _ _ _ _ _ Hinv itb Hin) as [_ Hcov].
      apply adjacent_directions in Hadj as (dir & Hdir & ->).
      rewrite <- Hpos in Hemp.
      destruct (Hcov dir Hdir Hemp) as (it' & Hin' & Hpos' & Hdist').
      exists it'. rewrite Hpos', Hpos. split; [done|]. split; [done|lia].
    + specialize (Hfront itb Hin). lia.
Qed.

Lemma bfs_loop_correct fuel : forall P Q V,
  bfs_inv m src goal width height P Q V ->
  (Z.to_nat (width * height) < fuel + length P)%nat ->
  exists d, bfs_loop fuel m goal width height Q V = Some d /\
    ((shortest m src d goal /\ d < width * height) \/
     (~ connected m src goal /\ d = 9999)).
Proof.
  induction fuel as [|fuel IH]; intros P Q V Hinv Hfuel.
  - pose proof (bfs_inv_length P Q V Hinv) as Hlen.
    rewrite length_app in Hlen. lia.
  - destruct Q as [|it rest]; simpl.
    + exists 9999. split; [done|]. right. split; [|done].
      intros [n Hwalk].
      destruct (bfs_complete P [] V Hinv n goal Hwalk) as (it & Hin & Hpos & _).
      { intros it Hit. by apply elem_of_nil in Hit. }
      rewrite app_nil_r in Hin.
      by destruct (inv_closed _ _ _ _ _ _ _ _ Hinv it Hin).
    + pose proof (inv_sorted _ _ _ _ _ _ _ _ Hinv) as Hsorted.
      apply StronglySorted_cons in Hsorted as [Hle _].
      rewrite Forall_forall in Hle.
      destruct ((item_x it =? pos_x goal) && (item_y it =? pos_y goal)) eqn:Hgoal.
      * apply andb_true_iff in Hgoal as [Hx Hy].
        apply Z.eqb_eq in Hx, Hy.
        assert (item_pos it = goal) as Hpos
          by (destruct goal; unfold item_pos; simpl in *; congruence).
        assert (it ∈ P ++ it :: rest) as Hit
          by (apply elem_of_app; right; left).
        exists (item_dist it). split; [done|]. left. split; [split|].
        -- rewrite <- Hpos. by apply Hinv.
        -- intros k Hk. destruct (decide (item_dist it <= k)) as [|Hlt]; [done|].
           destruct (bfs_complete P (it :: rest) V Hinv k goal Hk)
             as (it' & Hin & Hpos' & Hdist).
           { intros it'. rewrite elem_of_cons. intros [->|Hin]; [lia|].
             specialize (Hle it' Hin). lia. }
           apply elem_of_app in Hin as [Hin|Hin].
           ++ by destruct (inv_closed _ _ _ _ _ _ _ _ Hinv it' Hin).
           ++ apply elem_of_cons in Hin as [->|Hin]; [lia|].
              specialize (Hle it' Hin). lia.
        -- pose proof (inv_index _ _ _ _ _ _ _ _ Hinv (length P) it
                         (list_lookup_middle _ _ _ _ eq_refl)) as Hd.
           pose proof (bfs_inv_length P (it :: rest) V Hinv) as Hlen.
           rewrite length_app in Hlen. simpl in Hlen. lia.
      * assert (item_pos it <> goal) as Hne.
        { intros <-. simpl in Hgoal. by rewrite !Z.eqb_refl in Hgoal. }
        pose proof (bfs_dequeue_inv P it rest V Hinv Hne) as Hinv'. simpl in Hinv'.
        apply (IH _ _ _ Hinv'). rewrite length_app. simpl. lia.
Qed.
End BFS.

Lemma visited_get_fresh w h x y :
  visited_get (replicate (Z.to_nat h) (replicate (Z.to_nat w) false)) x y = false.
Proof.
  unfold visited_get, grid_get.
  destruct ((0 <=? y) && (0 <=? x)); [|done].
  destruct (replicate _ _ !! Z.to_nat y) as [row|] eqn:Hrow; [|done].
  apply lookup_replicate in Hrow as [-> _].
  destruct (replicate _ _ !! Z.to_nat x) as [b|] eqn:Hb; [|done].
  by apply lookup_replicate in Hb as [-> _].
Qed.

Lemma bfs_inv_init m src goal width height :
  0 <= pos_x src < width -> 0 <= pos_y src < height ->
  bfs_inv m src goal width height []
    [mkQueueItem (pos_x src) (pos_y src) 0]
    (visited_mark (replicate (Z.to_nat height) (replicate (Z.to_nat width) false))
                  (pos_x src) (pos_y src)).
Proof.
  intros Hx Hy.
  assert (rectangular (replicate (Z.to_nat height) (replicate (Z.to_nat width) false))
            width height) as Hrect by (apply replicate_rectangular; lia).
  constructor; simpl.
  - by apply grid_set_rectangular.
  - left.
  - intros it ->%list_elem_of_singleton. destruct src. constructor.
  - intros it ->%list_elem_of_singleton. done.
  - intros x y. unfold visited_get, visited_mark.
    rewrite (grid_get_set _ width height) by done.
    case_decide as Heq.
    + inversion Heq; subst. simpl. split; [intros _|done].
      eexists. split; [left|done].
    + fold (visited_get (replicate (Z.to_nat height) (replicate (Z.to_nat width) false)) x y).
      rewrite visited_get_fresh. split; [done|].
      intros (it & ->%list_elem_of_singleton & Hx' & Hy'). simpl in *. congruence.
  - apply NoDup_singleton.
  - repeat constructor.
  - intros it [= <-] it' ->%list_elem_of_singleton. simpl. lia.
  - intros it Hin. by apply elem_of_nil in Hin.
  - intros [|i] it Hlook; simpl in Hlook; [|done]. inversion Hlook. simpl. lia.
Qed.

Lemma isValidPosition_spec s pos :
  isValidPosition s pos = true <->
  0 <= pos_x pos < maze_width (maze s) /\ 0 <= pos_y pos < maze_height (maze s).
Proof. unfold isValidPosition. rewrite !andb_true_iff. lia. Qed.

Lemma bfs_search_correct s :
  well_formed s ->
  exists d, bfs_search s = Some d /\
            bfs_spec (maze s) (playerPosition s) (goalPosition s) d.
Proof.
  intros [Hrect Hvalid]. apply isValidPosition_spec in Hvalid as [Hx Hy].
  unfold bfs_search, bfs_spec.
  apply (bfs_loop_correct _ _ _ _ _ Hrect _ []).
  - by apply bfs_inv_init.
  - unfold bfs_fuel. simpl. lia.
Qed.

(** ** The depth-first carve *)

Lemma walk_mono m m' a n b :
  (forall c, is_empty_cell m c -> is_empty_cell m' c) ->
  walk m a n b -> walk m' a n b.
Proof. intros Hsub. induction 1; econstructor; eauto. Qed.

Lemma connected_step m a b c :
  connected m a b -> adjacent b c -> is_empty_cell m c -> connected m a c.
Proof. intros [n Hw] Hadj Hemp. exists (n + 1). by econstructor. Qed.

Lemma swap_elem_of {A} (i j : nat) (l : list A) x : x ∈ swap i j l <-> x ∈ l.
Proof.
  unfold swap.
  destruct (l !! i) as [a|] eqn:Hi; [|done].
  destruct (l !! j) as [b|] eqn:Hj; [|done].
  pose proof (lookup_lt_Some _ _ _ Hi) as Hli.
  pose proof (lookup_lt_Some _ _ _ Hj) as Hlj.
  rewrite !list_elem_of_lookup. split.
  - intros [k Hk].
    apply list_lookup_insert_Some in Hk as [(_ & <- & _)|[_ Hk]]; [eauto|].
    apply list_lookup_insert_Some in Hk as [(_ & <- & _)|[_ Hk]]; eauto.
  - intros [k Hk].
    destruct (decide (k = j)) as [->|Hkj].
    + destruct (decide (i = j)) as [->|Hij].
      * exists j. rewrite list_lookup_insert_eq by (by rewrite length_insert). congruence.
      * exists i. rewrite list_lookup_insert_ne by done.
        rewrite list_lookup_insert_eq by done. congruence.
    + destruct (decide (k = i)) as [->|Hki].
      * exists j. rewrite list_lookup_insert_eq by (by rewrite length_insert). congruence.
      * exists k. by rewrite !list_lookup_insert_ne by done.
Qed.

Lemma swap_length {A} (i j : nat) (l : list A) : length (swap i j l) = length l.
Proof.
  unfold swap. destruct (l !! i), (l !! j); try done. by rewrite !length_insert.
Qed.

Lemma shuffle_from_elem_of rnd i : forall k dirs x,
  x ∈ (shuffle_from rnd k i dirs).1 <-> x ∈ dirs.
Proof.
  induction i as [|i IH]; intros k dirs x; simpl; [done|].
  by rewrite IH, swap_elem_of.
Qed.

Lemma shuffle_from_length rnd i : forall k dirs,
  length (shuffle_from rnd k i dirs).1 = length dirs.
Proof.
  induction i as [|i IH]; intros k dirs; simpl; [done|].
  by rewrite IH, swap_length.
Qed.

Lemma maze_get_set m w h x y a b v :
  rectangular m w h -> 0 <= x < w -> 0 <= y < h ->
  maze_get (maze_set m x y v) a b =
  if decide ((x, y) = (a, b)) then Some v else maze_get m a b.
Proof. apply grid_get_set. Qed.

Lemma maze_set_rectangular m w h x y v :
  rectangular m w h -> rectangular (maze_set m x y v) w h.
Proof. apply grid_set_rectangular. Qed.

Lemma dfs_directions_half dir :
  dir ∈ dfs_directions ->
  2 * (dir.1 `quot` 2) = dir.1 /\ 2 * (dir.2 `quot` 2) = dir.2 /\
  Z.abs (dir.1 `quot` 2) + Z.abs (dir.2 `quot` 2) = 1.
Proof.
  unfold dfs_directions. intros Hdir.
  repeat (apply elem_of_cons in Hdir as [->|Hdir]); [by vm_compute..|].
  by apply elem_of_nil in Hdir.
Qed.

Lemma connected_mono m m' a b :
  (forall c, is_empty_cell m c -> is_empty_cell m' c) ->
  connected m a b -> connected m' a b.
Proof. intros Hsub [n Hw]. exists n. by eapply walk_mono. Qed.

Lemma dfs_carve_inv width height m x y below dir :
  dfs_inv width height m ((x, y) :: below) ->
  dir ∈ dfs_directions ->
  carvable m width height x y dir = true ->
  dfs_inv width height
    (maze_set (maze_set m (x + dir.1) (y + dir.2) CELL_EMPTY)
              (x + dir.1 `quot` 2) (y + dir.2 `quot` 2) CELL_EMPTY)
    ((x + dir.1, y + dir.2) :: (x, y) :: below).
Proof.
  intros Hinv Hdir Hcarve.
  destruct (dfs_directions_half dir Hdir) as (Hq1 & Hq2 & Hq).
  destruct dir as [dx dy]. simpl in *.
  remember (dx `quot` 2) as qx eqn:Hqx. remember (dy `quot` 2) as qy eqn:Hqy.
  clear Hqx Hqy Hdir.
  unfold carvable in Hcarve. simpl in Hcarve. rewrite !andb_true_iff in Hcarve.
  destruct Hcarve as [[[[Hx0 Hx1] Hy0] Hy1] _].
  apply Z.ltb_lt in Hx0, Hx1, Hy0, Hy1.
  destruct (dfs_stack _ _ _ _ Hinv x y) as (Hxo & Hyo & Hxy); [left|].
  destruct (dfs_border _ _ _ _ Hinv x y Hxy) as [Hxi Hyi].
  pose proof (dfs_rect _ _ _ _ Hinv) as Hrect.
  set (m1 := maze_set m (x + dx) (y + dy) CELL_EMPTY).
  set (m2 := maze_set m1 (x + qx) (y + qy) CELL_EMPTY).
  assert (rectangular m1 width height) as Hrect1 by by apply maze_set_rectangular.
  assert (forall a b, maze_get m2 a b =
            if decide ((x + qx, y + qy) = (a, b)) then Some CELL_EMPTY
            else if decide ((x + dx, y + dy) = (a, b)) then Some CELL_EMPTY
            else maze_get m a b) as Hget.
  { intros a b. unfold m2, m1.
    rewrite (maze_get_set _ width height) by (done || lia).
    by rewrite (maze_get_set _ width height) by (done || lia). }
  assert (forall a b, maze_get m a b = Some CELL_EMPTY ->
            maze_get m2 a b = Some CELL_EMPTY) as Hmono.
  { intros a b Hab. rewrite Hget. by repeat case_decide. }
  assert (forall c, is_empty_cell m c -> is_empty_cell m2 c) as Hmono'
    by (intros c; apply Hmono).
  assert (connected m2 (mkPosition 1 1) (mkPosition (x + qx) (y + qy))) as Hconn_c.
  { apply connected_step with (mkPosition x y).
    - eapply connected_mono; [done|]. by apply (dfs_conn _ _ _ _ Hinv).
    - unfold adjacent. simpl. lia.
    - unfold is_empty_cell. simpl. rewrite Hget. by rewrite decide_True. }
  assert (connected m2 (mkPosition 1 1) (mkPosition (x + dx) (y + dy))) as Hconn_n.
  { apply connected_step with (mkPosition (x + qx) (y + qy)); [done| |].
    - unfold adjacent. simpl. lia.
    - unfold is_empty_cell. simpl. rewrite Hget. repeat case_decide; done. }
  constructor.
  - by apply maze_set_rectangular.
  - intros a b v. rewrite Hget. repeat case_decide.
    + intros [= <-]. by left.
    + intros [= <-]. by left.
    + apply Hinv.
  - intros a b. rewrite Hget. repeat case_decide.
    + intros _. simplify_eq. lia.
    + intros _. simplify_eq. lia.
    + apply Hinv.
  - apply Hmono, Hinv.
  - intros [a b]. unfold is_empty_cell. simpl. rewrite Hget. repeat case_decide.
    + intros _. by simplify_eq.
    + intros _. by simplify_eq.
    + intros Hab. eapply connected_mono; [done|]. by apply (dfs_conn _ _ _ _ Hinv).
  - intros a b. rewrite elem_of_cons. intros [Heq|Hin].
    + simplify_eq. split; [Z.to_euclidean_division_equations; lia|].
      split; [Z.to_euclidean_division_equations; lia|].
      rewrite Hget. by repeat case_decide.
    + destruct (dfs_stack _ _ _ _ Hinv a b Hin) as (? & ? & ?). auto.
  - intros a b Ha Hb. rewrite Hget. repeat case_decide.
    + simplify_eq. Z.to_euclidean_division_equations. lia.
    + intros _. left. simplify_eq. left.
    + intros Hab.
      destruct (dfs_closed _ _ _ _ Hinv a b Ha Hb Hab) as [Hin|Hall].
      * left. by right.
      * right. intros d Hd ? ?. by apply Hmono, Hall.
  - intros a b. rewrite Hget. repeat case_decide.
    + intros _. simplify_eq. Z.to_euclidean_division_equations. lia.
    + intros _. simplify_eq. Z.to_euclidean_division_equations. lia.
    + apply Hinv.
Qed.

Lemma dfs_pop_inv width height m x y below :
  dfs_inv width height m ((x, y) :: below) ->
  (forall dir, dir ∈ dfs_directions -> carvable m width height x y dir = false) ->
  dfs_inv width height m below.
Proof.
  intros Hinv Hnone. destruct Hinv as [I1 I2 I3 I4 I5 I6 I7 I8].
  constructor; try done.
  - intros a b Hin. apply I6. by right.
  - intros a b Ha Hb Hab.
    destruct (I7 a b Ha Hb Hab) as [Hin|Hall]; [|by right].
    apply elem_of_cons in Hin as [Heq|Hin]; [|by left].
    simplify_eq. right. intros dir Hdir Hdx Hdy.
    specialize (Hnone dir Hdir). unfold carvable in Hnone.
    replace (0 <? x + dir.1) with true in Hnone by lia.
    replace (x + dir.1 <? width - 1) with true in Hnone by lia.
    replace (0 <? y + dir.2) with true in Hnone by lia.
    replace (y + dir.2 <? height - 1) with true in Hnone by lia.
    simpl in Hnone. unfold cell_is in Hnone.
    destruct (grid_get_is_Some m width height (x + dir.1) (y + dir.2)) as [v Hv];
      [done|lia|lia|].
    fold (maze_get m (x + dir.1) (y + dir.2)) in Hv. rewrite Hv in Hnone |- *.
    destruct (I2 _ _ _ Hv) as [->| ->]; [done|]. done.
Qed.

(** *** Termination measure *)

Lemma sum_list_with_insert {A} (f : A -> nat) (l : list A) i a b :
  l !! i = Some a ->
  (sum_list_with f (<[i:=b]> l) + f a = sum_list_with f l + f b)%nat.
Proof.
  intros Hi. rewrite insert_take_drop by (eapply lookup_lt_Some; eauto).
  assert (sum_list_with f l = sum_list_with f (take i l ++ a :: drop (S i) l))
    as -> by (by rewrite take_drop_middle).
  rewrite !sum_list_with_app. simpl. lia.
Qed.

Lemma wall_count_set m x y :
  (wall_count (maze_set m x y CELL_EMPTY) <= wall_count m)%nat /\
  (maze_get m x y = Some CELL_WALL ->
   wall_count (maze_set m x y CELL_EMPTY) < wall_count m)%nat.
Proof.
  unfold wall_count, maze_set, maze_get, grid_set, grid_get.
  destruct ((0 <=? y) && (0 <=? x)); [|split; [lia|done]].
  destruct (m !! Z.to_nat y) as [row|] eqn:Hrow; [|split; [lia|done]].
  match goal with |- context [sum_list_with ?f (<[_:=_]> m)] =>
    pose proof (sum_list_with_insert f m _ _ (<[Z.to_nat x:=CELL_EMPTY]> row) Hrow) as Hm
  end.
  simpl in Hm.
  destruct (row !! Z.to_nat x) as [a|] eqn:Hcell.
  - match type of Hm with context [sum_list_with ?f row] =>
      pose proof (sum_list_with_insert f row _ _ CELL_EMPTY Hcell) as Hr
    end.
    simpl in Hr. split; [lia|]. intros [= ->]. simpl in Hr. lia.
  - rewrite (list_insert_ge row) in Hm |- * by (by apply lookup_ge_None_1).
    split; [lia|done].
Qed.

Lemma wall_count_bound m w h :
  rectangular m w h -> (wall_count m <= Z.to_nat (w * h))%nat.
Proof.
  intros [<- Hw]. unfold wall_count.
  induction Hw as [|row m Hrow Hw IH]; simpl; [lia|].
  assert (sum_list_with (fun v : Z => if (v =? CELL_WALL)%Z then 1 else 0) row
          <= length row)%nat as Hle.
  { clear. induction row as [|v row IH]; simpl; [lia|]. destruct (v =? CELL_WALL); lia. }
  nia.
Qed.

(** *** The loop *)

Lemma dfs_loop_inv width height rnd fuel : forall k m stack dirs,
  dfs_inv width height m stack ->
  (forall d, d ∈ dirs <-> d ∈ dfs_directions) ->
  (2 * wall_count m + length stack < fuel)%nat ->
  exists m', dfs_loop fuel rnd k m width height stack dirs = Some m' /\
             dfs_inv width height m' [].
Proof.
  induction fuel as [|fuel IH]; intros k m stack dirs Hinv Hdirs Hfuel; [lia|].
  destruct stack as [|[x y] below]; simpl; [by exists m|].
  set (sh := shuffle_from rnd k (length dirs - 1) dirs).
  assert (forall d, d ∈ sh.1 <-> d ∈ dfs_directions) as Hsh.
  { intros d. unfold sh. by rewrite shuffle_from_elem_of. }
  destruct (find (carvable m width height x y) sh.1) as [[dx dy]|] eqn:Hfind.
  - apply find_some in Hfind as [Hin Hcarve].
    apply list_elem_of_In, Hsh in Hin.
    pose proof (dfs_carve_inv _ _ _ _ _ _ (dx, dy) Hinv Hin Hcarve) as Hinv'.
    simpl in Hinv'. apply IH; [done|done|].
    assert (maze_get m (x + dx) (y + dy) = Some CELL_WALL) as Hwall.
    { unfold carvable in Hcarve. rewrite !andb_true_iff in Hcarve.
      destruct Hcarve as [_ Hcell]. unfold cell_is in Hcell. simpl in Hcell.
      destruct (maze_get m (x + dx) (y + dy)) as [c|]; [|done].
      apply Z.eqb_eq in Hcell. by subst. }
    destruct (wall_count_set m (x + dx) (y + dy)) as [_ Hlt].
    specialize (Hlt Hwall).
    destruct (wall_count_set (maze_set m (x + dx) (y + dy) CELL_EMPTY)
                (x + dx `quot` 2) (y + dy `quot` 2)) as [Hle _].
    simpl in *. lia.
  - apply IH; [|done|simpl in *; lia].
    eapply dfs_pop_inv; [done|].
    intros dir Hdir. eapply find_none; [done|].
    by apply list_elem_of_In, Hsh.
Qed.

Lemma dfs_all_carved width height m :
  dfs_inv width height m [] ->
  forall i j : nat,
    1 + 2 * Z.of_nat i < width - 1 -> 1 + 2 * Z.of_nat j < height - 1 ->
    maze_get m (1 + 2 * Z.of_nat i) (1 + 2 * Z.of_nat j) = Some CELL_EMPTY.
Proof.
  intros Hinv.
  assert (forall x y dir, x `mod` 2 = 1 -> y `mod` 2 = 1 ->
            maze_get m x y = Some CELL_EMPTY -> dir ∈ dfs_directions ->
            0 < x + dir.1 < width - 1 -> 0 < y + dir.2 < height - 1 ->
            maze_get m (x + dir.1) (y + dir.2) = Some CELL_EMPTY) as Hstep.
  { intros x y dir Hx Hy Hxy Hdir ? ?.
    destruct (dfs_closed _ _ _ _ Hinv x y Hx Hy Hxy) as [Hin|Hall].
    - by apply elem_of_nil in Hin.
    - by apply Hall. }
  assert (forall x y, x `mod` 2 = 1 -> y `mod` 2 = 1 ->
            maze_get m x y = Some CELL_EMPTY ->
            0 < x + 2 < width - 1 -> 0 < y < height - 1 ->
            maze_get m (x + 2) y = Some CELL_EMPTY) as Heast.
  { intros x y Hx Hy Hxy ? ?.
    pose proof (Hstep x y (2, 0) Hx Hy Hxy) as H'. simpl in H'.
    rewrite Z.add_0_r in H'. apply H'; [in_list|lia|lia]. }
  assert (forall x y, x `mod` 2 = 1 -> y `mod` 2 = 1 ->
            maze_get m x y = Some CELL_EMPTY ->
            0 < x < width - 1 -> 0 < y + 2 < height - 1 ->
            maze_get m x (y + 2) = Some CELL_EMPTY) as Hsouth.
  { intros x y Hx Hy Hxy ? ?.
    pose proof (Hstep x y (0, 2) Hx Hy Hxy) as H'. simpl in H'.
    rewrite Z.add_0_r in H'. apply H'; [in_list|lia|lia]. }
  destruct (dfs_border _ _ _ _ Hinv 1 1 (dfs_start _ _ _ _ Hinv)).
  assert (forall i : nat, 1 + 2 * Z.of_nat i < width - 1 ->
            maze_get m (1 + 2 * Z.of_nat i) 1 = Some CELL_EMPTY) as Hrow.
  { induction i as [|i IHi]; intros Hi.
    - apply Hinv.
    - replace (1 + 2 * Z.of_nat (S i)) with (1 + 2 * Z.of_nat i + 2) by lia.
      apply Heast; [Z.to_euclidean_division_equations; lia|done| |lia|lia].
      apply IHi. lia. }
  intros i j Hi. induction j as [|j IHj]; intros Hj.
  - by apply Hrow.
  - replace (1 + 2 * Z.of_nat (S j)) with (1 + 2 * Z.of_nat j + 2) by lia.
    apply Hsouth; [Z.to_euclidean_division_equations; lia..| |lia|lia].
    apply IHj. lia.
Qed.

(** *** The generated grid *)

Lemma maze_width_wall_grid w h : 0 <= w -> 0 < h -> maze_width (wall_grid w h) = w.
Proof.
  intros Hw Hh. unfold wall_grid.
  destruct (Z.to_nat h) as [|n] eqn:Hn; [lia|]. simpl.
  rewrite length_replicate. lia.
Qed.

Lemma maze_height_wall_grid w h : 0 <= h -> maze_height (wall_grid w h) = h.
Proof. intros Hh. unfold maze_height, wall_grid. rewrite length_replicate. lia. Qed.

Lemma wall_grid_rectangular w h : 0 <= w -> 0 <= h -> rectangular (wall_grid w h) w h.
Proof. apply replicate_rectangular. Qed.

Lemma maze_get_wall_grid w h x y :
  0 <= x < w -> 0 <= y < h -> maze_get (wall_grid w h) x y = Some CELL_WALL.
Proof. apply grid_get_replicate. Qed.

Lemma dfs_inv_init width height :
  3 <= width -> 3 <= height ->
  dfs_inv width height (maze_set (wall_grid width height) 1 1 CELL_EMPTY) [(1, 1)].
Proof.
  intros Hw Hh.
  assert (rectangular (wall_grid width height) width height) as Hrect
    by (apply wall_grid_rectangular; lia).
  assert (forall a b v,
            maze_get (maze_set (wall_grid width height) 1 1 CELL_EMPTY) a b = Some v ->
            ((a, b) = (1, 1) /\ v = CELL_EMPTY) \/ v = CELL_WALL) as Hget.
  { intros a b v. rewrite (maze_get_set _ width height) by (done || lia).
    case_decide as Heq; [intros [= <-]; by left|].
    intros Hv. right.
    destruct (grid_get_Some _ _ _ _ _ _ Hrect Hv).
    rewrite maze_get_wall_grid in Hv by done. congruence. }
  assert (maze_get (maze_set (wall_grid width height) 1 1 CELL_EMPTY) 1 1
          = Some CELL_EMPTY) as Hstart.
  { rewrite (maze_get_set _ width height) by (done || lia). by rewrite decide_True. }
  constructor.
  - by apply maze_set_rectangular.
  - intros a b v Hv. destruct (Hget a b v Hv) as [[_ ->]| ->]; auto.
  - intros a b Hv. destruct (Hget a b _ Hv) as [[Heq _]|]; [|done].
    simplify_eq. lia.
  - done.
  - intros [a b] Hv. destruct (Hget a b _ Hv) as [[Heq _]|]; [|done].
    simplify_eq. exists 0. constructor.
  - intros a b Heq%list_elem_of_singleton. by simplify_eq.
  - intros a b _ _ Hv. destruct (Hget a b _ Hv) as [[Heq _]|]; [|done].
    simplify_eq. left. left.
  - intros a b Hv. destruct (Hget a b _ Hv) as [[Heq _]|]; [|done].
    simplify_eq. by left.
Qed.

Lemma generateMazeDFS_inv rnd width height :
  3 <= width -> 3 <= height ->
  exists m, generateMazeDFS rnd (wall_grid width height) 1 1 = Some m /\
            dfs_inv width height m [].
Proof.
  intros Hw Hh. unfold generateMazeDFS.
  rewrite maze_width_wall_grid, maze_height_wall_grid by lia.
  apply dfs_loop_inv.
  - by apply dfs_inv_init.
  - done.
  - destruct (wall_count_set (wall_grid width height) 1 1) as [Hle _].
    pose proof (wall_count_bound _ _ _ (wall_grid_rectangular width height
                  ltac:(lia) ltac:(lia))) as Hb.
    unfold dfs_fuel. rewrite maze_width_wall_grid, maze_height_wall_grid by lia.
    simpl. lia.
Qed.

Lemma oddUp_spec n :
  0 <= n -> GameLogic.oddUp n `mod` 2 = 1 /\ n <= GameLogic.oddUp n <= n + 1.
Proof.
  intros Hn. unfold GameLogic.oddUp.
  destruct (n `rem` 2 =? 0) eqn:Hrem.
  - apply Z.eqb_eq in Hrem. Z.to_euclidean_division_equations. lia.
  - apply Z.eqb_neq in Hrem. Z.to_euclidean_division_equations. lia.
Qed.

Lemma generateMaze_inv rnd width height :
  2 <= width -> 2 <= height ->
  exists m, GameLogic.generateMaze rnd width height = Some m /\
            dfs_inv (GameLogic.oddUp width) (GameLogic.oddUp height) m [].
Proof.
  intros Hw Hh.
  destruct (oddUp_spec width) as [Hwo ?]; [lia|].
  destruct (oddUp_spec height) as [Hho ?]; [lia|].
  apply generateMazeDFS_inv; Z.to_euclidean_division_equations; lia.
Qed.

(** ** The corridor carve *)

Lemma rectangular_dims (m : list (list Z)) w h :
  rectangular m w h -> 0 < h -> maze_width m = w /\ maze_height m = h.
Proof.
  intros [Hh Hw] Hpos. split; [|done].
  destruct m as [|row m]; simpl in *; [lia|]. by inversion Hw.
Qed.

Lemma set_cells_get w h cells v : forall m,
  rectangular m w h ->
  (forall c, c ∈ cells -> 0 <= c.1 < w /\ 0 <= c.2 < h) ->
  rectangular (set_cells m cells v) w h /\
  forall a b, maze_get (set_cells m cells v) a b =
              if decide ((a, b) ∈ cells) then Some v else maze_get m a b.
Proof.
  induction cells as [|[cx cy] cells IH]; intros m Hrect Hin.
  - split; [done|]. intros a b. case_decide as Hab; [|done].
    by apply elem_of_nil in Hab.
  - destruct (IH (maze_set m cx cy v)) as [Hrect' Hget].
    { by apply maze_set_rectangular. }
    { intros c Hc. apply Hin. by right. }
    split; [done|]. intros a b.
    change (set_cells m ((cx, cy) :: cells) v)
      with (set_cells (maze_set m cx cy v) cells v).
    rewrite Hget.
    destruct (Hin (cx, cy)) as [Hx Hy]; [left|]. simpl in Hx, Hy.
    rewrite (maze_get_set _ w h) by done.
    destruct (decide ((a, b) ∈ cells)) as [Hc|Hc].
    + rewrite decide_True by (by right). done.
    + destruct (decide ((cx, cy) = (a, b))) as [Heq|Hne].
      * rewrite decide_True by (rewrite <- Heq; left). done.
      * rewrite decide_False; [done|].
        rewrite elem_of_cons. intros [?|?]; congruence.
Qed.

Lemma foldl_set_pairs (a b c d : Z -> Z) v xs : forall m,
  foldl (fun m x => maze_set (maze_set m (a x) (b x) v) (c x) (d x) v) m xs =
  set_cells m (x ← xs; [(a x, b x); (c x, d x)]) v.
Proof.
  induction xs as [|x xs IH]; intros m; simpl; [done|].
  rewrite IH. done.
Qed.

Lemma foldl_set_single (a b : Z -> Z) v xs : forall m,
  foldl (fun m x => maze_set m (a x) (b x) v) m xs =
  set_cells m ((fun x => (a x, b x)) <$> xs) v.
Proof.
  induction xs as [|x xs IH]; intros m; simpl; [done|].
  rewrite IH. done.
Qed.

Lemma createPath_cells m width height :
  CorridorLogic.createPath m width height =
  let m4 := set_cells m (corridor_cells width height) CELL_EMPTY in
  if (5 <? width) && (5 <? height)
  then maze_set (maze_set m4 3 2 CELL_WALL) (width - 4) (height - 3) CELL_WALL
  else m4.
Proof.
  unfold CorridorLogic.createPath, corridor_cells.
  rewrite (foldl_set_pairs (fun x => x) (fun _ => 1) (fun x => x) (fun _ => height - 2)).
  rewrite (foldl_set_pairs (fun _ => 1) (fun y => y) (fun _ => width - 2) (fun y => y)).
  rewrite (foldl_set_single (fun x => x) (fun _ => height `div` 2)).
  rewrite (foldl_set_single (fun _ => width `div` 2) (fun y => y)).
  unfold set_cells. rewrite !foldl_app. done.
Qed.

Lemma corridor_cells_spec width height a b :
  (a, b) ∈ corridor_cells width height <->
  (1 <= a <= width - 2 /\ (b = 1 \/ b = height - 2)) \/
  (1 <= b <= height - 2 /\ (a = 1 \/ a = width - 2)) \/
  (2 <= a <= width - 3 /\ b = height `div` 2) \/
  (2 <= b <= height - 3 /\ a = width `div` 2).
Proof.
  unfold corridor_cells.
  rewrite !elem_of_app, !list_elem_of_bind, !list_elem_of_fmap.
  setoid_rewrite elem_of_seqZ.
  setoid_rewrite elem_of_cons. setoid_rewrite elem_of_cons.
  setoid_rewrite elem_of_nil.
  split.
  - intros [(x & Hx & Hin)|[(y & Hy & Hin)|[(x & Hin & Hx)|(y & Hin & Hy)]]].
    + destruct Hx as [[=]|[[=]|[]]]; subst; lia.
    + destruct Hy as [[=]|[[=]|[]]]; subst; lia.
    + injection Hin as -> ->. lia.
    + injection Hin as -> ->. lia.
  - intros [[? [->| ->]]|[[? [->| ->]]|[[? ->]|[? ->]]]].
    + left. exists a. split; [auto|lia].
    + left. exists a. split; [auto|lia].
    + right. left. exists b. split; [auto|lia].
    + right. left. exists b. split; [auto|lia].
    + right. right. left. exists a. split; [auto|lia].
    + right. right. right. exists b. split; [auto|lia].
Qed.

Lemma corridor_cells_inside width height a b :
  3 <= width -> 3 <= height ->
  (a, b) ∈ corridor_cells width height ->
  0 < a < width - 1 /\ 0 < b < height - 1.
Proof.
  intros Hw Hh. rewrite corridor_cells_spec.
  Z.to_euclidean_division_equations. lia.
Qed.

Lemma corridor_get width height a b :
  3 <= width -> 3 <= height ->
  rectangular (CorridorLogic.generateMaze width height) width height /\
  maze_get (CorridorLogic.generateMaze width height) a b =
    if decide (5 < width /\ 5 < height /\
               ((a, b) = (3, 2) \/ (a, b) = (width - 4, height - 3)))
    then Some CELL_WALL
    else if decide ((a, b) ∈ corridor_cells width height) then Some CELL_EMPTY
    else maze_get (wall_grid width height) a b.
Proof.
  intros Hw Hh. unfold CorridorLogic.generateMaze. rewrite createPath_cells.
  destruct (set_cells_get width height (corridor_cells width height) CELL_EMPTY
              (wall_grid width height)) as [Hrect Hget].
  { apply wall_grid_rectangular; lia. }
  { intros [cx cy] Hc. apply corridor_cells_inside in Hc; simpl; lia. }
  cbv zeta. destruct ((5 <? width) && (5 <? height)) eqn:Hbig.
  - apply andb_true_iff in Hbig as [Hbw Hbh]. apply Z.ltb_lt in Hbw, Hbh.
    split; [by do 2 apply maze_set_rectangular|].
    rewrite (maze_get_set _ width height)
      by (try apply maze_set_rectangular; done || lia).
    rewrite (maze_get_set _ width height) by (done || lia).
    rewrite Hget.
    destruct (decide ((width - 4, height - 3) = (a, b))) as [Heq|Hne].
    + destruct (decide (5 < width /\ _)) as [_|Hdec]; [done|].
      exfalso. apply Hdec. auto.
    + destruct (decide ((3, 2) = (a, b))) as [Heq'|Hne'].
      * destruct (decide (5 < width /\ _)) as [_|Hdec]; [done|].
        exfalso. apply Hdec. auto.
      * destruct (decide (5 < width /\ _)) as [Hdec|_]; [|done].
        destruct Hdec as (_ & _ & [?|?]); congruence.
  - split; [done|]. rewrite Hget.
    destruct (decide (5 < width /\ _)) as [Hdec|_]; [|done].
    destruct Hdec as (? & ? & _). apply andb_false_iff in Hbig as [?|?]; lia.
Qed.

Lemma corridor_empty_inside width height a b :
  3 <= width -> 3 <= height ->
  maze_get (CorridorLogic.generateMaze width height) a b = Some CELL_EMPTY ->
  0 < a < width - 1 /\ 0 < b < height - 1.
Proof.
  intros Hw Hh. destruct (corridor_get width height a b Hw Hh) as [_ ->].
  repeat case_decide; [done|by intros _; apply corridor_cells_inside|].
  intros Hv.
  destruct (grid_get_Some _ _ _ _ _ _
              (wall_grid_rectangular width height ltac:(lia) ltac:(lia)) Hv).
  rewrite maze_get_wall_grid in Hv by done. done.
Qed.

Lemma corridor_cell_values width height a b v :
  3 <= width -> 3 <= height ->
  maze_get (CorridorLogic.generateMaze width height) a b = Some v ->
  v = CELL_EMPTY \/ v = CELL_WALL.
Proof.
  intros Hw Hh. destruct (corridor_get width height a b Hw Hh) as [_ ->].
  repeat case_decide; [intros [= <-]; auto..|].
  intros Hv.
  destruct (grid_get_Some _ _ _ _ _ _
              (wall_grid_rectangular width height ltac:(lia) ltac:(lia)) Hv).
  rewrite maze_get_wall_grid in Hv by done. simplify_eq. auto.
Qed.

Lemma corridor_ring width height a b :
  3 <= width -> 3 <= height ->
  (1 <= a <= width - 2 /\ b = 1) \/ (a = width - 2 /\ 1 <= b <= height - 2) ->
  maze_get (CorridorLogic.generateMaze width height) a b = Some CELL_EMPTY.
Proof.
  intros Hw Hh Hab. destruct (corridor_get width height a b Hw Hh) as [_ ->].
  case_decide as Hdec.
  - destruct Hdec as (? & ? & [?|?]); simplify_eq; lia.
  - case_decide as Hc; [done|]. exfalso. apply Hc, corridor_cells_spec. lia.
Qed.

Lemma corridor_connected width height :
  3 <= width -> 3 <= height ->
  connected (CorridorLogic.generateMaze width height)
            (mkPosition 1 1) (mkPosition (width - 2) (height - 2)).
Proof.
  intros Hw Hh. set (m := CorridorLogic.generateMaze width height).
  assert (forall i : nat, 1 + Z.of_nat i <= width - 2 ->
            connected m (mkPosition 1 1) (mkPosition (1 + Z.of_nat i) 1)) as Hrow.
  { induction i as [|i IH]; intros Hi.
    - exists 0. constructor.
    - apply connected_step with (mkPosition (1 + Z.of_nat i) 1).
      + apply IH. lia.
      + unfold adjacent. simpl. lia.
      + apply corridor_ring; simpl; lia. }
  assert (forall j : nat, 1 + Z.of_nat j <= height - 2 ->
            connected m (mkPosition 1 1) (mkPosition (width - 2) (1 + Z.of_nat j)))
    as Hcol.
  { induction j as [|j IH]; intros Hj.
    - specialize (Hrow (Z.to_nat (width - 3))).
      replace (1 + Z.of_nat (Z.to_nat (width - 3))) with (width - 2) in Hrow by lia.
      apply Hrow. lia.
    - apply connected_step with (mkPosition (width - 2) (1 + Z.of_nat j)).
      + apply IH. lia.
      + unfold adjacent. simpl. lia.
      + apply corridor_ring; simpl; lia. }
  specialize (Hcol (Z.to_nat (height - 3))).
  replace (1 + Z.of_nat (Z.to_nat (height - 3))) with (height - 2) in Hcol by lia.
  apply Hcol. lia.
Qed.

(** ** Moves *)

Lemma hitsWall_spec s d :
  hitsWall s d = true <->
  isValidPosition s (getNewPosition s d) = false \/
  maze_get (maze s) (pos_x (getNewPosition s d)) (pos_y (getNewPosition s d))
    = Some CELL_WALL.
Proof.
  unfold hitsWall, cell_is. rewrite orb_true_iff, negb_true_iff.
  destruct (maze_get _ _ _) as [c|].
  - rewrite Z.eqb_eq. split; intros [H|H]; auto; right; congruence.
  - split; intros [H|H]; auto; discriminate.
Qed.

Lemma movePlayerWith_blocked dist s d :
  hitsWall s d = true ->
  movePlayerWith dist s d = (mkMoveOutcome false true false (dist s), s).
Proof. intros H. unfold movePlayerWith. by rewrite H. Qed.

Lemma movePlayerWith_open dist s d :
  hitsWall s d = false ->
  let r := movePlayerWith dist s d in
  success r.1 = true /\ hitWall r.1 = false /\
  distanceToGoal r.1 = getDistance (getNewPosition s d) (goalPosition s) /\
  isCorrectDirection r.1 =
    (getDistance (getNewPosition s d) (goalPosition s) <? dist s) /\
  playerPosition r.2 = getNewPosition s d /\
  moveCount r.2 = moveCount s + 1 /\
  maze r.2 = maze s /\ goalPosition r.2 = goalPosition s.
Proof. intros H. unfold movePlayerWith. rewrite H. simpl. done. Qed.

Lemma movePlayerWith_well_formed dist s d :
  well_formed s -> well_formed (movePlayerWith dist s d).2.
Proof.
  intros [Hrect Hvalid]. unfold movePlayerWith.
  destruct (hitsWall s d) eqn:Hhit; simpl; [done|].
  split; [done|]. unfold hitsWall in Hhit.
  apply orb_false_iff in Hhit as [Hv _]. apply negb_false_iff in Hv.
  unfold isValidPosition in *. simpl. done.
Qed.

Lemma getDistanceToGoal_spec s :
  well_formed s ->
  bfs_search s = Some (GameLogic.getDistanceToGoal s) /\
  bfs_spec (maze s) (playerPosition s) (goalPosition s) (GameLogic.getDistanceToGoal s).
Proof.
  intros Hwf. destruct (bfs_search_correct s Hwf) as (d & Hd & Hspec).
  unfold GameLogic.getDistanceToGoal. rewrite Hd. done.
Qed.

(** The states of a game are well formed: the constructor builds such a
    state and [movePlayer] keeps it so. *)
Lemma create_well_formed rnd width height s :
  3 <= width -> 3 <= height ->
  GameLogic.create rnd width height = Some s -> well_formed s.
Proof.
  intros Hw Hh. unfold GameLogic.create.
  destruct (generateMaze_inv rnd width height) as (m & -> & Hinv); [lia..|].
  intros [= <-]. pose proof (dfs_rect _ _ _ _ Hinv) as Hrect.
  destruct (oddUp_spec width), (oddUp_spec height); [lia..|].
  destruct (rectangular_dims m _ _ Hrect) as [Hmw Hmh]; [lia|].
  split; simpl; [by rewrite Hmw, Hmh|].
  apply isValidPosition_spec. simpl. lia.
Qed.

Lemma play_well_formed moves : forall s,
  well_formed s -> well_formed (play s moves).
Proof.
  induction moves as [|d moves IH]; intros s Hwf; [done|].
  apply IH. by apply movePlayerWith_well_formed.
Qed.

(** ** Generated grids *)

Lemma solvable_intro m width height :
  3 <= width -> 3 <= height ->
  rectangular m width height ->
  is_empty_cell m (mkPosition 1 1) ->
  is_empty_cell m (mkPosition (width - 2) (height - 2)) ->
  connected m (mkPosition 1 1) (mkPosition (width - 2) (height - 2)) ->
  solvable m width height.
Proof.
  intros Hw Hh Hrect Hstart Hgoal Hconn.
  do 4 (split; [done|]).
  set (s := mkGameState (mkPosition 1 1) (mkPosition (width - 2) (height - 2)) m false 0).
  destruct (rectangular_dims m width height Hrect) as [Hmw Hmh]; [lia|].
  assert (well_formed s) as Hwf.
  { split; simpl; [by rewrite Hmw, Hmh|].
    apply isValidPosition_spec. simpl. lia. }
  destruct (getDistanceToGoal_spec s Hwf) as [Hsearch Hspec].
  exists (GameLogic.getDistanceToGoal s). split; [done|]. split; [done|].
  destruct Hspec as [[Hshort Hlt]|[Hnot _]]; [|done].
  simpl in Hlt. rewrite Hmw, Hmh in Hlt. done.
Qed.

Lemma walled_intro m width height :
  rectangular m width height ->
  (forall x y v, maze_get m x y = Some v -> v = CELL_EMPTY \/ v = CELL_WALL) ->
  (forall x y, maze_get m x y = Some CELL_EMPTY ->
     0 < x < width - 1 /\ 0 < y < height - 1) ->
  walled m width height.
Proof.
  intros Hrect Hcells Hinside. split; [done|]. split; [|split].
  - intros x y Hxy. specialize (Hinside x y Hxy). lia.
  - intros x y Hx Hy Hedge.
    destruct (grid_get_is_Some m width height x y Hrect Hx Hy) as [v Hv].
    fold (maze_get m x y) in Hv. rewrite Hv.
    destruct (Hcells x y v Hv) as [->| ->]; [|done].
    specialize (Hinside x y Hv). lia.
  - intros s d <- Hmove. unfold canMove in Hmove.
    apply andb_true_iff in Hmove as [_ Hcell].
    apply (cell_is_empty (maze s) (getNewPosition s d)) in Hcell.
    specialize (Hinside _ _ Hcell). lia.
Qed.

Lemma dfs_solvable width height m :
  3 <= width -> 3 <= height -> width `mod` 2 = 1 -> height `mod` 2 = 1 ->
  dfs_inv width height m [] -> solvable m width height.
Proof.
  intros Hw Hh Hwo Hho Hinv.
  assert (is_empty_cell m (mkPosition (width - 2) (height - 2))) as Hgoal.
  { pose proof (dfs_all_carved width height m Hinv
                  (Z.to_nat ((width - 3) `div` 2)) (Z.to_nat ((height - 3) `div` 2)))
      as Hc.
    replace (1 + 2 * Z.of_nat (Z.to_nat ((width - 3) `div` 2))) with (width - 2) in Hc
      by (Z.to_euclidean_division_equations; lia).
    replace (1 + 2 * Z.of_nat (Z.to_nat ((height - 3) `div` 2))) with (height - 2) in Hc
      by (Z.to_euclidean_division_equations; lia).
    apply Hc; lia. }
  apply solvable_intro; try done.
  - apply Hinv.
  - apply (dfs_start _ _ _ _ Hinv).
  - by apply (dfs_conn _ _ _ _ Hinv).
Qed.

Lemma oddUp_ge3 n :
  2 <= n -> 3 <= GameLogic.oddUp n /\ GameLogic.oddUp n `mod` 2 = 1.
Proof. intros Hn. destruct (oddUp_spec n); [lia|]. split; [|done].
  Z.to_euclidean_division_equations. lia. Qed.

(** A walk is at least as long as the Manhattan distance it covers. *)
Lemma walk_manhattan m a n b : walk m a n b -> getDistance a b <= n.
Proof.
  induction 1 as [|n b c Hwalk IH Hadj _]; unfold getDistance, adjacent in *; lia.
Qed.

(** * Statements of the specification *)

(** C1 (defect in the code).  After an advancing move, [movePlayer] reports
    as [distanceToGoal] the Manhattan distance from the new cell to the
    goal, computed by [getDistance], not the breadth-first distance that
    [getDistanceToGoal] computes on the resulting state (and that the
    blocked branch of the same method reports).  On the 7 x 7 maze carved
    when [Math.random] always returns 0.9, the first move south reports 7 while
    the breadth-first distance of the resulting state is 15; the move
    count does go up by exactly one. *)
Theorem movePlayer_reports_manhattan_distance :
  exists s out s',
    GameLogic.create rnd_top 7 7 = Some s /\
    GameLogic.movePlayer s south = (out, s') /\
    hitsWall s south = false /\
    moveCount s' = moveCount s + 1 /\
    distanceToGoal out = 7 /\
    GameLogic.getDistanceToGoal s' = 15.
Proof.
  eexists _, _, _.
  split; [vm_compute; reflexivity|].
  split; [vm_compute; reflexivity|].
  vm_compute. auto.
Qed.

(** C2 (defect in the code).  [isCorrectDirection] compares the Manhattan
    distance of the new cell with the breadth-first distance of the old
    one, so it can be true on a move that makes the shortest path longer:
    in the same 7 x 7 maze, stepping back north after the first step south
    raises the breadth-first distance from 15 to 16 and is flagged as the
    correct direction. *)
Theorem isCorrectDirection_true_on_longer_path :
  exists s0 out s2,
    GameLogic.create rnd_top 7 7 = Some s0 /\
    GameLogic.movePlayer (play s0 [south]) north = (out, s2) /\
    success out = true /\
    isCorrectDirection out = true /\
    GameLogic.getDistanceToGoal (play s0 [south]) = 15 /\
    GameLogic.getDistanceToGoal s2 = 16.
Proof.
  eexists _, _, _.
  split; [vm_compute; reflexivity|].
  split; [vm_compute; reflexivity|].
  vm_compute. auto.
Qed.

(** C3, counterexample.  On the 5 x 5 maze, four moves reach the goal and
    set [gameWon]; a fifth call of [movePlayer] still moves the player off
    the goal, counts the move and reports no wall. *)
Lemma won_state_still_moves :
  exists s0,
    GameLogic.create rnd_top 5 5 = Some s0 /\
    let s := play s0 [south; south; east; east] in
    gameWon s = true /\
    playerPosition s = goalPosition s /\
    (GameLogic.movePlayer s north).2 <> s /\
    hitWall (GameLogic.movePlayer s north).1 = false /\
    success (GameLogic.movePlayer s north).1 = true /\
    moveCount (GameLogic.movePlayer s north).2 = moveCount s + 1.
Proof.
  eexists. split; [vm_compute; reflexivity|].
  vm_compute. repeat split; congruence.
Qed.

Lemma getDistanceToGoal_won s :
  GameLogic.getDistanceToGoal (won s) = GameLogic.getDistanceToGoal s.
Proof. reflexivity. Qed.

(** C3, as amended.  [movePlayer] never reads [gameWon]: on a won state it
    returns the same outcome and makes the same changes as on the state
    that differs only in that flag, and the flag stays set.  The flag after
    a move is the flag before, or-ed with "the move advanced onto the goal
    cell".  What stops moves after a win is the guard of the key handler,
    which returns before calling [movePlayer]. *)
Theorem movePlayer_ignores_gameWon s d :
  GameLogic.movePlayer (won s) d =
    ((GameLogic.movePlayer s d).1, won (GameLogic.movePlayer s d).2) /\
  gameWon (GameLogic.movePlayer s d).2 =
    gameWon s ||
    (success (GameLogic.movePlayer s d).1 &&
     bool_decide (playerPosition (GameLogic.movePlayer s d).2 = goalPosition s)) /\
  (forall isAudioInitialized isCelebrating logic,
     EchoQuestGame.handleKeyPress isAudioInitialized isCelebrating (won s) logic d
     = logic).
Proof.
  split; [|split].
  - unfold GameLogic.movePlayer, movePlayerWith.
    rewrite getDistanceToGoal_won.
    change (hitsWall (won s) d) with (hitsWall s d).
    change (getNewPosition (won s) d) with (getNewPosition s d).
    destruct (hitsWall s d); simpl; [done|].
    by destruct (_ && _).
  - unfold GameLogic.movePlayer, movePlayerWith.
    destruct (hitsWall s d); simpl; [by rewrite orb_false_r|].
    destruct (getNewPosition s d) as [nx ny], (goalPosition s) as [gx gy]. simpl.
    destruct ((nx =? gx) && (ny =? gy)) eqn:Hreached.
    + apply andb_true_iff in Hreached as [->%Z.eqb_eq ->%Z.eqb_eq].
      rewrite bool_decide_eq_true_2 by done. by rewrite orb_true_r.
    + rewrite bool_decide_eq_false_2; [by rewrite orb_false_r|].
      intros [= -> ->]. by rewrite !Z.eqb_refl in Hreached.
  - intros init cel logic. unfold EchoQuestGame.handleKeyPress. simpl.
    by rewrite orb_true_r.
Qed.

(** C4, counterexample.  On the 143 x 143 maze carved when [Math.random]
    always returns 0.9, the corridor winds through every column, and the
    breadth-first distance from start to goal is 10080, not below 9999. *)
Lemma long_maze_distance_not_below_9999 :
  exists d,
    GameLogic.getDistanceToGoal <$> GameLogic.create rnd_top 143 143 = Some d /\
    ~ d < 9999.
Proof. exists 10080. split; [vm_compute; reflexivity|lia]. Qed.

(** C4, as amended.  For requested sizes of at least 3, under every
    sequence of random draws the depth-first carve terminates, and under
    either carve the start cell (1,1) and the goal cell (width-2, height-2)
    of the grid are EMPTY and joined by 4-adjacent EMPTY cells; the
    breadth-first distance between them is the minimum hop count, and it is
    below width * height (hence below 9999 on grids of at most 9999
    cells). *)
Theorem generated_maze_solvable rnd width height :
  3 <= width -> 3 <= height ->
  (exists m, GameLogic.generateMaze rnd width height = Some m /\
             solvable m (GameLogic.oddUp width) (GameLogic.oddUp height)) /\
  solvable (CorridorLogic.generateMaze width height) width height.
Proof.
  intros Hw Hh. split.
  - destruct (generateMaze_inv rnd width height) as (m & Hm & Hinv); [lia..|].
    destruct (oddUp_ge3 width), (oddUp_ge3 height); [lia..|].
    exists m. split; [done|]. by apply dfs_solvable.
  - destruct (corridor_get width height 0 0 Hw Hh) as [Hrect _].
    apply solvable_intro; try done.
    + apply corridor_ring; simpl; lia.
    + apply corridor_ring; simpl; lia.
    + by apply corridor_connected.
Qed.

Lemma generated_maze_solvable_witness :
  3 <= 7 /\ 3 <= 7 /\
  ((exists m, GameLogic.generateMaze rnd_top 7 7 = Some m /\
              solvable m (GameLogic.oddUp 7) (GameLogic.oddUp 7)) /\
   solvable (CorridorLogic.generateMaze 7 7) 7 7).
Proof.
  split; [lia|]. split; [lia|].
  apply (generated_maze_solvable rnd_top 7 7); lia.
Defined.

(** C5 (defect in the code).  [generateMaze] does round even sizes up to
    the next odd size, but the constructor computes [goalPosition] from the
    sizes as requested, before the rounding: [new GameLogic(4, 4)] builds a
    5 x 5 grid whose goal is (2,2), a cell that the carve never opens,
    whatever the random draws.  [resetGame], which reads the sizes back
    from the grid, puts the goal at (3,3). *)
Theorem constructor_goal_ignores_rounding rnd :
  exists s,
    GameLogic.create rnd 4 4 = Some s /\
    rectangular (maze s) 5 5 /\
    goalPosition s = mkPosition 2 2 /\
    maze_get (maze s) 2 2 = Some CELL_WALL /\
    exists s', GameLogic.resetGame rnd s = Some s' /\
               goalPosition s' = mkPosition 3 3.
Proof.
  destruct (generateMaze_inv rnd 4 4) as (m & Hm & Hinv); [lia..|].
  change (GameLogic.oddUp 4) with 5 in Hinv.
  pose proof (dfs_rect _ _ _ _ Hinv) as Hrect.
  unfold GameLogic.create. rewrite Hm. eexists. split; [done|]. simpl.
  split; [done|]. split; [done|]. split.
  - destruct (grid_get_is_Some m 5 5 2 2 Hrect) as [v Hv]; [lia..|].
    fold (maze_get m 2 2) in Hv. rewrite Hv.
    destruct (dfs_cells _ _ _ _ Hinv _ _ _ Hv) as [->| ->]; [|done].
    by destruct (dfs_parity _ _ _ _ Hinv _ _ Hv).
  - unfold GameLogic.resetGame. simpl.
    destruct (rectangular_dims m 5 5 Hrect) as [-> ->]; [lia|].
    destruct (generateMaze_inv rnd 5 5) as (m' & -> & _); [lia..|].
    by eexists.
Qed.

(** C6, counterexample.  In the class with the corridor carve, at (3, 5)
    of the 7 x 9 game a move south is blocked by the wall at (3, 6) and
    leaves the state unchanged, but the [distanceToGoal] it reports is 4,
    the Manhattan distance to the goal at (5, 7), while the shortest path
    through EMPTY cells has 6 hops. *)
Lemma corridor_blocked_distance_not_shortest :
  let s := corridor_dead_end in
  well_formed s /\
  playerPosition s = mkPosition 3 5 /\
  goalPosition s = mkPosition 5 7 /\
  maze_get (maze s) (pos_x (getNewPosition s south)) (pos_y (getNewPosition s south))
    = Some CELL_WALL /\
  CorridorLogic.movePlayer s south = (mkMoveOutcome false true false 4, s) /\
  shortest (maze s) (playerPosition s) 6 (goalPosition s) /\
  ~ shortest (maze s) (playerPosition s)
      (distanceToGoal (CorridorLogic.movePlayer s south).1) (goalPosition s).
Proof.
  assert (well_formed corridor_dead_end) as Hwf
    by (vm_compute; split; [split; [reflexivity|repeat constructor]|reflexivity]).
  assert (shortest (maze corridor_dead_end) (playerPosition corridor_dead_end) 6
                   (goalPosition corridor_dead_end)) as Hshort.
  { destruct (getDistanceToGoal_spec corridor_dead_end Hwf) as [_ [[Hs _]|[_ Hd]]].
    - exact Hs.
    - vm_compute in Hd. discriminate. }
  cbv zeta. split; [exact Hwf|]. do 4 (split; [reflexivity|]).
  split; [exact Hshort|].
  intros [Hwalk _]. destruct Hshort as [_ Hmin].
  specialize (Hmin _ Hwalk). vm_compute in Hmin. by apply Hmin.
Qed.

(** C6, as amended.  When the target cell is out of bounds or WALL,
    [movePlayer] returns the state unchanged together with
    [{success: false, hitWall: true, isCorrectDirection: false}], in both
    classes.  As [distanceToGoal] the class with the depth-first carve
    reports the breadth-first distance from the player to the goal: the
    minimum hop count, or 9999 when the goal cannot be reached.  The class
    with the corridor carve, which has no path finder, reports the
    Manhattan distance |px - gx| + |py - gy|; this never exceeds the
    number of hops of any path from the player to the goal. *)
Theorem movePlayer_blocked_frame s d :
  well_formed s ->
  isValidPosition s (getNewPosition s d) = false \/
  maze_get (maze s) (pos_x (getNewPosition s d)) (pos_y (getNewPosition s d))
    = Some CELL_WALL ->
  GameLogic.movePlayer s d =
    (mkMoveOutcome false true false (GameLogic.getDistanceToGoal s), s) /\
  bfs_search s = Some (GameLogic.getDistanceToGoal s) /\
  bfs_spec (maze s) (playerPosition s) (goalPosition s) (GameLogic.getDistanceToGoal s) /\
  CorridorLogic.movePlayer s d =
    (mkMoveOutcome false true false
       (Z.abs (pos_x (playerPosition s) - pos_x (goalPosition s)) +
        Z.abs (pos_y (playerPosition s) - pos_y (goalPosition s))), s) /\
  (forall n, walk (maze s) (playerPosition s) n (goalPosition s) ->
     distanceToGoal (CorridorLogic.movePlayer s d).1 <= n).
Proof.
  intros Hwf Hblocked. apply hitsWall_spec in Hblocked.
  destruct (getDistanceToGoal_spec s Hwf) as [Hsearch Hspec].
  split; [by apply movePlayerWith_blocked|].
  split; [done|]. split; [done|].
  pose proof (movePlayerWith_blocked CorridorLogic.getDistanceToGoal s d Hblocked)
    as Hcorridor.
  fold (CorridorLogic.movePlayer s d) in Hcorridor.
  split; [exact Hcorridor|].
  intros n Hwalk. rewrite Hcorridor. exact (walk_manhattan _ _ _ _ Hwalk).
Qed.

Lemma movePlayer_blocked_frame_witness :
  well_formed corridor_dead_end /\
  maze_get (maze corridor_dead_end) (pos_x (getNewPosition corridor_dead_end south))
           (pos_y (getNewPosition corridor_dead_end south)) = Some CELL_WALL /\
  GameLogic.movePlayer corridor_dead_end south =
    (mkMoveOutcome false true false (GameLogic.getDistanceToGoal corridor_dead_end),
     corridor_dead_end) /\
  bfs_search corridor_dead_end = Some (GameLogic.getDistanceToGoal corridor_dead_end) /\
  bfs_spec (maze corridor_dead_end) (playerPosition corridor_dead_end)
           (goalPosition corridor_dead_end)
           (GameLogic.getDistanceToGoal corridor_dead_end) /\
  CorridorLogic.movePlayer corridor_dead_end south =
    (mkMoveOutcome false true false
       (Z.abs (pos_x (playerPosition corridor_dead_end)
               - pos_x (goalPosition corridor_dead_end)) +
        Z.abs (pos_y (playerPosition corridor_dead_end)
               - pos_y (goalPosition corridor_dead_end))),
     corridor_dead_end) /\
  (forall n, walk (maze corridor_dead_end) (playerPosition corridor_dead_end) n
                  (goalPosition corridor_dead_end) ->
     distanceToGoal (CorridorLogic.movePlayer corridor_dead_end south).1 <= n).
Proof.
  assert (well_formed corridor_dead_end) as Hwf
    by (vm_compute; split; [split; [reflexivity|repeat constructor]|reflexivity]).
  split; [exact Hwf|]. split; [reflexivity|].
  apply (movePlayer_blocked_frame corridor_dead_end south Hwf).
  right. reflexivity.
Defined.

(** C7.  On a rectangular grid with the player on it, [getDistanceToGoal]
    is a breadth-first search: the loop always terminates, its result is
    the minimum number of hops from the player to the goal through
    4-adjacent EMPTY cells when there is such a path, and 9999 when there
    is none.  The queue is served first in, first out, and a cell is marked
    visited in the very step that appends it to the queue. *)
Theorem getDistanceToGoal_shortest s :
  well_formed s ->
  (exists d,
     bfs_search s = Some d /\ GameLogic.getDistanceToGoal s = d /\
     (connected (maze s) (playerPosition s) (goalPosition s) ->
      shortest (maze s) (playerPosition s) d (goalPosition s)) /\
     (~ connected (maze s) (playerPosition s) (goalPosition s) -> d = 9999)) /\
  (forall x y dist queue visited dir,
     let st := bfs_visit (maze s) (maze_width (maze s)) (maze_height (maze s))
                         x y dist (queue, visited) dir in
     st = (queue, visited) \/
     (visited_get visited (x + dir.1) (y + dir.2) = false /\
      st = (queue ++ [mkQueueItem (x + dir.1) (y + dir.2) (dist + 1)],
            visited_mark visited (x + dir.1) (y + dir.2)))).
Proof.
  intros Hwf. split.
  - destruct (getDistanceToGoal_spec s Hwf) as [Hsearch Hspec].
    exists (GameLogic.getDistanceToGoal s). split; [done|]. split; [done|].
    destruct Hspec as [[Hshort _]|[Hnot Hd]].
    + split; [done|]. intros Hnot. exfalso. apply Hnot.
      destruct Hshort as [Hwalk _]. by eexists.
    + split; [done|]. done.
  - intros x y dist queue visited dir. unfold bfs_visit. simpl.
    destruct (_ && negb _) eqn:Hguard; [|by left].
    right. apply andb_true_iff in Hguard as [_ Hv].
    by apply negb_true_iff in Hv.
Qed.

Lemma getDistanceToGoal_shortest_witness :
  well_formed example_state /\
  exists d,
    bfs_search example_state = Some d /\
    GameLogic.getDistanceToGoal example_state = d /\
    (connected (maze example_state) (playerPosition example_state)
               (goalPosition example_state) ->
     shortest (maze example_state) (playerPosition example_state) d
              (goalPosition example_state)) /\
    (~ connected (maze example_state) (playerPosition example_state)
                 (goalPosition example_state) -> d = 9999).
Proof.
  assert (well_formed example_state) as Hwf
    by (split; [split; [reflexivity|repeat constructor]|reflexivity]).
  split; [exact Hwf|].
  apply (getDistanceToGoal_shortest example_state Hwf).
Defined.

(** C8.  When the audio system is not initialized, or no buffer is cached
    under the given name, [playSound] returns normally having issued no
    operation to the audio device, created no node and written nothing to
    the console, whatever the pan value and whatever the state of the
    audio context. *)
Theorem playSound_silent_when_unavailable broken sys soundName panValue dev :
  AudioSystem.isInitialized sys = false \/
  AudioSystem.sounds sys !! soundName = None ->
  AudioSystem.playSound broken sys soundName panValue dev
  = (AudioSystem.Returned (), dev).
Proof.
  intros Hunavailable. unfold AudioSystem.playSound, AudioSystem.has.
  destruct Hunavailable as [-> | ->]; [done|].
  by rewrite orb_true_r.
Qed.

Lemma playSound_silent_when_unavailable_witness :
  AudioSystem.sounds AudioSystem.initialized_system !! "nonexistent-effect" = None /\
  AudioSystem.playSound (fun _ => false) AudioSystem.initialized_system
    "nonexistent-effect" 0 AudioSystem.silent
  = (AudioSystem.Returned (), AudioSystem.silent).
Proof.
  split; [vm_compute; reflexivity|].
  apply (playSound_silent_when_unavailable (fun _ => false)
           AudioSystem.initialized_system "nonexistent-effect" 0 AudioSystem.silent).
  right. vm_compute. reflexivity.
Defined.

(** C9.  In every outcome returned by [movePlayer], of either engine,
    [hitWall] is the negation of [success]. *)
Theorem movePlayer_hitWall_negates_success s d :
  hitWall (GameLogic.movePlayer s d).1 = negb (success (GameLogic.movePlayer s d).1) /\
  hitWall (CorridorLogic.movePlayer s d).1
  = negb (success (CorridorLogic.movePlayer s d).1).
Proof.
  unfold GameLogic.movePlayer, CorridorLogic.movePlayer, movePlayerWith.
  by destruct (hitsWall s d).
Qed.

(** C10.  For requested sizes of at least 3, under every sequence of random
    draws and under either carve, the generated grid keeps its whole outer
    ring WALL: every EMPTY cell has its coordinates between 1 and width-2,
    respectively height-2, and so has every cell the player can move to. *)
Theorem generated_maze_walled rnd width height :
  3 <= width -> 3 <= height ->
  (exists m, GameLogic.generateMaze rnd width height = Some m /\
             walled m (GameLogic.oddUp width) (GameLogic.oddUp height)) /\
  walled (CorridorLogic.generateMaze width height) width height.
Proof.
  intros Hw Hh. split.
  - destruct (generateMaze_inv rnd width height) as (m & Hm & Hinv); [lia..|].
    exists m. split; [done|].
    apply walled_intro; [apply Hinv|apply Hinv|apply Hinv].
  - destruct (corridor_get width height 0 0 Hw Hh) as [Hrect _].
    apply walled_intro; [done| |].
    + intros x y v. by apply corridor_cell_values.
    + intros x y. by apply corridor_empty_inside.
Qed.

Lemma generated_maze_walled_witness :
  3 <= 9 /\ 3 <= 9 /\
  ((exists m, GameLogic.generateMaze rnd_top 9 9 = Some m /\
              walled m (GameLogic.oddUp 9) (GameLogic.oddUp 9)) /\
   walled (CorridorLogic.generateMaze 9 9) 9 9).
Proof.
  split; [lia|]. split; [lia|].
  apply (generated_maze_walled rnd_top 9 9); lia.
Defined.

(** * Further properties of the engine *)

(** ** Hop counts and the Manhattan distance *)

Lemma walk_parity m a n b : walk m a n b -> (n - getDistance a b) `mod` 2 = 0.
Proof.
  induction 1 as [|n b c Hwalk IH Hadj _]; unfold getDistance, adjacent in *.
  - rewrite !Z.sub_diag. done.
  - Z.to_euclidean_division_equations. lia.
Qed.

Lemma walk_zero m a n b : walk m a n b -> n = 0 -> a = b.
Proof.
  destruct 1 as [|n b c Hwalk _ _]; [done|].
  apply walk_nonneg in Hwalk. lia.
Qed.

Lemma walk_prepend m a b n c :
  adjacent a b -> is_empty_cell m b -> walk m b n c -> walk m a (n + 1) c.
Proof.
  intros Hadj Hb Hwalk. induction Hwalk as [|n c c' Hwalk IH Hadj' Hc'].
  - apply (walk_step m a 0 a b); [constructor|done..].
  - by apply walk_step with c.
Qed.

Lemma adjacent_sym a b : adjacent a b -> adjacent b a.
Proof. unfold adjacent. lia. Qed.

Lemma getNewPosition_adjacent s d : adjacent (playerPosition s) (getNewPosition s d).
Proof. unfold adjacent. destruct d; simpl; lia. Qed.

Lemma shortest_unique m a n n' b : shortest m a n b -> shortest m a n' b -> n = n'.
Proof. intros [Hw Hmin] [Hw' Hmin']. specialize (Hmin _ Hw'). specialize (Hmin' _ Hw). lia. Qed.

(** On a well-formed state from which the goal can be reached, the
    breadth-first distance is the minimum hop count. *)
Lemma getDistanceToGoal_connected s :
  well_formed s ->
  connected (maze s) (playerPosition s) (goalPosition s) ->
  shortest (maze s) (playerPosition s) (GameLogic.getDistanceToGoal s) (goalPosition s).
Proof.
  intros Hwf Hconn. destruct (getDistanceToGoal_spec s Hwf) as [_ [[Hs _]|[Hn _]]]; done.
Qed.

Lemma canMove_spec s d :
  canMove s d = true <->
  isValidPosition s (getNewPosition s d) = true /\
  is_empty_cell (maze s) (getNewPosition s d).
Proof. unfold canMove. by rewrite andb_true_iff, cell_is_empty. Qed.

Lemma binary_grid_get m x y v :
  binary_grid m -> maze_get m x y = Some v -> v = CELL_EMPTY \/ v = CELL_WALL.
Proof.
  unfold binary_grid, maze_get, grid_get. intros Hbin.
  destruct ((0 <=? y) && (0 <=? x)); [|done].
  destruct (m !! Z.to_nat y) as [row|] eqn:Hrow; [|done].
  intros Hv. rewrite Forall_lookup in Hbin.
  specialize (Hbin _ _ Hrow). rewrite Forall_lookup in Hbin. by eapply Hbin.
Qed.

Lemma binary_grid_intro m w h :
  rectangular m w h ->
  (forall x y v, maze_get m x y = Some v -> v = CELL_EMPTY \/ v = CELL_WALL) ->
  binary_grid m.
Proof.
  intros [Hh Hw] Hget. apply Forall_lookup. intros j row Hrow.
  apply Forall_lookup. intros i v Hv.
  apply (Hget (Z.of_nat i) (Z.of_nat j)). unfold maze_get, grid_get.
  rewrite !(proj2 (Z.leb_le 0 _)) by lia. simpl.
  by rewrite !Nat2Z.id, Hrow.
Qed.

(** On a binary grid, a target that is not a wall is an EMPTY cell. *)
Lemma hitsWall_canMove s d :
  rectangular (maze s) (maze_width (maze s)) (maze_height (maze s)) ->
  binary_grid (maze s) ->
  canMove s d = negb (hitsWall s d).
Proof.
  intros Hrect Hbin. unfold canMove, hitsWall, cell_is.
  destruct (isValidPosition s (getNewPosition s d)) eqn:Hvalid; simpl; [|done].
  apply isValidPosition_spec in Hvalid as [Hx Hy].
  destruct (grid_get_is_Some _ _ _ _ _ Hrect Hx Hy) as [v Hv].
  fold (maze_get (maze s) (pos_x (getNewPosition s d)) (pos_y (getNewPosition s d))) in Hv.
  rewrite Hv. by destruct (binary_grid_get _ _ _ _ Hbin Hv) as [->| ->].
Qed.

Lemma movePlayer_playable s d :
  playable s -> playable (GameLogic.movePlayer s d).2.
Proof.
  intros (Hwf & Hbin & Hemp). split; [by apply movePlayerWith_well_formed|].
  pose proof (hitsWall_canMove s d (proj1 Hwf) Hbin) as Hcan.
  unfold GameLogic.movePlayer, movePlayerWith.
  destruct (hitsWall s d); simpl in *; [done|].
  split; [done|]. by apply canMove_spec in Hcan as [_ ?].
Qed.

Lemma play_keeps_maze moves : forall s,
  maze (play s moves) = maze s /\ goalPosition (play s moves) = goalPosition s.
Proof.
  induction moves as [|d moves IH]; intros s; [done|].
  change (play s (d :: moves)) with (play (GameLogic.movePlayer s d).2 moves).
  destruct (IH (GameLogic.movePlayer s d).2) as [-> ->].
  unfold GameLogic.movePlayer, movePlayerWith. by destruct (hitsWall s d).
Qed.

Lemma play_cons s d moves :
  play s (d :: moves) = play (GameLogic.movePlayer s d).2 moves.
Proof. done. Qed.

Lemma connected_of_distance s :
  well_formed s -> GameLogic.getDistanceToGoal s <> 9999 ->
  connected (maze s) (playerPosition s) (goalPosition s).
Proof.
  intros Hwf Hd. destruct (getDistanceToGoal_spec s Hwf) as [_ [[[Hw _] _]|[_ ?]]]; [|done].
  by eexists.
Qed.

Lemma example_state_well_formed : well_formed example_state.
Proof. split; [split; [reflexivity|repeat constructor]|reflexivity]. Qed.

Lemma example_state_connected :
  connected (maze example_state) (playerPosition example_state) (goalPosition example_state).
Proof.
  apply connected_of_distance; [apply example_state_well_formed|].
  vm_compute. discriminate.
Qed.

Lemma example_state_playable : playable example_state.
Proof.
  split; [apply example_state_well_formed|]. split; [|reflexivity].
  unfold binary_grid, example_state, maze.
  repeat (first [apply Forall_nil_2 | apply Forall_cons_2
                 | left; reflexivity | right; reflexivity]).
Qed.

Lemma create_playable rnd width height s :
  3 <= width -> 3 <= height ->
  GameLogic.create rnd width height = Some s -> playable s.
Proof.
  intros Hw Hh Hcreate.
  split; [exact (create_well_formed rnd width height s Hw Hh Hcreate)|].
  unfold GameLogic.create in Hcreate.
  destruct (generateMaze_inv rnd width height) as (m & Hm & Hinv); [lia..|].
  rewrite Hm in Hcreate. injection Hcreate as <-. simpl. split.
  - eapply binary_grid_intro; [apply Hinv|]. apply Hinv.
  - apply Hinv.
Qed.

Lemma play_playable moves : forall s, playable s -> playable (play s moves).
Proof.
  induction moves as [|d moves IH]; intros s Hs; [done|].
  rewrite play_cons. by apply IH, movePlayer_playable.
Qed.

(** X1.  The Manhattan distance that [getDistance] computes never exceeds
    the breadth-first distance of [getDistanceToGoal] when the goal can be
    reached: every path needs at least that many hops. *)
Theorem getDistance_le_getDistanceToGoal s :
  well_formed s ->
  connected (maze s) (playerPosition s) (goalPosition s) ->
  getDistance (playerPosition s) (goalPosition s) <= GameLogic.getDistanceToGoal s.
Proof.
  intros Hwf Hconn. destruct (getDistanceToGoal_connected s Hwf Hconn) as [Hwalk _].
  by eapply walk_manhattan.
Qed.

Lemma getDistance_le_getDistanceToGoal_witness :
  well_formed example_state /\
  connected (maze example_state) (playerPosition example_state)
            (goalPosition example_state) /\
  getDistance (playerPosition example_state) (goalPosition example_state)
  <= GameLogic.getDistanceToGoal example_state.
Proof.
  split; [apply example_state_well_formed|].
  split; [apply example_state_connected|].
  apply (getDistance_le_getDistanceToGoal example_state).
  - apply example_state_well_formed.
  - apply example_state_connected.
Defined.

(** X2.  [getDistanceToGoal] returns 0 exactly when the player stands on
    the goal cell. *)
Theorem getDistanceToGoal_zero_iff_at_goal s :
  well_formed s ->
  (GameLogic.getDistanceToGoal s = 0 <-> playerPosition s = goalPosition s).
Proof.
  intros Hwf. split.
  - intros Hd. destruct (getDistanceToGoal_spec s Hwf) as [_ [[[Hw _] _]|[_ ?]]]; [|lia].
    by eapply walk_zero.
  - intros Heq.
    assert (connected (maze s) (playerPosition s) (goalPosition s)) as Hconn
      by (exists 0; rewrite <- Heq; constructor).
    destruct (getDistanceToGoal_connected s Hwf Hconn) as [Hw Hmin].
    apply walk_nonneg in Hw. specialize (Hmin 0). rewrite <- Heq in Hmin.
    specialize (Hmin (walk_here _ _)). lia.
Qed.

Lemma getDistanceToGoal_zero_iff_at_goal_witness :
  well_formed example_state /\
  (GameLogic.getDistanceToGoal example_state = 0 <->
   playerPosition example_state = goalPosition example_state).
Proof.
  split; [apply example_state_well_formed|].
  apply (getDistanceToGoal_zero_iff_at_goal example_state example_state_well_formed).
Defined.

(** X3.  When the player stands on an EMPTY cell from which the goal can be
    reached, a move into an EMPTY neighbour changes the breadth-first
    distance by exactly one hop, up or down: it never stays the same and
    never jumps. *)
Theorem move_changes_distance_by_one s d :
  well_formed s ->
  is_empty_cell (maze s) (playerPosition s) ->
  connected (maze s) (playerPosition s) (goalPosition s) ->
  canMove s d = true ->
  GameLogic.getDistanceToGoal (GameLogic.movePlayer s d).2
    = GameLogic.getDistanceToGoal s + 1 \/
  GameLogic.getDistanceToGoal (GameLogic.movePlayer s d).2
    = GameLogic.getDistanceToGoal s - 1.
Proof.
  intros Hwf Hemp Hconn Hcan.
  pose proof (movePlayerWith_well_formed GameLogic.getDistanceToGoal s d Hwf) as Hwf'.
  apply canMove_spec in Hcan as [Hvalid Hnew].
  assert (hitsWall s d = false) as Hhit.
  { unfold hitsWall, cell_is. rewrite Hvalid. unfold is_empty_cell in Hnew.
    by rewrite Hnew. }
  destruct (movePlayerWith_open GameLogic.getDistanceToGoal s d Hhit)
    as (_ & _ & _ & _ & Hpos & _ & Hmaze & Hgoal).
  fold (GameLogic.movePlayer s d) in Hpos, Hmaze, Hgoal, Hwf'.
  set (s' := (GameLogic.movePlayer s d).2) in *.
  pose proof (getNewPosition_adjacent s d) as Hadj.
  destruct (getDistanceToGoal_connected s Hwf Hconn) as [Hw Hmin].
  assert (connected (maze s') (playerPosition s') (goalPosition s')) as Hconn'.
  { rewrite Hmaze, Hpos, Hgoal. eexists.
    eapply walk_prepend; [by apply adjacent_sym|done|done]. }
  destruct (getDistanceToGoal_connected s' Hwf' Hconn') as [Hw' Hmin'].
  rewrite Hmaze, Hpos, Hgoal in Hw', Hmin'.
  pose proof (Hmin' _ (walk_prepend _ _ _ _ _ (adjacent_sym _ _ Hadj) Hemp Hw)) as H1.
  pose proof (Hmin _ (walk_prepend _ _ _ _ _ Hadj Hnew Hw')) as H2.
  pose proof (walk_parity _ _ _ _ Hw) as Hp.
  pose proof (walk_parity _ _ _ _ (walk_prepend _ _ _ _ _ Hadj Hnew Hw')) as Hp'.
  Z.to_euclidean_division_equations. lia.
Qed.

Lemma move_changes_distance_by_one_witness :
  well_formed example_state /\
  is_empty_cell (maze example_state) (playerPosition example_state) /\
  canMove example_state south = true /\
  (GameLogic.getDistanceToGoal (GameLogic.movePlayer example_state south).2
     = GameLogic.getDistanceToGoal example_state + 1 \/
   GameLogic.getDistanceToGoal (GameLogic.movePlayer example_state south).2
     = GameLogic.getDistanceToGoal example_state - 1).
Proof.
  split; [apply example_state_well_formed|].
  split; [reflexivity|]. split; [reflexivity|].
  apply (move_changes_distance_by_one example_state south).
  - apply example_state_well_formed.
  - reflexivity.
  - apply example_state_connected.
  - reflexivity.
Defined.


(** X4.  [isCorrectDirection] never misses a good move: whenever an
    advancing move strictly lowers the breadth-first distance to a goal
    that can be reached from the new cell, the flag is true. *)
Theorem closer_move_is_flagged s d :
  well_formed s ->
  hitsWall s d = false ->
  connected (maze s) (getNewPosition s d) (goalPosition s) ->
  GameLogic.getDistanceToGoal (GameLogic.movePlayer s d).2
    < GameLogic.getDistanceToGoal s ->
  isCorrectDirection (GameLogic.movePlayer s d).1 = true.
Proof.
  intros Hwf Hhit Hconn Hless.
  pose proof (movePlayerWith_well_formed GameLogic.getDistanceToGoal s d Hwf) as Hwf'.
  destruct (movePlayerWith_open GameLogic.getDistanceToGoal s d Hhit)
    as (_ & _ & _ & Hflag & Hpos & _ & Hmaze & Hgoal).
  fold (GameLogic.movePlayer s d) in Hflag, Hpos, Hmaze, Hgoal, Hwf'.
  rewrite Hflag. apply Z.ltb_lt.
  set (s' := (GameLogic.movePlayer s d).2) in *.
  assert (connected (maze s') (playerPosition s') (goalPosition s')) as Hconn'
    by (by rewrite Hmaze, Hpos, Hgoal).
  destruct (getDistanceToGoal_connected s' Hwf' Hconn') as [Hw' _].
  apply walk_manhattan in Hw'. rewrite Hpos, Hgoal in Hw'. lia.
Qed.

Lemma closer_move_is_flagged_witness :
  well_formed example_state /\
  hitsWall example_state south = false /\
  GameLogic.getDistanceToGoal (GameLogic.movePlayer example_state south).2
    < GameLogic.getDistanceToGoal example_state /\
  isCorrectDirection (GameLogic.movePlayer example_state south).1 = true.
Proof.
  split; [apply example_state_well_formed|].
  split; [reflexivity|]. split; [reflexivity|].
  apply (closer_move_is_flagged example_state south).
  - apply example_state_well_formed.
  - reflexivity.
  - apply (connected_of_distance (GameLogic.movePlayer example_state south).2).
    + apply movePlayerWith_well_formed, example_state_well_formed.
    + vm_compute. discriminate.
  - reflexivity.
Defined.





(** X6.  Along any sequence of moves from a state with the player on an
    EMPTY cell of a binary grid, the player stays on an EMPTY cell of the
    grid, the grid and the goal never change, [moveCount] grows by at most
    one for each call, and a win, once recorded, is kept. *)
Theorem play_keeps_player_on_empty_cells s moves :
  playable s ->
  playable (play s moves) /\
  maze (play s moves) = maze s /\
  goalPosition (play s moves) = goalPosition s /\
  moveCount s <= moveCount (play s moves) <= moveCount s + Z.of_nat (length moves) /\
  (gameWon s = true -> gameWon (play s moves) = true).
Proof.
  intros Hs. split; [by apply play_playable|]. clear Hs.
  revert s. induction moves as [|d moves IH]; intros s.
  { simpl. repeat split; (done || lia). }
  rewrite play_cons.
  destruct (IH (GameLogic.movePlayer s d).2) as (-> & -> & Hcount & Hwon).
  assert (maze (GameLogic.movePlayer s d).2 = maze s /\
          goalPosition (GameLogic.movePlayer s d).2 = goalPosition s /\
          moveCount s <= moveCount (GameLogic.movePlayer s d).2 <= moveCount s + 1 /\
          (gameWon s = true -> gameWon (GameLogic.movePlayer s d).2 = true))
    as (Hm & Hg & Hc & Hw).
  { unfold GameLogic.movePlayer, movePlayerWith.
    destruct (hitsWall s d); simpl.
    - repeat split; (done || lia).
    - repeat split; try (done || lia). intros ->. by destruct (_ && _). }
  rewrite length_cons. repeat split; auto; lia.
Qed.

Lemma play_keeps_player_on_empty_cells_witness :
  playable example_state /\
  playable (play example_state [south; west; south; east]) /\
  moveCount (play example_state [south; west; south; east]) <= 4.
Proof.
  assert (playable example_state) as Hplay by apply example_state_playable.
  split; [exact Hplay|].
  destruct (play_keeps_player_on_empty_cells example_state [south; west; south; east] Hplay)
    as (Hp & _ & _ & Hcount & _).
  split; [exact Hp|]. apply Hcount.
Defined.


(** ** Shape of the generated grids *)

(** X7.  In every grid produced by the depth-first carve (requested sizes
    of at least 3, any random draws) each EMPTY cell is connected to the
    start cell, each cell strictly inside the border with two odd
    coordinates is EMPTY, and each cell with two even coordinates is WALL:
    the carve reaches the whole odd lattice and leaves a pillar between
    any two parallel corridors. *)
Theorem dfs_maze_structure rnd width height :
  3 <= width -> 3 <= height ->
  exists m,
    GameLogic.generateMaze rnd width height = Some m /\
    (forall c, is_empty_cell m c -> connected m (mkPosition 1 1) c) /\
    (forall x y, 0 < x < GameLogic.oddUp width - 1 ->
                 0 < y < GameLogic.oddUp height - 1 ->
                 x `mod` 2 = 1 -> y `mod` 2 = 1 ->
                 maze_get m x y = Some CELL_EMPTY) /\
    (forall x y, 0 <= x < GameLogic.oddUp width ->
                 0 <= y < GameLogic.oddUp height ->
                 x `mod` 2 = 0 -> y `mod` 2 = 0 ->
                 maze_get m x y = Some CELL_WALL).
Proof.
  intros Hw Hh.
  destruct (generateMaze_inv rnd width height) as (m & Hm & Hinv); [lia..|].
  exists m. split; [done|]. split; [apply Hinv|]. split.
  - intros x y Hx Hy Hxo Hyo.
    pose proof (dfs_all_carved _ _ m Hinv (Z.to_nat ((x - 1) `div` 2))
                  (Z.to_nat ((y - 1) `div` 2))) as Hc.
    replace (1 + 2 * Z.of_nat (Z.to_nat ((x - 1) `div` 2))) with x in Hc
      by (Z.to_euclidean_division_equations; lia).
    replace (1 + 2 * Z.of_nat (Z.to_nat ((y - 1) `div` 2))) with y in Hc
      by (Z.to_euclidean_division_equations; lia).
    apply Hc; lia.
  - intros x y Hx Hy Hxe Hye.
    destruct (grid_get_is_Some m _ _ x y (dfs_rect _ _ _ _ Hinv) Hx Hy) as [v Hv].
    fold (maze_get m x y) in Hv. rewrite Hv.
    destruct (dfs_cells _ _ _ _ Hinv _ _ _ Hv) as [->| ->]; [|done].
    destruct (dfs_parity _ _ _ _ Hinv _ _ Hv); lia.
Qed.

Lemma dfs_maze_structure_witness :
  3 <= 9 /\ 3 <= 9 /\
  exists m,
    GameLogic.generateMaze rnd_top 9 9 = Some m /\
    (forall c, is_empty_cell m c -> connected m (mkPosition 1 1) c) /\
    (forall x y, 0 < x < GameLogic.oddUp 9 - 1 ->
                 0 < y < GameLogic.oddUp 9 - 1 ->
                 x `mod` 2 = 1 -> y `mod` 2 = 1 ->
                 maze_get m x y = Some CELL_EMPTY) /\
    (forall x y, 0 <= x < GameLogic.oddUp 9 ->
                 0 <= y < GameLogic.oddUp 9 ->
                 x `mod` 2 = 0 -> y `mod` 2 = 0 ->
                 maze_get m x y = Some CELL_WALL).
Proof.
  split; [lia|]. split; [lia|].
  apply (dfs_maze_structure rnd_top 9 9); lia.
Defined.

(** X8.  The corridor carve is described cell by cell: for sizes of at
    least 3, a cell of the grid is EMPTY exactly when it lies on the ring
    one cell inside the border or on the middle cross and is not one of the
    two walls placed when both sizes exceed 5; every other cell of the grid
    is WALL. *)
Theorem corridor_maze_cells width height x y :
  3 <= width -> 3 <= height ->
  0 <= x < width -> 0 <= y < height ->
  (maze_get (CorridorLogic.generateMaze width height) x y = Some CELL_EMPTY <->
   on_corridor width height x y /\ ~ strategic_wall width height x y) /\
  (maze_get (CorridorLogic.generateMaze width height) x y = Some CELL_WALL <->
   ~ on_corridor width height x y \/ strategic_wall width height x y).
Proof.
  intros Hw Hh Hx Hy.
  destruct (corridor_get width height x y Hw Hh) as [_ ->].
  rewrite maze_get_wall_grid by done.
  pose proof (corridor_cells_spec width height x y) as Hspec.
  fold (on_corridor width height x y) in Hspec.
  destruct (decide (5 < width /\ _)) as [Hwall|Hwall];
    [|destruct (decide ((x, y) ∈ corridor_cells width height)) as [Hin|Hin]];
    fold (strategic_wall width height x y) in Hwall;
    split; split; intros H; first [done | tauto].
Qed.

Lemma corridor_maze_cells_witness :
  3 <= 7 /\ 3 <= 7 /\ 0 <= 3 < 7 /\ 0 <= 2 < 7 /\
  maze_get (CorridorLogic.generateMaze 7 7) 3 2 = Some CELL_WALL.
Proof.
  split; [lia|]. split; [lia|]. split; [lia|]. split; [lia|].
  apply (corridor_maze_cells 7 7 3 2); [lia..|].
  right. split; [lia|]. split; [lia|]. by left.
Defined.

(** X9.  [resetGame] of the corridor class is a full restart: from any
    state that still holds the grid built for sizes of at least 3, it
    returns exactly the state the constructor built. *)
Theorem corridor_resetGame_restarts width height s :
  3 <= width -> 3 <= height ->
  maze s = CorridorLogic.generateMaze width height ->
  CorridorLogic.resetGame s = CorridorLogic.create width height.
Proof.
  intros Hw Hh Hmaze. unfold CorridorLogic.resetGame, CorridorLogic.create.
  destruct (corridor_get width height 0 0 Hw Hh) as [Hrect _].
  destruct (rectangular_dims _ _ _ Hrect) as [Hmw Hmh]; [lia|].
  by rewrite Hmaze, Hmw, Hmh.
Qed.

Lemma corridor_resetGame_restarts_witness :
  3 <= 7 /\ 3 <= 7 /\
  CorridorLogic.resetGame
    (CorridorLogic.movePlayer (CorridorLogic.create 7 7) east).2
  = CorridorLogic.create 7 7.
Proof.
  split; [lia|]. split; [lia|].
  apply (corridor_resetGame_restarts 7 7); [lia|lia|reflexivity].
Defined.

(** X10.  [resetGame] of the depth-first class, called at any point of a
    game created with sizes of at least 3, returns a fresh game on a grid
    of the same size whose goal is the far corner cell of that grid, EMPTY
    and reachable: this also holds when the constructor was given even
    sizes and had put the goal on a wall. *)
Theorem resetGame_gives_solvable_game rnd rnd' width height s moves :
  3 <= width -> 3 <= height ->
  GameLogic.create rnd width height = Some s ->
  exists s',
    GameLogic.resetGame rnd' (play s moves) = Some s' /\
    playerPosition s' = mkPosition 1 1 /\
    goalPosition s' =
      mkPosition (GameLogic.oddUp width - 2) (GameLogic.oddUp height - 2) /\
    gameWon s' = false /\ moveCount s' = 0 /\
    solvable (maze s') (GameLogic.oddUp width) (GameLogic.oddUp height).
Proof.
  intros Hw Hh Hcreate.
  destruct (play_keeps_maze moves s) as [Hmaze _].
  unfold GameLogic.create in Hcreate.
  destruct (generateMaze_inv rnd width height) as (m & Hm & Hinv); [lia..|].
  rewrite Hm in Hcreate. injection Hcreate as <-. simpl in Hmaze.
  destruct (oddUp_ge3 width) as [HW HWo]; [lia|].
  destruct (oddUp_ge3 height) as [HH HHo]; [lia|].
  destruct (rectangular_dims m _ _ (dfs_rect _ _ _ _ Hinv)) as [Hmw Hmh]; [lia|].
  unfold GameLogic.resetGame. rewrite Hmaze, Hmw, Hmh.
  destruct (generateMaze_inv rnd' (GameLogic.oddUp width) (GameLogic.oddUp height))
    as (m' & Hm' & Hinv'); [lia..|].
  assert (forall n, n `mod` 2 = 1 -> 0 <= n -> GameLogic.oddUp n = n) as Hfix.
  { intros n Hn Hpos. unfold GameLogic.oddUp.
    destruct (n `rem` 2 =? 0) eqn:Hrem; [|done].
    apply Z.eqb_eq in Hrem. Z.to_euclidean_division_equations. lia. }
  rewrite (Hfix (GameLogic.oddUp width)), (Hfix (GameLogic.oddUp height)) in Hinv'
    by (done || lia).
  rewrite Hm'. eexists. split; [done|]. cbn [playerPosition goalPosition gameWon moveCount maze].
  do 4 (split; [done|]).
  by apply dfs_solvable.
Qed.

Lemma resetGame_gives_solvable_game_witness :
  3 <= 4 /\ 3 <= 4 /\
  exists s,
    GameLogic.create rnd_top 4 4 = Some s /\
    exists s',
      GameLogic.resetGame rnd_top (play s [south; south]) = Some s' /\
      playerPosition s' = mkPosition 1 1 /\
      goalPosition s' = mkPosition (GameLogic.oddUp 4 - 2) (GameLogic.oddUp 4 - 2) /\
      gameWon s' = false /\ moveCount s' = 0 /\
      solvable (maze s') (GameLogic.oddUp 4) (GameLogic.oddUp 4).
Proof.
  split; [lia|]. split; [lia|].
  eexists. split; [vm_compute; reflexivity|].
  apply (resetGame_gives_solvable_game rnd_top rnd_top 4 4 _ [south; south]);
    [lia|lia|vm_compute; reflexivity].
Defined.


(** X11.  Every game the screen creates can be won: for each difficulty
    level and any random draws the constructor returns a game whose goal
    is the far corner cell, EMPTY and reachable from the start, at a
    breadth-first distance that is positive and below the sentinel 9999. *)
Theorem every_difficulty_is_winnable difficulty rnd :
  exists s,
    GameLogic.create rnd (EchoQuestGame.getMazeSize difficulty) (EchoQuestGame.getMazeSize difficulty) = Some s /\
    playable s /\
    is_empty_cell (maze s) (goalPosition s) /\
    shortest (maze s) (playerPosition s) (GameLogic.getDistanceToGoal s) (goalPosition s) /\
    0 < GameLogic.getDistanceToGoal s < 9999.
Proof.
  set (n := EchoQuestGame.getMazeSize difficulty).
  assert (9 <= n <= 25 /\ GameLogic.oddUp n = n) as [Hn Hodd]
    by (destruct difficulty; vm_compute; repeat split; congruence).
  destruct (generateMaze_inv rnd n n) as (m & Hm & Hinv); [lia..|].
  rewrite Hodd in Hinv.
  assert (n `mod` 2 = 1) as Hmod by (destruct difficulty; done).
  destruct (dfs_solvable n n m) as (_ & _ & Hgoal & Hconn & d & _ & Hd & Hshort & Hlt);
    [lia..|done|done|done|].
  assert (GameLogic.create rnd n n = Some
            (mkGameState (mkPosition 1 1) (mkPosition (n - 2) (n - 2)) m false 0))
    as Hcreate by (unfold GameLogic.create; by rewrite Hm).
  eexists. split; [exact Hcreate|].
  split; [eapply (create_playable rnd n n); [lia|lia|exact Hcreate]|].
  simpl. split; [done|]. rewrite Hd. split; [done|].
  destruct Hshort as [Hwalk _].
  pose proof (walk_manhattan _ _ _ _ Hwalk) as Hman.
  unfold getDistance in Hman. simpl in Hman. nia.
Qed.

(** ** The debug rendering *)

Lemma join_cons sep p q rest :
  join sep (p :: q :: rest) = p ++ sep ++ join sep (q :: rest).
Proof. done. Qed.

(** Joining [n >= 1] parts of equal length [len]. *)
Lemma join_length sep parts len :
  Forall (fun p => length p = len) parts -> parts <> [] ->
  (length (join sep parts) + length sep = length parts * (len + length sep))%nat.
Proof.
  induction 1 as [|p parts Hp Hparts IH]; [done|]. intros _.
  destruct parts as [|q rest]; [simpl; lia|].
  rewrite join_cons, !length_app, length_cons.
  specialize (IH ltac:(done)). simpl in *. lia.
Qed.

Lemma join_lookup sep parts len :
  Forall (fun p => length p = len) parts ->
  forall j i p, parts !! j = Some p -> (i < len)%nat ->
  join sep parts !! (j * (len + length sep) + i)%nat = p !! i.
Proof.
  induction 1 as [|p0 parts Hp Hparts IH]; intros j i p Hj Hi; [done|].
  destruct parts as [|q rest].
  - destruct j as [|j]; simpl in Hj; [|done]. injection Hj as ->.
    done.
  - rewrite join_cons. destruct j as [|j]; simpl in Hj.
    + injection Hj as ->. simpl. rewrite lookup_app_l by lia. done.
    + rewrite lookup_app_r by (rewrite Hp; lia).
      rewrite lookup_app_r by (rewrite Hp; lia).
      rewrite <- (IH j i p Hj Hi). f_equal. rewrite Hp. lia.
Qed.

Lemma join_lookup_sep sep parts len :
  Forall (fun p => length p = len) parts ->
  forall j k, (j + 1 < length parts)%nat -> (k < length sep)%nat ->
  join sep parts !! (j * (len + length sep) + len + k)%nat = sep !! k.
Proof.
  induction 1 as [|p0 parts Hp Hparts IH]; intros j k Hj Hk; [simpl in Hj; lia|].
  destruct parts as [|q rest]; [simpl in Hj; lia|].
  rewrite join_cons. destruct j as [|j].
  - simpl. rewrite lookup_app_r by lia. rewrite lookup_app_l by lia.
    f_equal. lia.
  - rewrite lookup_app_r by (rewrite Hp; lia).
    rewrite lookup_app_r by (rewrite Hp; lia).
    rewrite <- (IH j k ltac:(simpl in *; lia) Hk). f_equal. rewrite Hp. lia.
Qed.

Lemma glyph_length cell : length (glyph cell) = 1%nat.
Proof. unfold glyph. by repeat case_match. Qed.

Lemma render_row_length (row : list Z) :
  row <> [] ->
  (length (join [CHAR_SPACE] (glyph <$> row)) + 1 = 2 * length row)%nat.
Proof.
  intros Hrow.
  pose proof (join_length [CHAR_SPACE] (glyph <$> row) 1) as Hlen.
  rewrite length_fmap in Hlen. simpl in Hlen.
  rewrite Hlen; [lia| |by destruct row].
  apply Forall_fmap, Forall_forall. intros c _. apply glyph_length.
Qed.

Lemma render_row_lookup (row : list Z) i c :
  row !! i = Some c ->
  join [CHAR_SPACE] (glyph <$> row) !! (2 * i)%nat = head (glyph c).
Proof.
  intros Hc.
  pose proof (join_lookup [CHAR_SPACE] (glyph <$> row) 1) as Hlook.
  specialize (Hlook ltac:(apply Forall_fmap, Forall_forall; intros ? _; apply glyph_length)
                i 0%nat (glyph c)).
  rewrite list_lookup_fmap, Hc in Hlook. specialize (Hlook eq_refl ltac:(lia)).
  simpl in Hlook. replace (2 * i)%nat with (i * 2 + 0)%nat by lia.
  rewrite Hlook. by destruct (glyph c).
Qed.

Lemma render_grid_lookup (m : list (list Z)) (w h i j : nat) c :
  rectangular m (Z.of_nat w) (Z.of_nat h) ->
  maze_get m (Z.of_nat i) (Z.of_nat j) = Some c ->
  join [CHAR_NEWLINE] ((fun row => join [CHAR_SPACE] (glyph <$> row)) <$> m)
    !! (j * (2 * w) + 2 * i)%nat = head (glyph c).
Proof.
  intros Hrect Hc.
  destruct (grid_get_Some _ _ _ _ _ _ Hrect Hc) as [Hi Hj].
  unfold maze_get, grid_get in Hc.
  rewrite !(proj2 (Z.leb_le 0 _)) in Hc by lia. simpl in Hc.
  rewrite !Nat2Z.id in Hc.
  destruct (m !! j) as [row|] eqn:Hrow; [|done].
  destruct Hrect as [_ Hw]. rewrite Forall_forall in Hw.
  assert (Forall (fun p : list Z => length p = (2 * w - 1)%nat)
            ((fun row => join [CHAR_SPACE] (glyph <$> row)) <$> m)) as Hall.
  { apply Forall_fmap, Forall_forall. intros r Hr. simpl.
    specialize (Hw r Hr).
    pose proof (render_row_length r ltac:(destruct r; [simpl in Hw; lia|done])).
    lia. }
  pose proof (join_lookup [CHAR_NEWLINE] _ _ Hall j (2 * i)%nat
                (join [CHAR_SPACE] (glyph <$> row))) as Hlook.
  rewrite list_lookup_fmap, Hrow in Hlook.
  specialize (Hlook eq_refl ltac:(lia)).
  change (length [CHAR_NEWLINE]) with 1%nat in Hlook.
  replace (2 * w - 1 + 1)%nat with (2 * w)%nat in Hlook by lia.
  rewrite Hlook. by apply render_row_lookup.
Qed.

Lemma render_grid_length (m : list (list Z)) (w h : nat) :
  rectangular m (Z.of_nat w) (Z.of_nat h) -> (0 < w)%nat -> (0 < h)%nat ->
  (length (join [CHAR_NEWLINE] ((fun row => join [CHAR_SPACE] (glyph <$> row)) <$> m))
   + 1 = h * (2 * w))%nat.
Proof.
  intros [Hh Hw] Hwpos Hhpos. rewrite Forall_forall in Hw.
  assert (Forall (fun p : list Z => length p = (2 * w - 1)%nat)
            ((fun row => join [CHAR_SPACE] (glyph <$> row)) <$> m)) as Hall.
  { apply Forall_fmap, Forall_forall. intros r Hr. simpl.
    specialize (Hw r Hr).
    pose proof (render_row_length r ltac:(destruct r; [simpl in Hw; lia|done])).
    lia. }
  pose proof (join_length [CHAR_NEWLINE] _ _ Hall) as Hlen.
  rewrite length_fmap in Hlen.
  change (length [CHAR_NEWLINE]) with 1%nat in Hlen.
  replace (2 * w - 1 + 1)%nat with (2 * w)%nat in Hlen by lia.
  rewrite Hlen; [f_equal; lia|]. destruct m; [simpl in Hh; lia|done].
Qed.

(** X12.  [getMazeString] prints a rectangular grid of [w] by [h] cells,
    with the player and the goal on it, as [h] lines of [w] glyphs
    separated by single spaces: the text has [h * 2w - 1] characters, and
    the glyph of cell [(i, j)] stands at index [j * 2w + 2i].  It is [G] on
    the goal cell (also when the player stands there, and also when that
    cell is a wall), [P] on the player's cell otherwise, and elsewhere the
    glyph of the cell: the middle dot for EMPTY, the full block for WALL. *)
Theorem getMazeString_layout s (w h i j : nat) :
  rectangular (maze s) (Z.of_nat w) (Z.of_nat h) ->
  0 <= pos_x (playerPosition s) < Z.of_nat w ->
  0 <= pos_y (playerPosition s) < Z.of_nat h ->
  0 <= pos_x (goalPosition s) < Z.of_nat w ->
  0 <= pos_y (goalPosition s) < Z.of_nat h ->
  (i < w)%nat -> (j < h)%nat ->
  (length (getMazeString s) + 1 = h * (2 * w))%nat /\
  (getMazeString s !! (j * (2 * w) + 2 * i)%nat =
    if decide (mkPosition (Z.of_nat i) (Z.of_nat j) = goalPosition s)
    then Some CHAR_GOAL
    else if decide (mkPosition (Z.of_nat i) (Z.of_nat j) = playerPosition s)
    then Some CHAR_PLAYER
    else cell ← maze_get (maze s) (Z.of_nat i) (Z.of_nat j); head (glyph cell)) /\
  ((i + 1 < w)%nat ->
   getMazeString s !! (j * (2 * w) + 2 * i + 1)%nat = Some CHAR_SPACE) /\
  ((j + 1 < h)%nat ->
   getMazeString s !! (j * (2 * w) + 2 * w - 1)%nat = Some CHAR_NEWLINE).
Proof.
  intros Hrect Hpx Hpy Hgx Hgy Hi Hj. unfold getMazeString.
  set (m1 := maze_set (maze s) _ _ 2). set (m2 := maze_set m1 _ _ 3).
  assert (rectangular m1 (Z.of_nat w) (Z.of_nat h)) as Hrect1
    by by apply maze_set_rectangular.
  assert (rectangular m2 (Z.of_nat w) (Z.of_nat h)) as Hrect2
    by by apply maze_set_rectangular.
  split; [apply (render_grid_length m2 w h Hrect2); lia|].
  assert (Forall (fun p : list Z => length p = (2 * w - 1)%nat)
            ((fun row => join [CHAR_SPACE] (glyph <$> row)) <$> m2)) as Hall.
  { destruct Hrect2 as [_ Hw]. rewrite Forall_forall in Hw.
    apply Forall_fmap, Forall_forall. intros r Hr. simpl.
    specialize (Hw r Hr).
    pose proof (render_row_length r ltac:(destruct r; [simpl in Hw; lia|done])).
    lia. }
  assert (length m2 = h) as Hlen2 by (destruct Hrect2; lia).
  destruct (lookup_lt_is_Some_2 m2 j) as [row Hrow]; [lia|].
  assert (length row = w) as Hlenrow.
  { destruct Hrect2 as [_ Hw]. rewrite Forall_forall in Hw.
    specialize (Hw row ltac:(by eapply list_elem_of_lookup_2)). lia. }
  split; [|split].
  2:{ intros Hi'.
      pose proof (join_lookup [CHAR_NEWLINE] _ _ Hall j (2 * i + 1)%nat
                    (join [CHAR_SPACE] (glyph <$> row))) as Hlook.
      rewrite list_lookup_fmap, Hrow in Hlook.
      specialize (Hlook eq_refl ltac:(lia)).
      change (length [CHAR_NEWLINE]) with 1%nat in Hlook.
      replace (2 * w - 1 + 1)%nat with (2 * w)%nat in Hlook by lia.
      replace (j * (2 * w) + 2 * i + 1)%nat with (j * (2 * w) + (2 * i + 1))%nat by lia.
      rewrite Hlook.
      pose proof (join_lookup_sep [CHAR_SPACE] (glyph <$> row) 1
                    ltac:(apply Forall_fmap, Forall_forall; intros ? _; apply glyph_length)
                    i 0%nat) as Hsep.
      rewrite length_fmap in Hsep. specialize (Hsep ltac:(lia) ltac:(simpl; lia)).
      change (length [CHAR_SPACE]) with 1%nat in Hsep.
      replace (2 * i + 1)%nat with (i * (1 + 1) + 1 + 0)%nat by lia.
      by rewrite Hsep. }
  2:{ intros Hj'.
      pose proof (join_lookup_sep [CHAR_NEWLINE] _ _ Hall j 0%nat) as Hsep.
      rewrite length_fmap in Hsep. specialize (Hsep ltac:(lia) ltac:(simpl; lia)).
      change (length [CHAR_NEWLINE]) with 1%nat in Hsep.
      replace (j * (2 * w - 1 + 1) + (2 * w - 1) + 0)%nat
        with (j * (2 * w) + 2 * w - 1)%nat in Hsep by lia.
      by rewrite Hsep. }
  clear Hall Hlen2 row Hrow Hlenrow.
  destruct (grid_get_is_Some m2 _ _ (Z.of_nat i) (Z.of_nat j) Hrect2) as [c Hc];
    [lia..|].
  fold (maze_get m2 (Z.of_nat i) (Z.of_nat j)) in Hc.
  rewrite (render_grid_lookup m2 w h i j c Hrect2 Hc).
  unfold m2 in Hc.
  rewrite (maze_get_set _ _ _ _ _ _ _ _ Hrect1 Hgx Hgy) in Hc.
  unfold m1 in Hc.
  rewrite (maze_get_set _ _ _ _ _ _ _ _ Hrect Hpx Hpy) in Hc.
  clearbody m1 m2.
  destruct (goalPosition s) as [gx gy], (playerPosition s) as [px py]. simpl in *.
  destruct (decide ((gx, gy) = (Z.of_nat i, Z.of_nat j))) as [Hg|Hg].
  { injection Hc as <-. rewrite decide_True by congruence. done. }
  rewrite decide_False by congruence.
  destruct (decide ((px, py) = (Z.of_nat i, Z.of_nat j))) as [Hp|Hp].
  { injection Hc as <-. rewrite decide_True by congruence. done. }
  rewrite decide_False by congruence.
  by rewrite Hc.
Qed.

Lemma getMazeString_layout_witness :
  rectangular (maze example_state) (Z.of_nat 5) (Z.of_nat 5) /\
  (length (getMazeString example_state) + 1 = 5 * (2 * 5))%nat /\
  getMazeString example_state !! (1 * (2 * 5) + 2 * 3)%nat = Some CHAR_GOAL.
Proof.
  assert (rectangular (maze example_state) (Z.of_nat 5) (Z.of_nat 5)) as Hrect
    by (split; [reflexivity|repeat constructor]).
  split; [exact Hrect|].
  destruct (getMazeString_layout example_state 5 5 3 1 Hrect) as (Hlen & Hcell & _);
    [simpl; lia..|].
  split; [exact Hlen|]. exact Hcell.
Defined.


Lemma movePlayer_gameWon s d :
  gameWon (GameLogic.movePlayer s d).2 =
    gameWon s ||
    (success (GameLogic.movePlayer s d).1 &&
     bool_decide (playerPosition (GameLogic.movePlayer s d).2 = goalPosition s)).
Proof.
  unfold GameLogic.movePlayer, movePlayerWith.
  destruct (hitsWall s d); simpl; [by rewrite orb_false_r|].
  destruct (getNewPosition s d) as [x y], (goalPosition s) as [gx gy]. simpl.
  destruct (x =? gx) eqn:Hx, (y =? gy) eqn:Hy; simpl;
    try apply Z.eqb_eq in Hx as ->; try apply Z.eqb_eq in Hy as ->;
    try apply Z.eqb_neq in Hx; try apply Z.eqb_neq in Hy.
  - rewrite bool_decide_eq_true_2 by done. by rewrite orb_true_r.
  - rewrite bool_decide_eq_false_2 by congruence. by rewrite orb_false_r.
  - rewrite bool_decide_eq_false_2 by congruence. by rewrite orb_false_r.
  - rewrite bool_decide_eq_false_2 by congruence. by rewrite orb_false_r.
Qed.

Lemma movePlayer_stays_or_succeeds s d :
  success (GameLogic.movePlayer s d).1 = false -> (GameLogic.movePlayer s d).2 = s.
Proof.
  unfold GameLogic.movePlayer, movePlayerWith. by destruct (hitsWall s d).
Qed.

Lemma play_keeps_win moves : forall s, gameWon s = true -> gameWon (play s moves) = true.
Proof.
  induction moves as [|d moves IH]; intros s Hs; [done|].
  rewrite play_cons. apply IH. rewrite movePlayer_gameWon, Hs. done.
Qed.

(** X13.  In a game that is not yet won and whose player is not on the
    goal, [gameWon] becomes true exactly when the player stands on the goal
    after some number of the moves made: no win is recorded without a visit
    to the goal, none is missed, and none is taken back by later moves. *)
Theorem gameWon_iff_goal_visited s moves :
  gameWon s = false ->
  playerPosition s <> goalPosition s ->
  (gameWon (play s moves) = true <->
   exists k, playerPosition (play s (take k moves)) = goalPosition s).
Proof.
  revert s. induction moves as [|d moves IH]; intros s Hwon Hpos.
  { simpl. rewrite Hwon. split; [done|]. intros [k Hk]. by rewrite take_nil in Hk. }
  rewrite play_cons.
  pose proof (movePlayer_gameWon s d) as Hg. rewrite Hwon in Hg. simpl in Hg.
  pose proof (movePlayer_stays_or_succeeds s d) as Hstay.
  assert (goalPosition (GameLogic.movePlayer s d).2 = goalPosition s) as Hgoal
    by (destruct (play_keeps_maze [d] s) as [_ H]; exact H).
  destruct (gameWon (GameLogic.movePlayer s d).2) eqn:Hwon1.
  - split; [intros _|intros _; by apply play_keeps_win].
    exists 1%nat. simpl. symmetry in Hg. apply andb_true_iff in Hg as [_ Hg].
    by apply bool_decide_eq_true in Hg.
  - assert (playerPosition (GameLogic.movePlayer s d).2
            <> goalPosition (GameLogic.movePlayer s d).2) as Hpos1.
    { rewrite Hgoal. destruct (success (GameLogic.movePlayer s d).1).
      - simpl in Hg. symmetry in Hg. by apply bool_decide_eq_false in Hg.
      - by rewrite Hstay. }
    rewrite (IH _ Hwon1 Hpos1), Hgoal. split.
    + intros [k Hk]. exists (S k). by rewrite firstn_cons, play_cons.
    + intros [[|k] Hk]; [done|]. exists k. by rewrite firstn_cons, play_cons in Hk.
Qed.

Lemma gameWon_iff_goal_visited_witness :
  gameWon example_state = false /\
  playerPosition example_state <> goalPosition example_state /\
  gameWon (play example_state [south; south; east; east; north; north; south]) = true.
Proof.
  split; [reflexivity|]. split; [discriminate|].
  apply (gameWon_iff_goal_visited example_state); [reflexivity|discriminate|].
  exists 6%nat. reflexivity.
Defined.

(** * The audio system *)

Section Audio.
Import AudioSystem.

Lemma perform_then broken c (k : Audio ()) dev :
  (perform broken c ;; k) dev =
    if broken c then (Threw "audio error", dev)
    else k (mkDevice (issued dev ++ [c]) (console dev)).
Proof. unfold mbind, Audio_bind, bind, perform. by destruct (broken c). Qed.

Local Ltac playback_stops :=
  unfold console_warn; simpl; eexists _, _;
  (split;
   [do 2 f_equal;
    rewrite <- ?app_assoc; first [reflexivity | symmetry; apply app_nil_r]
   |first [left; split; reflexivity
          |right; left; split; [simpl; lia|reflexivity]]]).

(** X14.  [playSound] never throws, whatever the audio context refuses:
    it returns normally, only ever adds to what the device was asked to do,
    and writes at most one warning.  Either all nine operations of a
    playback were issued and nothing was written, or playback stopped
    early with one warning, or nothing happened at all. *)
Theorem playSound_never_throws broken sys soundName panValue dev :
  exists calls warnings,
    playSound broken sys soundName panValue dev =
      (Returned tt, mkDevice (issued dev ++ calls) (console dev ++ warnings)) /\
    ((length calls = 9%nat /\ warnings = []) \/
     ((length calls < 9)%nat /\ warnings = ["Failed to play sound:"]) \/
     (calls = [] /\ warnings = [])).
Proof.
  destruct dev as [iss con]. unfold playSound.
  destruct (negb (isInitialized sys) || negb (has (sounds sys) soundName)).
  { exists [], []. rewrite !app_nil_r. split; [done|]. by right; right. }
  unfold try_catch.
  destruct (sounds sys !! soundName) as [buffer|].
  2:{ exists [], ["Failed to play sound:"]. rewrite app_nil_r.
      split; [done|]. right; left. simpl. split; [lia|done]. }
  repeat (rewrite perform_then; simpl;
          match goal with
          | |- context [if broken ?c then _ else _] =>
            destruct (broken c); [playback_stops|]
          end).
  unfold perform; simpl. destruct (broken start); playback_stops.
Qed.

Lemma playSound_working broken sys soundName panValue buffer dev :
  (forall c, broken c = false) ->
  isInitialized sys = true ->
  sounds sys !! soundName = Some buffer ->
  playSound broken sys soundName panValue dev =
    (Returned tt,
     mkDevice (issued dev ++
               [createBufferSource; createGain; createStereoPanner;
                setBuffer buffer; setPan (Qmax (-1) (Qmin 1 panValue));
                connect SourceNode GainNode; connect GainNode PannerNode;
                connect PannerNode Destination; start])
              (console dev)).
Proof.
  intros Hok Hinit Hbuf. unfold playSound, has. rewrite Hinit, Hbuf. simpl.
  unfold try_catch. rewrite !perform_then, !Hok. unfold perform. rewrite Hok.
  simpl. by rewrite <- !app_assoc.
Qed.

Lemma clamp_range (p : Q) :
  (-1 <= Qmax (-1) (Qmin 1 p) <= 1)%Q.
Proof.
  split; [apply Q.le_max_l|].
  apply Q.max_lub; [done|apply Q.le_min_l].
Qed.

(** X15.  With a context that refuses nothing, [playSound] of a cached
    sound on an initialized system issues the nine operations of one
    playback, ending with [start], on the cached buffer, and writes
    nothing.  The pan it sets always lies between -1 and 1: it is the
    requested value when that lies in the range, and the nearer end of the
    range otherwise. *)
Theorem playSound_pan_is_clamped broken sys soundName panValue buffer dev :
  (forall c, broken c = false) ->
  isInitialized sys = true ->
  sounds sys !! soundName = Some buffer ->
  exists pan,
    playSound broken sys soundName panValue dev =
      (Returned tt,
       mkDevice (issued dev ++
                 [createBufferSource; createGain; createStereoPanner;
                  setBuffer buffer; setPan pan;
                  connect SourceNode GainNode; connect GainNode PannerNode;
                  connect PannerNode Destination; start])
                (console dev)) /\
    (-1 <= pan <= 1)%Q /\
    ((-1 <= panValue <= 1)%Q -> (pan == panValue)%Q) /\
    ((panValue < -1)%Q -> (pan == -1)%Q) /\
    ((1 < panValue)%Q -> (pan == 1)%Q).
Proof.
  intros Hok Hinit Hbuf. exists (Qmax (-1) (Qmin 1 panValue)).
  split; [by apply playSound_working|]. split; [apply clamp_range|].
  split; [|split].
  - intros [Hlo Hhi]. rewrite (Q.min_r 1 panValue Hhi). by apply Q.max_r.
  - intros Hlt. apply Q.max_l.
    eapply Qle_trans; [apply Q.le_min_r|by apply Qlt_le_weak].
  - intros Hgt. rewrite (Q.min_l 1 panValue) by (by apply Qlt_le_weak).
    by apply Q.max_r.
Qed.

Lemma playSound_pan_is_clamped_witness :
  (forall c, working c = false) /\
  isInitialized initialized_system = true /\
  exists pan,
    playSound working initialized_system "open-space" (3 # 2) silent =
      (Returned tt,
       mkDevice [createBufferSource; createGain; createStereoPanner;
                 setBuffer []; setPan pan;
                 connect SourceNode GainNode; connect GainNode PannerNode;
                 connect PannerNode Destination; start] []) /\
    (pan == 1)%Q.
Proof.
  split; [done|]. split; [done|].
  destruct (playSound_pan_is_clamped working initialized_system "open-space"
              (3 # 2) [] silent) as (pan & Hplay & _ & _ & _ & Hhi);
    [done|done|by vm_compute|].
  exists pan. split; [exact Hplay|]. by apply Hhi.
Defined.


Lemma has_insert (m : gmap string AudioBuffer) k buffer name :
  has (<[k := buffer]> m) name = true <-> k = name \/ has m name = true.
Proof.
  unfold has. destruct (decide (k = name)) as [->|Hne].
  - rewrite lookup_insert_eq. tauto.
  - rewrite lookup_insert_ne by done. destruct (m !! name); naive_solver.
Qed.

Lemma set_sounds_keeps synth names : forall sounds,
  forall name, has sounds name = true -> has (set_sounds synth names sounds).2 name = true.
Proof.
  induction names as [|k names IH]; intros sounds name Hname; [done|].
  simpl. destruct (synth k) as [buffer|error]; [|done].
  apply IH, has_insert. by right.
Qed.

Lemma set_sounds_returned synth names : forall sounds sounds',
  set_sounds synth names sounds = (Returned tt, sounds') ->
  forall name, name ∈ names -> has sounds' name = true.
Proof.
  induction names as [|k names IH]; intros sounds sounds' Hset name Hname.
  { by apply elem_of_nil in Hname. }
  simpl in Hset. destruct (synth k) as [buffer|error] eqn:Hk; [|done].
  apply elem_of_cons in Hname as [->|Hname]; [|by eapply IH].
  pose proof (set_sounds_keeps synth names (<[k:=buffer]> sounds) k) as Hkeep.
  rewrite Hset in Hkeep. apply Hkeep, has_insert. by left.
Qed.

Lemma set_sounds_healthy synth names : forall sounds,
  (forall name, name ∈ names -> exists buffer, synth name = Returned buffer) ->
  (set_sounds synth names sounds).1 = Returned tt.
Proof.
  induction names as [|k names IH]; intros sounds Hall; [done|].
  simpl. destruct (Hall k) as [buffer ->]; [apply elem_of_cons; by left|].
  apply IH. intros name Hname. apply Hall, elem_of_cons. by right.
Qed.

Lemma set_sounds_throws synth names : forall sounds,
  (exists name error, name ∈ names /\ synth name = Threw error) ->
  exists error, (set_sounds synth names sounds).1 = Threw error.
Proof.
  induction names as [|k names IH]; intros sounds (name & error & Hname & Hthrow).
  { by apply elem_of_nil in Hname. }
  simpl. destruct (synth k) as [buffer|error'] eqn:Hk; [|by eexists].
  apply IH. exists name, error. split; [|done].
  apply elem_of_cons in Hname as [->|Hname]; [congruence|done].
Qed.

(** X16.  [initialize] never throws and asks nothing of the audio device.
    It keeps the rule that a system marked initialized holds all eight
    sounds, and never drops a sound already stored.  On an initialized
    system it does nothing; in a healthy context it marks the system
    initialized and writes nothing; and whenever it leaves the system
    uninitialized it has written exactly one warning. *)
Theorem initialize_keeps_system_ready ctx sys dev :
  ready sys ->
  exists sys' warnings,
    initialize ctx sys dev =
      (Returned sys', mkDevice (issued dev) (console dev ++ warnings)) /\
    ready sys' /\
    (forall name, has (sounds sys) name = true -> has (sounds sys') name = true) /\
    (isInitialized sys = true -> sys' = sys /\ warnings = []) /\
    (healthy ctx -> isInitialized sys' = true /\ warnings = []) /\
    (isInitialized sys' = false -> warnings = ["Audio initialization failed:"]).
Proof.
  intros Hready. destruct dev as [iss con]. unfold initialize. simpl.
  destruct (isInitialized sys) eqn:Hinit.
  { exists sys, []. rewrite app_nil_r.
    split; [done|]. split; [done|]. split; [done|]. split; [done|].
    split; [done|]. congruence. }
  destruct (suspended ctx && resume_fails ctx) eqn:Hresume.
  { exists sys, ["Audio initialization failed:"].
    split; [done|]. split; [done|]. split; [done|]. split; [done|].
    split; [|done]. intros [Hh _]. congruence. }
  unfold generateSounds.
  pose proof (set_sounds_keeps (synthesize ctx) cached_names (sounds sys)) as Hkeep.
  pose proof (set_sounds_returned (synthesize ctx) cached_names (sounds sys)) as Hall.
  pose proof (set_sounds_healthy (synthesize ctx) cached_names (sounds sys)) as Hgood.
  destruct (set_sounds (synthesize ctx) cached_names (sounds sys))
    as [[[]|error] sounds'] eqn:Hset; simpl in *.
  - exists (mkSystem true sounds'), []. rewrite app_nil_r.
    split; [done|]. split; [intros _; by apply Hall|]. split; [done|].
    split; [done|]. split; done.
  - exists (mkSystem false sounds'), ["Audio initialization failed:"].
    split; [done|]. split; [done|]. split; [done|]. split; [done|].
    split; [|done]. intros [_ Hh]. by specialize (Hgood Hh).
Qed.

Lemma new_system_ready : ready new_system.
Proof. intros Hinit. discriminate. Qed.

Lemma initialize_keeps_system_ready_witness :
  ready new_system /\
  exists sys' warnings,
    initialize quiet_context new_system silent =
      (Returned sys', mkDevice [] warnings) /\
    ready sys'.
Proof.
  split; [apply new_system_ready|].
  destruct (initialize_keeps_system_ready quiet_context new_system silent
              new_system_ready) as (sys' & warnings & Hinit & Hready & _).
  exists sys', warnings. split; [exact Hinit|exact Hready].
Defined.

(** X17.  If the audio context refuses [resume] or one of the sound
    generators throws, [initialize] leaves the system uninitialized, and
    from then on every [playSound], whatever the sound and the pan, does
    nothing at all: the game stays silent instead of failing. *)
Theorem failed_initialize_silences_playSound ctx sys dev :
  isInitialized sys = false ->
  suspended ctx && resume_fails ctx = true \/
  (exists name error, name ∈ cached_names /\ synthesize ctx name = Threw error) ->
  exists sys',
    initialize ctx sys dev =
      (Returned sys',
       mkDevice (issued dev) (console dev ++ ["Audio initialization failed:"])) /\
    isInitialized sys' = false /\
    forall broken soundName panValue dev',
      playSound broken sys' soundName panValue dev' = (Returned tt, dev').
Proof.
  intros Hinit Hfail. unfold initialize. rewrite Hinit. simpl.
  assert (forall sys', isInitialized sys' = false ->
            forall broken soundName panValue dev',
              playSound broken sys' soundName panValue dev' = (Returned tt, dev'))
    as Hsilent by (intros sys' H ????; unfold playSound; by rewrite H).
  destruct (suspended ctx && resume_fails ctx) eqn:Hresume.
  { exists sys. split; [done|]. split; [done|]. by apply Hsilent. }
  destruct Hfail as [?|Hthrow]; [done|].
  destruct (set_sounds_throws (synthesize ctx) cached_names (sounds sys) Hthrow)
    as [error Herror].
  unfold generateSounds.
  destruct (set_sounds (synthesize ctx) cached_names (sounds sys))
    as [[[]|error'] sounds'] eqn:Hset; simpl in *; [done|].
  exists (mkSystem false sounds'). split; [done|]. split; [done|]. by apply Hsilent.
Qed.

Lemma failed_initialize_silences_playSound_witness :
  isInitialized new_system = false /\
  exists sys',
    initialize failing_context new_system silent =
      (Returned sys', mkDevice [] ["Audio initialization failed:"]) /\
    isInitialized sys' = false /\
    playSound working sys' "footstep-normal" 0 silent = (Returned tt, silent).
Proof.
  split; [reflexivity|].
  destruct (failed_initialize_silences_playSound failing_context new_system silent)
    as (sys' & Hinit & Hflag & Hsilent).
  - reflexivity.
  - right. exists "celebration", "createBuffer failed".
    split; [|reflexivity]. unfold cached_names. in_list.
  - exists sys'. split; [exact Hinit|]. split; [exact Hflag|]. apply Hsilent.
Defined.

(** X18.  On an initialized system that holds all eight sounds, with a
    context that refuses nothing, each of the named sounds is heard:
    [playDirectionalFootstep] for either flag, [playGoalGlow] for every
    distance and [playCelebration] each issue one full playback that ends
    with [start] and write no warning, so none of them asks for a sound
    that [generateSounds] did not store. *)
Theorem named_sounds_are_cached broken sys dev :
  (forall c, broken c = false) ->
  ready sys -> isInitialized sys = true ->
  (forall isCorrectDirection panValue,
     heard (playDirectionalFootstep broken sys isCorrectDirection panValue) dev) /\
  (forall distance, heard (playGoalGlow broken sys distance) dev) /\
  heard (playCelebration broken sys) dev.
Proof.
  intros Hok Hready Hinit.
  assert (forall name panValue, name ∈ cached_names ->
            heard (playSound broken sys name panValue) dev) as Hplay.
  { intros name panValue Hname. specialize (Hready Hinit name Hname).
    unfold has in Hready. destruct (sounds sys !! name) as [buffer|] eqn:Hbuf; [|done].
    eexists. split; [by apply playSound_working|]. done. }
  split; [|split].
  - intros [] panValue; apply Hplay; unfold cached_names; in_list.
  - intros distance. unfold playGoalGlow.
    destruct (distance <=? 2); [|destruct (distance <=? 4)];
      apply Hplay; unfold cached_names; in_list.
  - apply Hplay. unfold cached_names. in_list.
Qed.

Lemma initialized_system_ready : ready initialized_system.
Proof.
  intros _ name Hname. unfold cached_names in Hname.
  repeat (apply elem_of_cons in Hname as [->|Hname]; [by vm_compute|]).
  by apply elem_of_nil in Hname.
Qed.

Lemma named_sounds_are_cached_witness :
  (forall c, working c = false) /\
  ready initialized_system /\ isInitialized initialized_system = true /\
  heard (playGoalGlow working initialized_system 3) silent.
Proof.
  split; [done|]. split; [apply initialized_system_ready|]. split; [done|].
  destruct (named_sounds_are_cached working initialized_system silent)
    as (_ & Hglow & _); [done|apply initialized_system_ready|done|].
  apply (Hglow 3).
Defined.

End Audio.

(** * The game screen and the visual monitor *)

Lemma play_snoc s moves d :
  play s (moves ++ [d]) = (GameLogic.movePlayer (play s moves) d).2.
Proof. unfold play. by rewrite foldl_snoc. Qed.

Lemma movePlayer_success_moves s d :
  success (GameLogic.movePlayer s d).1 = true ->
  moveCount (GameLogic.movePlayer s d).2 = moveCount s + 1.
Proof.
  unfold GameLogic.movePlayer, movePlayerWith. by destruct (hitsWall s d).
Qed.

(** The engine state and the history after a run of [handleMove] calls. *)
Lemma handleMoves_spec logic keys :
  playable logic ->
  let logic' := (EchoQuestGame.handleMoves logic [] keys).1 in
  let history := (EchoQuestGame.handleMoves logic [] keys).2 in
  logic' = play logic keys.*1 /\
  Z.of_nat (length history) = moveCount logic' - moveCount logic /\
  Forall (fun pos => maze_get (maze logic) (EchoQuestGame.visit_x pos)
                              (EchoQuestGame.visit_y pos) = Some CELL_EMPTY) history /\
  (forall pos, last history = Some pos ->
     playerPosition logic' =
       mkPosition (EchoQuestGame.visit_x pos) (EchoQuestGame.visit_y pos)).
Proof.
  intros Hplay. simpl.
  induction keys as [|[d now] keys IH] using rev_ind.
  { simpl. split; [done|]. split; [lia|]. split; [constructor|done]. }
  destruct IH as (Hlogic & Hlen & Hcells & Hlast).
  unfold EchoQuestGame.handleMoves in *. rewrite foldl_snoc, fmap_snoc, play_snoc.
  destruct (foldl _ _ keys) as [s history]. simpl in *. subst s.
  unfold EchoQuestGame.handleMove.
  pose proof (play_playable keys.*1 logic Hplay) as Hp.
  pose proof (movePlayer_playable (play logic keys.*1) d Hp) as (_ & _ & Hempty).
  pose proof (movePlayer_success_moves (play logic keys.*1) d) as Hcount.
  pose proof (movePlayer_stays_or_succeeds (play logic keys.*1) d) as Hstay.
  assert (maze (GameLogic.movePlayer (play logic keys.*1) d).2 = maze logic) as Hmaze.
  { rewrite <- play_snoc. apply play_keeps_maze. }
  destruct (GameLogic.movePlayer (play logic keys.*1) d) as [result s'].
  simpl in *. destruct (success result).
  - split; [done|]. rewrite length_app, Hcount by done. simpl.
    split; [lia|]. split.
    + apply Forall_app. split; [done|]. constructor; [|constructor]. simpl.
      by rewrite <- Hmaze.
    + intros pos. rewrite last_snoc. intros [= <-]. simpl. by destruct (playerPosition s').
  - rewrite Hstay by done. done.
Qed.

(** X19.  The move history kept by [handleMove] follows the engine: after
    any run of moves on a game with the player on an EMPTY cell, started
    with an empty history, the engine is in the state the moves lead to,
    the history has one entry for each counted move, every entry is an
    EMPTY cell of the grid, and the last entry is the cell the player
    stands on.  Blocked moves add nothing. *)
Theorem moveHistory_follows_engine logic keys :
  playable logic ->
  let logic' := (EchoQuestGame.handleMoves logic [] keys).1 in
  let history := (EchoQuestGame.handleMoves logic [] keys).2 in
  logic' = play logic keys.*1 /\
  Z.of_nat (length history) = moveCount logic' - moveCount logic /\
  Forall (fun pos => maze_get (maze logic) (EchoQuestGame.visit_x pos)
                              (EchoQuestGame.visit_y pos) = Some CELL_EMPTY) history /\
  (forall pos, last history = Some pos ->
     playerPosition logic' =
       mkPosition (EchoQuestGame.visit_x pos) (EchoQuestGame.visit_y pos)).
Proof. apply handleMoves_spec. Qed.

Lemma moveHistory_follows_engine_witness :
  playable example_state /\
  Z.of_nat (length (EchoQuestGame.handleMoves example_state []
                      [(south, 1000); (west, 1250); (south, 1500)]).2)
  = moveCount (EchoQuestGame.handleMoves example_state []
                 [(south, 1000); (west, 1250); (south, 1500)]).1
    - moveCount example_state.
Proof.
  split; [apply example_state_playable|].
  apply (moveHistory_follows_engine example_state
           [(south, 1000); (west, 1250); (south, 1500)] example_state_playable).
Defined.

Lemma totalCells_sum m :
  VisualMonitor.totalCells m =
  sum_list_with (sum_list_with (fun cell => if decide (cell = 0) then 1%nat else 0%nat)) m.
Proof.
  unfold VisualMonitor.totalCells.
  assert (forall row : list Z,
            length (filter (fun cell => cell = 0) row) =
            sum_list_with (fun cell => if decide (cell = 0) then 1%nat else 0%nat) row)
    as Hrow.
  { induction row as [|c row IH]; [done|]. rewrite filter_cons. simpl.
    destruct (decide (c = 0)); simpl; lia. }
  assert (forall acc, foldl (fun (total : nat) (row : list Z) =>
                               (total + length (filter (fun cell : Z => cell = 0%Z) row))%nat) acc m
                      = (acc + sum_list_with (sum_list_with
                           (fun cell : Z => if decide (cell = 0%Z) then 1 else 0)) m)%nat)
    as Hfold.
  { induction m as [|row m IH]; intros acc; simpl; [lia|]. rewrite IH, Hrow. lia. }
  by rewrite Hfold.
Qed.

Lemma totalCells_wall_up m x y :
  maze_get m x y = Some CELL_EMPTY ->
  (VisualMonitor.totalCells (maze_set m x y CELL_WALL) + 1 = VisualMonitor.totalCells m)%nat.
Proof.
  rewrite !totalCells_sum. unfold maze_set, maze_get, grid_set, grid_get.
  destruct ((0 <=? y) && (0 <=? x)); [|done].
  destruct (m !! Z.to_nat y) as [row|] eqn:Hrow; [|done]. intros Hcell.
  match goal with |- context [sum_list_with ?f (<[_:=_]> m)] =>
    pose proof (sum_list_with_insert f m _ _ (<[Z.to_nat x:=CELL_WALL]> row) Hrow) as Hm
  end.
  match type of Hm with context [sum_list_with ?f row] =>
    pose proof (sum_list_with_insert f row _ _ CELL_WALL Hcell) as Hr
  end.
  simpl in Hr. simpl in Hm. lia.
Qed.

Lemma distinct_cells_bound (cells : list (Z * Z)) : forall m w h,
  rectangular m w h -> NoDup cells ->
  Forall (fun c => maze_get m c.1 c.2 = Some CELL_EMPTY) cells ->
  (length cells <= VisualMonitor.totalCells m)%nat.
Proof.
  induction cells as [|[x y] cells IH]; intros m w h Hrect Hnodup Hall; [simpl; lia|].
  apply NoDup_cons in Hnodup as [Hnotin Hnodup].
  apply Forall_cons in Hall as [Hcell Hall]. simpl in Hcell.
  destruct (grid_get_Some m w h x y _ Hrect Hcell) as [Hx Hy].
  rewrite <- (totalCells_wall_up m x y Hcell). simpl.
  cut (length cells <= VisualMonitor.totalCells (maze_set m x y CELL_WALL))%nat; [lia|].
  apply (IH _ w h); [by apply maze_set_rectangular|done|].
  rewrite Forall_forall in Hall |- *. intros [a b] Hin. simpl.
  rewrite (maze_get_set m w h) by done.
  destruct (decide ((x, y) = (a, b))) as [Heq|_]; [congruence|by apply (Hall (a, b))].
Qed.

Lemma size_list_to_set_le (l : list string) :
  (size (list_to_set l : gset string) <= length l)%nat.
Proof.
  induction l as [|k l IH]; [by rewrite list_to_set_nil, size_empty|].
  rewrite list_to_set_cons, size_union_alt, size_singleton. simpl.
  cut (size (list_to_set l ∖ {[k]} : gset string) <= size (list_to_set l : gset string))%nat;
    [lia|].
  apply subseteq_size. apply subseteq_difference_l. done.
Qed.

Lemma uniquePositionsVisited_bound m w h history :
  rectangular m w h ->
  Forall (fun pos => maze_get m (EchoQuestGame.visit_x pos)
                              (EchoQuestGame.visit_y pos) = Some CELL_EMPTY) history ->
  (VisualMonitor.uniquePositionsVisited history <= VisualMonitor.totalCells m)%nat.
Proof.
  intros Hrect Hall. unfold VisualMonitor.uniquePositionsVisited.
  set (cell := fun pos => (EchoQuestGame.visit_x pos, EchoQuestGame.visit_y pos)).
  set (key := fun c : Z * Z =>
                VisualMonitor.number_to_string c.1 +:+ "," +:+
                VisualMonitor.number_to_string c.2).
  set (cells := remove_dups (cell <$> history)).
  transitivity (length cells).
  - transitivity (size (list_to_set (key <$> cells) : gset string)).
    + apply subseteq_size. intros k Hk.
      apply elem_of_list_to_set, list_elem_of_fmap in Hk as (pos & -> & Hpos).
      apply elem_of_list_to_set, list_elem_of_fmap. exists (cell pos).
      split; [done|]. apply elem_of_remove_dups, list_elem_of_fmap. by exists pos.
    + etransitivity; [apply size_list_to_set_le|]. by rewrite length_fmap.
  - apply (distinct_cells_bound cells m w h Hrect); [apply NoDup_remove_dups|].
    apply Forall_forall. intros c Hc.
    apply elem_of_remove_dups, list_elem_of_fmap in Hc as (pos & -> & Hpos).
    rewrite Forall_forall in Hall. by apply Hall.
Qed.

(** X20.  What the visual monitor shows during a game: after any run of
    moves on a game with the player on an EMPTY cell, the number of
    distinct positions visited is at most the number of EMPTY cells of the
    grid and at most the number of moves counted, and the number of EMPTY
    cells, by which the exploration percentage is divided, is not zero. *)
Theorem explored_cells_within_grid logic keys :
  playable logic ->
  let logic' := (EchoQuestGame.handleMoves logic [] keys).1 in
  let history := (EchoQuestGame.handleMoves logic [] keys).2 in
  (VisualMonitor.uniquePositionsVisited history
   <= VisualMonitor.totalCells (maze logic'))%nat /\
  Z.of_nat (VisualMonitor.uniquePositionsVisited history)
   <= moveCount logic' - moveCount logic /\
  (0 < VisualMonitor.totalCells (maze logic'))%nat.
Proof.
  intros Hplay logic' history.
  destruct (handleMoves_spec logic keys Hplay) as (Hlogic & Hlen & Hcells & _).
  fold logic' in Hlogic, Hlen. fold history in Hlen, Hcells.
  assert (maze logic' = maze logic) as Hmaze by (rewrite Hlogic; apply play_keeps_maze).
  destruct Hplay as ([Hrect _] & _ & Hempty). rewrite Hmaze.
  split; [by eapply uniquePositionsVisited_bound|]. split.
  - rewrite <- Hlen. apply inj_le. unfold VisualMonitor.uniquePositionsVisited.
    etransitivity; [apply size_list_to_set_le|]. by rewrite length_fmap.
  - pose proof (distinct_cells_bound
                  [(pos_x (playerPosition logic), pos_y (playerPosition logic))]
                  (maze logic) _ _ Hrect) as Hone.
    simpl in Hone. apply Hone; [apply NoDup_singleton|]. by constructor.
Qed.

Lemma explored_cells_within_grid_witness :
  playable example_state /\
  (VisualMonitor.uniquePositionsVisited
     (EchoQuestGame.handleMoves example_state []
        [(south, 1000%Z); (north, 1250%Z); (south, 1500%Z)]).2
   <= VisualMonitor.totalCells
        (maze (EchoQuestGame.handleMoves example_state []
                 [(south, 1000%Z); (north, 1250%Z); (south, 1500%Z)]).1))%nat.
Proof.
  split; [apply example_state_playable|].
  apply (explored_cells_within_grid example_state
           [(south, 1000%Z); (north, 1250%Z); (south, 1500%Z)] example_state_playable).
Defined.

(** * Steps and their distances *)

(** X21.  In the class with the corridor carve the feedback of an
    advancing move is consistent: the distance reported is the one
    [getDistanceToGoal] gives on the new state, it differs from the
    distance before the move by exactly one, and [isCorrectDirection] is
    true exactly when it went down. *)
Theorem corridor_move_feedback_consistent s d :
  hitsWall s d = false ->
  let r := CorridorLogic.movePlayer s d in
  distanceToGoal r.1 = CorridorLogic.getDistanceToGoal r.2 /\
  (isCorrectDirection r.1 = true <->
   CorridorLogic.getDistanceToGoal r.2 = CorridorLogic.getDistanceToGoal s - 1) /\
  (isCorrectDirection r.1 = false <->
   CorridorLogic.getDistanceToGoal r.2 = CorridorLogic.getDistanceToGoal s + 1).
Proof.
  intros Hhit.
  destruct (movePlayerWith_open CorridorLogic.getDistanceToGoal s d Hhit)
    as (_ & _ & Hdist & Hflag & Hpos & _ & _ & Hgoal).
  fold (CorridorLogic.movePlayer s d) in Hdist, Hflag, Hpos, Hgoal. simpl.
  pose proof (getNewPosition_adjacent s d) as Hadj.
  unfold CorridorLogic.getDistanceToGoal in *.
  rewrite Hflag, Hdist, !Hpos, !Hgoal. split; [done|].
  unfold getDistance, adjacent in *.
  rewrite Z.ltb_lt, Z.ltb_ge. lia.
Qed.

Lemma corridor_move_feedback_consistent_witness :
  hitsWall example_state south = false /\
  distanceToGoal (CorridorLogic.movePlayer example_state south).1 =
    CorridorLogic.getDistanceToGoal (CorridorLogic.movePlayer example_state south).2.
Proof.
  split; [reflexivity|].
  pose proof (corridor_move_feedback_consistent example_state south eq_refl) as H.
  cbv zeta in H. destruct H as [H _]. exact H.
Defined.

Lemma getNewPosition_opposite s d :
  getNewPosition
    (mkGameState (getNewPosition s d) (goalPosition s) (maze s) (gameWon s) (moveCount s))
    (opposite d) = playerPosition s.
Proof.
  destruct s as [[x y] goal m won count]. destruct d; simpl; f_equal; lia.
Qed.

(** X22.  A step into an EMPTY cell can always be taken back: from a
    state with the player on an EMPTY cell, a move that [canMove] allows
    followed by the move in the opposite direction brings the player back
    to the same cell, both moves succeed and [moveCount] has grown by
    two. *)
Theorem step_back_returns s d :
  playable s ->
  canMove s d = true ->
  let r1 := GameLogic.movePlayer s d in
  let r2 := GameLogic.movePlayer r1.2 (opposite d) in
  success r1.1 = true /\ success r2.1 = true /\
  playerPosition r2.2 = playerPosition s /\
  maze r2.2 = maze s /\
  moveCount r2.2 = moveCount s + 2.
Proof.
  intros (Hwf & Hbin & Hemp) Hcan. simpl.
  pose proof (hitsWall_canMove s d (proj1 Hwf) Hbin) as Hhit.
  rewrite Hcan in Hhit. symmetry in Hhit. apply negb_true_iff in Hhit.
  pose proof (movePlayerWith_well_formed GameLogic.getDistanceToGoal s d Hwf) as Hwf1.
  destruct (movePlayerWith_open GameLogic.getDistanceToGoal s d Hhit)
    as (Hs1 & _ & _ & _ & Hpos1 & Hcount1 & Hmaze1 & Hgoal1).
  fold (GameLogic.movePlayer s d) in Hs1, Hpos1, Hcount1, Hmaze1, Hgoal1, Hwf1.
  set (s1 := (GameLogic.movePlayer s d).2) in *.
  assert (getNewPosition s1 (opposite d) = playerPosition s) as Hback.
  { rewrite <- (getNewPosition_opposite s d). unfold getNewPosition. by rewrite Hpos1. }
  assert (canMove s1 (opposite d) = true) as Hcan1.
  { apply canMove_spec. rewrite Hback, Hmaze1. split; [|done].
    destruct Hwf as [_ Hvalid]. unfold isValidPosition in *. by rewrite Hmaze1. }
  pose proof (hitsWall_canMove s1 (opposite d)) as Hhit1.
  rewrite Hmaze1, Hcan1 in Hhit1. specialize (Hhit1 (proj1 Hwf) Hbin).
  symmetry in Hhit1. apply negb_true_iff in Hhit1.
  destruct (movePlayerWith_open GameLogic.getDistanceToGoal s1 (opposite d) Hhit1)
    as (Hs2 & _ & _ & _ & Hpos2 & Hcount2 & Hmaze2 & _).
  fold (GameLogic.movePlayer s1 (opposite d)) in Hs2, Hpos2, Hcount2, Hmaze2.
  split; [done|]. split; [done|]. split; [congruence|]. split; [congruence|]. lia.
Qed.

Lemma step_back_returns_witness :
  playable example_state /\
  canMove example_state south = true /\
  playerPosition
    (GameLogic.movePlayer (GameLogic.movePlayer example_state south).2 (opposite south)).2
  = playerPosition example_state.
Proof.
  split; [apply example_state_playable|]. split; [reflexivity|].
  pose proof (step_back_returns example_state south example_state_playable eq_refl) as H.
  cbv zeta in H. destruct H as (_ & _ & H & _). exact H.
Defined.

(** * The number of cells of a depth-first maze *)

Lemma carve_inv_init width height :
  3 <= width -> 3 <= height ->
  carve_inv (maze_set (wall_grid width height) 1 1 CELL_EMPTY) [(1, 1)].
Proof.
  intros Hw Hh.
  assert (rectangular (wall_grid width height) width height) as Hrect
    by (apply wall_grid_rectangular; lia).
  assert (forall a b,
            maze_get (maze_set (wall_grid width height) 1 1 CELL_EMPTY) a b
              = Some CELL_EMPTY <-> (a, b) = (1, 1)) as Hget.
  { intros a b. rewrite (maze_get_set _ width height) by (done || lia).
    case_decide as Heq; [by split|]. split; [|congruence].
    intros Hv. destruct (grid_get_Some _ _ _ _ _ _ Hrect Hv).
    rewrite maze_get_wall_grid in Hv by done. discriminate. }
  split; [apply NoDup_singleton|]. split; [|split; [done|]].
  - intros x y. rewrite Hget, list_elem_of_singleton. done.
  - intros x y Hxy. apply Hget in Hxy. injection Hxy as -> ->. split; intros; done.
Qed.

Lemma carve_inv_step width height m x y below dir carved :
  dfs_inv width height m ((x, y) :: below) ->
  carve_inv m carved ->
  dir ∈ dfs_directions ->
  carvable m width height x y dir = true ->
  carve_inv
    (maze_set (maze_set m (x + dir.1) (y + dir.2) CELL_EMPTY)
              (x + dir.1 `quot` 2) (y + dir.2 `quot` 2) CELL_EMPTY)
    ((x + dir.1 `quot` 2, y + dir.2 `quot` 2) :: (x + dir.1, y + dir.2) :: carved).
Proof.
  intros Hinv (Hnodup & Hmem & Hcount & Hlink) Hdir Hcarve.
  destruct (dfs_directions_half dir Hdir) as (Hq1 & Hq2 & Hq).
  destruct dir as [dx dy]. simpl in *.
  remember (dx `quot` 2) as qx eqn:Hqx. remember (dy `quot` 2) as qy eqn:Hqy.
  clear Hqx Hqy Hdir.
  unfold carvable in Hcarve. simpl in Hcarve. rewrite !andb_true_iff in Hcarve.
  destruct Hcarve as [[[[Hx0 Hx1] Hy0] Hy1] Hcell].
  apply Z.ltb_lt in Hx0, Hx1, Hy0, Hy1.
  assert (maze_get m (x + dx) (y + dy) = Some CELL_WALL) as Hwall.
  { unfold cell_is in Hcell. destruct (maze_get m (x + dx) (y + dy)) as [c|]; [|done].
    apply Z.eqb_eq in Hcell. by subst. }
  destruct (dfs_stack _ _ _ _ Hinv x y) as (Hxo & Hyo & Hxy); [left|].
  destruct (dfs_border _ _ _ _ Hinv x y Hxy) as [Hxi Hyi].
  pose proof (dfs_rect _ _ _ _ Hinv) as Hrect.
  set (m1 := maze_set m (x + dx) (y + dy) CELL_EMPTY).
  set (m2 := maze_set m1 (x + qx) (y + qy) CELL_EMPTY).
  assert (rectangular m1 width height) as Hrect1 by by apply maze_set_rectangular.
  assert (forall a b, maze_get m2 a b =
            if decide ((x + qx, y + qy) = (a, b)) then Some CELL_EMPTY
            else if decide ((x + dx, y + dy) = (a, b)) then Some CELL_EMPTY
            else maze_get m a b) as Hget.
  { intros a b. unfold m2, m1.
    rewrite (maze_get_set _ width height) by (done || lia).
    by rewrite (maze_get_set _ width height) by (done || lia). }
  assert (forall a b, maze_get m a b = Some CELL_EMPTY ->
            maze_get m2 a b = Some CELL_EMPTY) as Hmono.
  { intros a b Hab. rewrite Hget. by repeat case_decide. }
  assert (maze_get m2 (x + dx) (y + dy) = Some CELL_EMPTY) as Hnew.
  { rewrite Hget. by repeat case_decide. }
  assert (Some CELL_WALL <> Some CELL_EMPTY) as Hne by discriminate.
  assert ((qx = 1 /\ qy = 0) \/ (qx = -1 /\ qy = 0) \/
          (qx = 0 /\ qy = 1) \/ (qx = 0 /\ qy = -1)) as Hcases by lia.
  assert (maze_get m (x + qx) (y + qy) <> Some CELL_EMPTY) as Hlink_wall.
  { intros Hl. destruct (Hlink _ _ Hl) as [Hlx Hly].
    destruct Hcases as [[-> ->]|[[-> ->]|[[-> ->]|[-> ->]]]].
    - destruct Hlx as [_ H]; [Z.to_euclidean_division_equations; lia|].
      replace (x + 1 + 1) with (x + dx) in H by lia.
      replace (y + 0) with (y + dy) in H by lia. congruence.
    - destruct Hlx as [H _]; [Z.to_euclidean_division_equations; lia|].
      replace (x + -1 - 1) with (x + dx) in H by lia.
      replace (y + 0) with (y + dy) in H by lia. congruence.
    - destruct Hly as [_ H]; [Z.to_euclidean_division_equations; lia|].
      replace (y + 1 + 1) with (y + dy) in H by lia.
      replace (x + 0) with (x + dx) in H by lia. congruence.
    - destruct Hly as [H _]; [Z.to_euclidean_division_equations; lia|].
      replace (y + -1 - 1) with (y + dy) in H by lia.
      replace (x + 0) with (x + dx) in H by lia. congruence. }
  split; [|split; [|split]].
  - apply NoDup_cons. split.
    + rewrite elem_of_cons. intros [Heq|Hin]; [injection Heq; lia|].
      by apply Hmem in Hin.
    + apply NoDup_cons. split; [|done]. intros Hin. apply Hmem in Hin. congruence.
  - intros a b. rewrite Hget, !elem_of_cons, Hmem.
    repeat case_decide; split; intros Hab; auto; destruct Hab as [Hab|[Hab|Hab]];
      congruence.
  - rewrite filter_cons_False, filter_cons_True; simpl.
    + lia.
    + unfold lattice. simpl. Z.to_euclidean_division_equations. lia.
    + unfold lattice. simpl. Z.to_euclidean_division_equations. lia.
  - intros a b. rewrite Hget. repeat case_decide.
    + intros _.
      match goal with H : (x + qx, y + qy) = (a, b) |- _ => injection H as <- <- end.
      destruct Hcases as [[-> ->]|[[-> ->]|[[-> ->]|[-> ->]]]].
      all: split; intros Hpar; try (Z.to_euclidean_division_equations; lia).
      all: split;
        match goal with
        | |- maze_get _ ?a ?b = _ =>
          first [replace a with x by lia; replace b with y by lia; by apply Hmono
                |replace a with (x + dx) by lia; replace b with (y + dy) by lia;
                 exact Hnew]
        end.
    + intros _. simplify_eq.
      split; intros ?; Z.to_euclidean_division_equations; lia.
    + intros Hab. destruct (Hlink _ _ Hab) as [Hlx Hly].
      split; intros Hpar; [destruct (Hlx Hpar)|destruct (Hly Hpar)];
        split; by apply Hmono.
Qed.

Lemma dfs_loop_carve_inv width height rnd fuel : forall k m stack dirs carved m',
  dfs_inv width height m stack ->
  (forall d, d ∈ dirs <-> d ∈ dfs_directions) ->
  carve_inv m carved ->
  dfs_loop fuel rnd k m width height stack dirs = Some m' ->
  exists carved', carve_inv m' carved'.
Proof.
  induction fuel as [|fuel IH]; intros k m stack dirs carved m' Hinv Hdirs Hc Hloop;
    [done|].
  destruct stack as [|[x y] below]; simpl in Hloop.
  { injection Hloop as <-. by exists carved. }
  set (sh := shuffle_from rnd k (length dirs - 1) dirs) in *.
  assert (forall d, d ∈ sh.1 <-> d ∈ dfs_directions) as Hsh.
  { intros d. unfold sh. by rewrite shuffle_from_elem_of. }
  destruct (find (carvable m width height x y) sh.1) as [[dx dy]|] eqn:Hfind.
  - apply find_some in Hfind as [Hin Hcarve].
    apply list_elem_of_In, Hsh in Hin.
    pose proof (dfs_carve_inv _ _ _ _ _ _ (dx, dy) Hinv Hin Hcarve) as Hinv'.
    pose proof (carve_inv_step _ _ _ _ _ _ (dx, dy) carved Hinv Hc Hin Hcarve) as Hc'.
    simpl in Hinv', Hc'. by eapply IH.
  - eapply IH; [|done|done|done].
    eapply dfs_pop_inv; [done|].
    intros dir Hdir. eapply find_none; [done|].
    by apply list_elem_of_In, Hsh.
Qed.

Lemma totalCells_none m :
  (forall x y, maze_get m x y <> Some CELL_EMPTY) -> VisualMonitor.totalCells m = 0%nat.
Proof.
  intros Hnone. rewrite totalCells_sum.
  assert (forall j row, m !! j = Some row ->
            sum_list_with (fun cell => if decide (cell = 0) then 1%nat else 0%nat) row
            = 0%nat) as Hrows.
  { intros j row Hrow.
    assert (forall i c, row !! i = Some c -> c <> 0) as Hcells.
    { intros i c Hc ->. apply (Hnone (Z.of_nat i) (Z.of_nat j)).
      unfold maze_get, grid_get.
      rewrite !(proj2 (Z.leb_le 0 _)) by lia. simpl.
      by rewrite !Nat2Z.id, Hrow. }
    clear Hrow. induction row as [|c row IH]; [done|]. simpl.
    rewrite decide_False by (apply (Hcells 0%nat); done).
    apply IH. intros i c' Hc'. by apply (Hcells (S i)). }
  clear Hnone. induction m as [|row m IH]; [done|]. simpl.
  rewrite (Hrows 0%nat row) by done. apply IH.
  intros j row' Hrow'. by apply (Hrows (S j)).
Qed.

Lemma totalCells_exact (cells : list (Z * Z)) : forall m w h,
  rectangular m w h -> NoDup cells ->
  (forall x y, (x, y) ∈ cells <-> maze_get m x y = Some CELL_EMPTY) ->
  length cells = VisualMonitor.totalCells m.
Proof.
  induction cells as [|[x y] cells IH]; intros m w h Hrect Hnodup Hmem.
  { symmetry. apply totalCells_none. intros x y Hxy. apply Hmem in Hxy.
    by apply elem_of_nil in Hxy. }
  apply NoDup_cons in Hnodup as [Hnotin Hnodup].
  assert (maze_get m x y = Some CELL_EMPTY) as Hcell by (apply Hmem; left).
  destruct (grid_get_Some m w h x y _ Hrect Hcell) as [Hx Hy].
  rewrite <- (totalCells_wall_up m x y Hcell). simpl.
  rewrite (IH (maze_set m x y CELL_WALL) w h); [lia|by apply maze_set_rectangular|done|].
  intros a b. rewrite (maze_get_set m w h) by done.
  destruct (decide ((x, y) = (a, b))) as [Heq|Hne].
  - injection Heq as <- <-. split; [done|discriminate].
  - rewrite <- Hmem, elem_of_cons. split; [by right|]. intros [?|?]; [congruence|done].
Qed.

Lemma NoDup_lattice_cells width height : NoDup (lattice_cells width height).
Proof.
  unfold lattice_cells.
  generalize (NoDup_seqZ 0 ((width - 1) `div` 2)).
  generalize (seqZ 0 ((width - 1) `div` 2)). intros xs Hxs.
  induction Hxs as [|x xs Hnotin Hxs IH]; [constructor|].
  simpl. apply NoDup_app. split; [|split; [|done]].
  - apply NoDup_fmap_2; [|apply NoDup_seqZ]. intros a b Hab. injection Hab. lia.
  - intros [a b] Hin Hin'.
    apply list_elem_of_fmap in Hin as (j & Hj & _).
    apply list_elem_of_bind in Hin' as (x' & Hin' & Hx').
    apply list_elem_of_fmap in Hin' as (j' & Hj' & _).
    simplify_eq. assert (x = x') as -> by lia. done.
Qed.

Lemma length_lattice_cells width height :
  length (lattice_cells width height)
  = (Z.to_nat ((width - 1) `div` 2) * Z.to_nat ((height - 1) `div` 2))%nat.
Proof.
  unfold lattice_cells. rewrite <- (length_seqZ 0 ((width - 1) `div` 2)).
  induction (seqZ 0 ((width - 1) `div` 2)) as [|x xs IH]; [done|].
  csimpl. rewrite length_app, length_fmap, length_seqZ, IH. lia.
Qed.

Lemma elem_of_lattice_cells width height a b :
  (a, b) ∈ lattice_cells width height <->
  lattice (a, b) /\ 0 < a < 2 * ((width - 1) `div` 2) /\
  0 < b < 2 * ((height - 1) `div` 2).
Proof.
  unfold lattice_cells, lattice. simpl. rewrite list_elem_of_bind. split.
  - intros (i & Hin & Hi). apply list_elem_of_fmap in Hin as (j & Heq & Hj).
    apply elem_of_seqZ in Hi, Hj. injection Heq as -> ->.
    Z.to_euclidean_division_equations. lia.
  - intros ([Ha Hb] & Har & Hbr). exists ((a - 1) `div` 2). split.
    + apply list_elem_of_fmap. exists ((b - 1) `div` 2). split.
      * f_equal; Z.to_euclidean_division_equations; lia.
      * apply elem_of_seqZ. Z.to_euclidean_division_equations. lia.
    + apply elem_of_seqZ. Z.to_euclidean_division_equations. lia.
Qed.

Lemma carved_lattice_count width height m carved :
  3 <= width -> 3 <= height -> width `mod` 2 = 1 -> height `mod` 2 = 1 ->
  dfs_inv width height m [] -> carve_inv m carved ->
  length (filter lattice carved)
  = (Z.to_nat ((width - 1) `div` 2) * Z.to_nat ((height - 1) `div` 2))%nat.
Proof.
  intros Hw Hh Hwo Hho Hinv (Hnodup & Hmem & _ & _).
  rewrite <- length_lattice_cells. apply Permutation_length, NoDup_Permutation.
  - by apply NoDup_filter.
  - apply NoDup_lattice_cells.
  - intros [a b]. rewrite list_elem_of_filter, elem_of_lattice_cells, Hmem. split.
    + intros [Hlat Hcell]. split; [done|].
      destruct (dfs_border _ _ _ _ Hinv a b Hcell).
      Z.to_euclidean_division_equations. lia.
    + intros ([Ha Hb] & Har & Hbr). split; [done|]. simpl in *.
      pose proof (dfs_all_carved width height m Hinv
                    (Z.to_nat ((a - 1) `div` 2)) (Z.to_nat ((b - 1) `div` 2))) as Hc.
      replace (1 + 2 * Z.of_nat (Z.to_nat ((a - 1) `div` 2))) with a in Hc
        by (Z.to_euclidean_division_equations; lia).
      replace (1 + 2 * Z.of_nat (Z.to_nat ((b - 1) `div` 2))) with b in Hc
        by (Z.to_euclidean_division_equations; lia).
      apply Hc; Z.to_euclidean_division_equations; lia.
Qed.

(** X23.  A depth-first maze has no loops: whatever the random draws, the
    grid generated for sizes of at least 3 has exactly 2 L - 1 EMPTY
    cells, where L is the number of cells with two odd coordinates inside
    the border; these L cells are joined by L - 1 opened walls, which
    with connectedness makes the corridors a tree.  This is the number
    the visual monitor and the efficiency score count as [totalCells]. *)
Theorem dfs_maze_cell_count rnd width height :
  3 <= width -> 3 <= height ->
  exists m,
    GameLogic.generateMaze rnd width height = Some m /\
    Z.of_nat (VisualMonitor.totalCells m)
    = 2 * (((GameLogic.oddUp width - 1) `div` 2) *
           ((GameLogic.oddUp height - 1) `div` 2)) - 1.
Proof.
  intros Hw Hh.
  destruct (generateMaze_inv rnd width height) as (m & Hm & Hinv); [lia..|].
  exists m. split; [done|].
  destruct (oddUp_ge3 width) as [HW HWo]; [lia|].
  destruct (oddUp_ge3 height) as [HH HHo]; [lia|].
  set (W := GameLogic.oddUp width) in *. set (H := GameLogic.oddUp height) in *.
  unfold GameLogic.generateMaze, generateMazeDFS in Hm. fold W H in Hm.
  rewrite maze_width_wall_grid, maze_height_wall_grid in Hm by lia.
  destruct (dfs_loop_carve_inv W H rnd _ _ _ _ _ [(1, 1)] m
              (dfs_inv_init W H HW HH) (fun d => reflexivity _)
              (carve_inv_init W H HW HH) Hm) as [carved Hc].
  pose proof (carved_lattice_count W H m carved HW HH HWo HHo Hinv Hc) as Hlat.
  destruct Hc as (Hnodup & Hmem & Hcount & _).
  rewrite <- (totalCells_exact carved m W H (dfs_rect _ _ _ _ Hinv) Hnodup Hmem).
  rewrite Hlat in Hcount.
  assert (0 <= (W - 1) `div` 2) by (Z.to_euclidean_division_equations; lia).
  assert (0 <= (H - 1) `div` 2) by (Z.to_euclidean_division_equations; lia).
  nia.
Qed.

Lemma dfs_maze_cell_count_witness :
  3 <= 9 /\ 3 <= 9 /\
  exists m,
    GameLogic.generateMaze rnd_top 9 9 = Some m /\
    Z.of_nat (VisualMonitor.totalCells m)
    = 2 * (((GameLogic.oddUp 9 - 1) `div` 2) * ((GameLogic.oddUp 9 - 1) `div` 2)) - 1.
Proof.
  split; [lia|]. split; [lia|].
  apply (dfs_maze_cell_count rnd_top 9 9); lia.
Defined.
